(** * track-rank: the lookup route [src/app/api/spotify/route.ts]

    A shallow embedding of the route handler that resolves a pasted catalog
    link into a ranked collection, and the properties of its ranking logic.

    Conventions of the embedding:
    - a JavaScript [number] that the provider sends as an integer (popularity,
      offsets, counts, HTTP status) is a [Z];
    - an optional field ([album?], [explicit?]) or a nullable one
      ([preview_url], [next]) is an [option];
    - an [async] function is a computation in the monad [M] below: it threads
      the log of the requests sent to the provider and ends in a value, in a
      thrown exception, or (for a loop that is cut off by its fuel) in
      [Diverge];
    - the provider and the process environment are a [World]: a reply for
      every request the handler can send. *)

From Stdlib Require Import List String Ascii ZArith Lia Bool Arith Sorted Permutation
  DecimalString.
Import ListNotations.

Local Open Scope string_scope.
Local Open Scope list_scope.
Local Open Scope Z_scope.

(** ** Data model (the interfaces at the top of route.ts) *)

Module Image.
Record t := mk { url : string; height : Z; width : Z }.
End Image.

Module SpotifyArtist.
Record t := mk { name : string; id : string }.
End SpotifyArtist.

(** The [album] sub-object of [SpotifyTrack]. *)
Module TrackAlbum.
Record t := mk {
  id : string;
  name : string;
  release_date : string;
  images : list Image.t
}.
End TrackAlbum.

Module SpotifyTrack.
Record t := mk {
  id : string;
  name : string;
  artists : list SpotifyArtist.t;
  popularity : Z;
  duration_ms : Z;
  preview_url : option string;
  album : option TrackAlbum.t;
  explicit : option bool
}.
End SpotifyTrack.

(** An element of [SpotifyAlbumResponse.items]. *)
Module AlbumItem.
Record t := mk { id : string; name : string; artists : list SpotifyArtist.t }.
End AlbumItem.

Module SpotifyAlbumResponse.
Record t := mk { items : list AlbumItem.t; next : option string }.
End SpotifyAlbumResponse.

(** The [album] sub-object of [ProcessedTrack]. *)
Module ProcessedAlbum.
Record t := mk {
  id : string;
  name : string;
  release_date : string;
  total_tracks : Z;
  images : list Image.t
}.
End ProcessedAlbum.

Module ProcessedTrack.
Record t := mk {
  id : string;
  name : string;
  artists : list SpotifyArtist.t;
  popularity : Z;
  duration_ms : Z;
  preview_url : option string;
  album : option ProcessedAlbum.t;
  explicit : option bool
}.
End ProcessedTrack.

Module SpotifyArtistResponse.
Record t := mk {
  id : string;
  name : string;
  genres : list string;
  followers_total : Z;
  images : list Image.t
}.
End SpotifyArtistResponse.

Module SpotifyAlbumDetails.
Record t := mk {
  id : string;
  name : string;
  artists : list SpotifyArtist.t;
  release_date : string;
  total_tracks : Z;
  images : list Image.t
}.
End SpotifyAlbumDetails.

(** [SpotifySearchResponse]: the [tracks] object is flattened. *)
Module SpotifySearchResponse.
Record t := mk { items : list SpotifyTrack.t; next : option string }.
End SpotifySearchResponse.

(** ** Requests, exceptions and the provider *)

(** The calls of the handler, with the part of the URL that varies. *)
Inductive Request : Type :=
| PostToken
| GetTrack (trackId : string)
| GetAlbum (albumId : string)
| GetAlbumTracks (albumId : string) (offset : option Z)
| GetArtist (artistId : string)
| GetSearch (artistName : string) (offset : Z).

(** [error.response] of a failed axios call: its status and
    [data.error.message]. *)
Module ErrorResponse.
Record t := mk { status : Z; message : option string }.
End ErrorResponse.

Inductive Exn : Type :=
| AxiosError (response : option ErrorResponse.t)
| JsError (message : string).

(** What [track.artists[0].id] throws on an empty array. *)
Definition TypeError : Exn := JsError "Cannot read properties of undefined".

Inductive Reply (A : Type) : Type :=
| Success (data : A)
| Failure (response : option ErrorResponse.t).
Arguments Success {A} data.
Arguments Failure {A} response.

Record World := mkWorld {
  SPOTIFY_CLIENT_ID : option string;
  SPOTIFY_CLIENT_SECRET : option string;
  token_endpoint : Reply string;
  tracks_endpoint : string -> Reply SpotifyTrack.t;
  albums_endpoint : string -> Reply SpotifyAlbumDetails.t;
  album_tracks_endpoint : string -> option Z -> Reply SpotifyAlbumResponse.t;
  artists_endpoint : string -> Reply SpotifyArtistResponse.t;
  search_endpoint : string -> Z -> Reply SpotifySearchResponse.t
}.

(** ** The monad of asynchronous computations *)

Inductive Outcome (A : Type) : Type :=
| Ok (a : A)
| Throw (e : Exn)
| Diverge.
Arguments Ok {A} a.
Arguments Throw {A} e.
Arguments Diverge {A}.

Definition M (A : Type) : Type := list Request -> list Request * Outcome A.

Definition ret {A} (a : A) : M A := fun log => (log, Ok a).

Definition throw {A} (e : Exn) : M A := fun log => (log, Throw e).

Definition diverge {A} : M A := fun log => (log, Diverge).

Definition bind {A B} (m : M A) (k : A -> M B) : M B :=
  fun log =>
    match m log with
    | (log', Ok a) => k a log'
    | (log', Throw e) => (log', Throw e)
    | (log', Diverge) => (log', Diverge)
    end.

Notation "x <- m ;; k" := (bind m (fun x => k))
  (at level 61, m at next level, right associativity).

(** [await axios.get(...)] or [axios.post(...)]: the request is logged and the
    provider's reply is the value, or the rejection. *)
Definition axios {A} (r : Request) (reply : Reply A) : M A :=
  fun log =>
    (log ++ [r],
     match reply with
     | Success data => Ok data
     | Failure response => Throw (AxiosError response)
     end).

(** [Promise.all] of two promises: both run (a rejection cancels nothing), and
    the result rejects when one of them does. The source starts the two
    together: their requests interleave, and when both reject the rejection
    that arrives first is the one reported. The model logs the requests of
    the first promise before those of the second and reports the rejection of
    the first; the statements below depend neither on the order of the
    requests of the two promises nor on which of two rejections is
    reported. *)
Definition join {A B} (a : Outcome A) (b : Outcome B) : Outcome (A * B) :=
  match a, b with
  | Ok x, Ok y => Ok (x, y)
  | Throw e, _ => Throw e
  | _, Throw e => Throw e
  | _, _ => Diverge
  end.

Definition promiseAll2 {A B} (ma : M A) (mb : M B) : M (A * B) :=
  fun log =>
    let (log1, a) := ma log in
    let (log2, b) := mb log1 in
    (log2, join a b).

Fixpoint promiseAll {A} (ms : list (M A)) : M (list A) :=
  match ms with
  | [] => ret []
  | m :: rest =>
      fun log =>
        let (log', r) := promiseAll2 m (promiseAll rest) log in
        (log', match r with
               | Ok (x, xs) => Ok (x :: xs)
               | Throw e => Throw e
               | Diverge => Diverge
               end)
  end.

(** ** JavaScript primitives used by the handler *)

(** Truthiness of a string-or-null value: [null], [undefined] and the empty
    string are falsy. *)
Definition truthy (s : option string) : bool :=
  match s with
  | Some s' => negb (s' =? "")%string
  | None => false
  end.

(** [x || 1] on a number. *)
Definition orOne (x : Z) : Z := if x =? 0 then 1 else x.

(** [Array.prototype.sort(compare)]: the sort is stable (ES2019) and, for a
    consistent comparator, returns the one stable sorted arrangement; it is
    modelled by insertion from the right, which computes that arrangement.
    [compare x y > 0] puts [x] after [y]. *)
Section Sort.
Context {A : Type} (compare : A -> A -> Z).

Fixpoint insert (x : A) (l : list A) : list A :=
  match l with
  | [] => [x]
  | y :: l' => if compare x y >? 0 then y :: insert x l' else x :: y :: l'
  end.

Definition sort (l : list A) : list A := fold_right insert [] l.
End Sort.

(** [Array.prototype.findIndex]: the index of the first element that satisfies
    the predicate, [-1] when there is none. *)
Fixpoint findIndexFrom {A} (p : A -> bool) (l : list A) (i : Z) : Z :=
  match l with
  | [] => -1
  | x :: l' => if p x then i else findIndexFrom p l' (i + 1)
  end.

Definition findIndex {A} (p : A -> bool) (l : list A) : Z := findIndexFrom p l 0.

(** [Array.prototype.slice(0, n)]. *)
Definition slice0 {A} (n : nat) (l : list A) : list A := firstn n l.

(** ** The URL patterns

    [url.match(/artist\/([a-zA-Z0-9]+)/)] and its two siblings: the leftmost
    position at which the literal is followed by at least one character of
    the id alphabet; the capture group is the longest run of such characters
    from there (the [+] is greedy and nothing follows it in the pattern). *)

Definition isIdChar (c : ascii) : bool :=
  let n := nat_of_ascii c in
  ((97 <=? n) && (n <=? 122) || (65 <=? n) && (n <=? 90) || (48 <=? n) && (n <=? 57))%nat.

Fixpoint takeId (s : string) : string :=
  match s with
  | String c s' => if isIdChar c then String c (takeId s') else EmptyString
  | EmptyString => EmptyString
  end.

Fixpoint afterPrefix (literal s : string) : option string :=
  match literal, s with
  | EmptyString, _ => Some s
  | String a literal', String b s' =>
      if Ascii.eqb a b then afterPrefix literal' s' else None
  | String _ _, EmptyString => None
  end.

(** The pattern tried at the first position of [s] only. *)
Definition matchHere (literal s : string) : option string :=
  match afterPrefix literal s with
  | Some rest =>
      match takeId rest with
      | EmptyString => None
      | capture => Some capture
      end
  | None => None
  end.

(** The capture group of the leftmost match, [None] for JavaScript's [null]. *)
Fixpoint matchFirst (literal s : string) : option string :=
  match matchHere literal s with
  | Some capture => Some capture
  | None =>
      match s with
      | EmptyString => None
      | String _ s' => matchFirst literal s'
      end
  end.

Definition artistMatch (url : string) : option string := matchFirst "artist/" url.
Definition albumMatch (url : string) : option string := matchFirst "album/" url.
Definition trackMatch (url : string) : option string := matchFirst "track/" url.

(** The [if (artistMatch) ... else if (albumMatch) ... else if (trackMatch) ...
    else ...] chain of [POST], as a value. *)
Inductive Classified : Type :=
| IsArtist (artistId : string)
| IsAlbum (albumId : string)
| IsTrack (trackId : string)
| Unmatched.

Definition classify (url : string) : Classified :=
  match artistMatch url with
  | Some artistId => IsArtist artistId
  | None =>
      match albumMatch url with
      | Some albumId => IsAlbum albumId
      | None =>
          match trackMatch url with
          | Some trackId => IsTrack trackId
          | None => Unmatched
          end
      end
  end.

(** [isSpotifyUrl] of the page ([src/app/page.tsx]): the page posts a query to
    this route when it holds, and sends it to the search route otherwise. *)
Fixpoint includes (needle s : string) : bool :=
  match afterPrefix needle s with
  | Some _ => true
  | None =>
      match s with
      | EmptyString => false
      | String _ s' => includes needle s'
      end
  end.

Definition isSpotifyUrl (query : string) : bool :=
  includes "spotify.com" query || includes "spotify.link" query.

(** ** Responses of the route *)

Module TrackPayload.
Record t := mk {
  track : ProcessedTrack.t;
  albumTracks : list ProcessedTrack.t;
  trackRank : Z;
  totalTracks : Z;
  artistTopTracks : option (list ProcessedTrack.t);
  artistTrackRank : option Z
}.
End TrackPayload.

Inductive Body : Type :=
| ErrorBody (error : string)
| ArtistResult (artist : SpotifyArtistResponse.t) (topTracks : list ProcessedTrack.t)
| AlbumResult (album : SpotifyAlbumDetails.t) (albumTracks : list ProcessedTrack.t)
| TrackResult (payload : TrackPayload.t).

Module Response.
Record t := mk { status : Z; body : Body }.
End Response.

(** [NextResponse.json({ error }, { status })] and [NextResponse.json(result)]. *)
Definition errorResponse (status : Z) (error : string) : Response.t :=
  Response.mk status (ErrorBody error).

Definition jsonResponse (result : Body) : Response.t := Response.mk 200 result.

(** [NextResponse.json(body, { status })] constructs a [Response], and the
    constructor refuses some statuses: it throws a [RangeError] for a status
    outside 200..599, and a [TypeError] for a status that allows no body (204,
    205 and 304 in that range). *)
Definition RangeError : Exn :=
  JsError "RangeError: init.status must be in the range of 200 to 599, inclusive".

Definition InvalidStatus : Exn :=
  JsError "TypeError: Response constructor: Invalid response status code".

Definition nullBodyStatus (status : Z) : bool :=
  (status =? 204) || (status =? 205) || (status =? 304).

Definition validStatus (status : Z) : bool :=
  (200 <=? status) && (status <=? 599) && negb (nullBodyStatus status).

Definition nextResponseJson (response : Response.t) : Outcome Response.t :=
  if (Response.status response <? 200) || (599 <? Response.status response)
  then Throw RangeError
  else if nullBodyStatus (Response.status response)
       then Throw InvalidStatus
       else Ok response.

(** The body and the status that the [catch] clause of [POST] hands to
    [NextResponse.json]. *)
Definition caught (e : Exn) : Response.t :=
  let response :=
    match e with
    | AxiosError response => response
    | JsError _ => None
    end in
  let message :=
    match response with
    | Some r =>
        if truthy (ErrorResponse.message r) then ErrorResponse.message r else None
    | None => None
    end in
  let status :=
    match response with
    | Some r => if ErrorResponse.status r =? 0 then 500 else ErrorResponse.status r
    | None => 500
    end in
  errorResponse status
    (match message with
     | Some m => m
     | None => "Failed to fetch data"
     end).

(** The comparator [(a, b) => b.popularity - a.popularity]. *)
Definition byPopularity (a b : ProcessedTrack.t) : Z :=
  ProcessedTrack.popularity b - ProcessedTrack.popularity a.

(** [track.artists[0].id]: a [TypeError] when the array is empty. *)
Definition firstArtistId (artists : list SpotifyArtist.t) : Outcome string :=
  match artists with
  | [] => Throw TypeError
  | artist :: _ => Ok (SpotifyArtist.id artist)
  end.

Definition lift {A} (o : Outcome A) : M A := fun log => (log, o).

(** [newTracks.filter(track => track.artists[0].id === artistId)]. *)
Fixpoint filterPrimary (artistId : string) (tracks : list SpotifyTrack.t)
  : Outcome (list SpotifyTrack.t) :=
  match tracks with
  | [] => Ok []
  | track :: rest =>
      match firstArtistId (SpotifyTrack.artists track) with
      | Ok id =>
          match filterPrimary artistId rest with
          | Ok kept => Ok (if (id =? artistId)%string then track :: kept else kept)
          | other => other
          end
      | Throw e => Throw e
      | Diverge => Diverge
      end
  end.

(** The object built by the [.map] of [getArtistTopTracks]. *)
Definition processSearchTrack (track : SpotifyTrack.t) : ProcessedTrack.t :=
  ProcessedTrack.mk
    (SpotifyTrack.id track)
    (SpotifyTrack.name track)
    (SpotifyTrack.artists track)
    (SpotifyTrack.popularity track)
    (SpotifyTrack.duration_ms track)
    (SpotifyTrack.preview_url track)
    (match SpotifyTrack.album track with
     | Some album =>
         Some (ProcessedAlbum.mk
                 (TrackAlbum.id album)
                 (TrackAlbum.name album)
                 (TrackAlbum.release_date album)
                 1
                 (TrackAlbum.images album))
     | None => None
     end)
    (SpotifyTrack.explicit track).

(** The rank of the focal id in a collection:
    [tracks.findIndex((t) => t.id === trackId) + 1]. *)
Definition rankOf (tracks : list ProcessedTrack.t) (trackId : string) : Z :=
  findIndex (fun t => (ProcessedTrack.id t =? trackId)%string) tracks + 1.

(** The [result] object of the track branch. *)
Definition trackResult (trackId : string) (track : ProcessedTrack.t)
    (album : ProcessedAlbum.t) (albumTracks artistTopTracks : list ProcessedTrack.t)
  : TrackPayload.t :=
  let trackRank := rankOf albumTracks trackId in
  let artistTrackRank := rankOf artistTopTracks trackId in
  TrackPayload.mk
    track
    albumTracks
    trackRank
    (Z.of_nat (List.length albumTracks))
    (if ProcessedAlbum.total_tracks album =? 1 then Some artistTopTracks else None)
    (if ProcessedAlbum.total_tracks album =? 1 then Some artistTrackRank else None).

(** ** The handler *)

Section Handler.
Variable w : World.

Definition getAccessToken : M string :=
  if negb (truthy (SPOTIFY_CLIENT_ID w)) || negb (truthy (SPOTIFY_CLIENT_SECRET w))
  then throw (JsError "Missing Spotify credentials")
  else axios PostToken (token_endpoint w).

Definition getTrackDetails (trackId : string) : M ProcessedTrack.t :=
  response <- axios (GetTrack trackId) (tracks_endpoint w trackId) ;;
  albumResponse <-
    match SpotifyTrack.album response with
    | Some album =>
        details <- axios (GetAlbum (TrackAlbum.id album))
                         (albums_endpoint w (TrackAlbum.id album)) ;;
        ret (Some details)
    | None => ret None
    end ;;
  ret (ProcessedTrack.mk
         (SpotifyTrack.id response)
         (SpotifyTrack.name response)
         (map (fun artist =>
                 SpotifyArtist.mk (SpotifyArtist.name artist) (SpotifyArtist.id artist))
              (SpotifyTrack.artists response))
         (SpotifyTrack.popularity response)
         (SpotifyTrack.duration_ms response)
         (SpotifyTrack.preview_url response)
         (match SpotifyTrack.album response with
          | Some album =>
              Some (ProcessedAlbum.mk
                      (TrackAlbum.id album)
                      (TrackAlbum.name album)
                      (TrackAlbum.release_date album)
                      (match albumResponse with
                       | Some details => orOne (SpotifyAlbumDetails.total_tracks details)
                       | None => 1
                       end)
                      (match albumResponse with
                       | Some details => SpotifyAlbumDetails.images details
                       | None => TrackAlbum.images album
                       end))
          | None => None
          end)
         (SpotifyTrack.explicit response)).

(** The [while (response.data.next)] loop of [getAlbumTracks]. [response] is
    the first page throughout: the loop never assigns it. The condition is
    tested before the fuel, so the fuel only cuts off iterations that the
    code would run. *)
Fixpoint fetchMorePages (fuel : nat) (albumId : string)
    (response : SpotifyAlbumResponse.t) (allTracks : list AlbumItem.t) (offset : Z)
  : M (list AlbumItem.t) :=
  if truthy (SpotifyAlbumResponse.next response) then
    match fuel with
    | O => diverge
    | S fuel' =>
        nextResponse <- axios (GetAlbumTracks albumId (Some offset))
                              (album_tracks_endpoint w albumId (Some offset)) ;;
        fetchMorePages fuel' albumId response
          (allTracks ++ SpotifyAlbumResponse.items nextResponse) (offset + 50)
    end
  else ret allTracks.

(** The callback of [allTracks.map] in [getAlbumTracks]. *)
Definition withAlbumImages (albumResponse : SpotifyAlbumDetails.t) (track : AlbumItem.t)
  : M ProcessedTrack.t :=
  trackDetails <- getTrackDetails (AlbumItem.id track) ;;
  ret (ProcessedTrack.mk
         (ProcessedTrack.id trackDetails)
         (ProcessedTrack.name trackDetails)
         (ProcessedTrack.artists trackDetails)
         (ProcessedTrack.popularity trackDetails)
         (ProcessedTrack.duration_ms trackDetails)
         (ProcessedTrack.preview_url trackDetails)
         (match ProcessedTrack.album trackDetails with
          | Some album =>
              Some (ProcessedAlbum.mk
                      (ProcessedAlbum.id album)
                      (ProcessedAlbum.name album)
                      (ProcessedAlbum.release_date album)
                      (ProcessedAlbum.total_tracks album)
                      (SpotifyAlbumDetails.images albumResponse))
          | None => None
          end)
         (ProcessedTrack.explicit trackDetails)).

Definition getAlbumTracks (fuel : nat) (albumId : string) : M (list ProcessedTrack.t) :=
  albumResponse <- axios (GetAlbum albumId) (albums_endpoint w albumId) ;;
  response <- axios (GetAlbumTracks albumId None)
                    (album_tracks_endpoint w albumId None) ;;
  allTracks <- fetchMorePages fuel albumId response
                 (SpotifyAlbumResponse.items response) 50 ;;
  tracks <- promiseAll (map (withAlbumImages albumResponse) allTracks) ;;
  ret (sort byPopularity tracks).

Definition getArtistDetails (artistId : string) : M SpotifyArtistResponse.t :=
  axios (GetArtist artistId) (artists_endpoint w artistId).

(** The [while (primaryArtistTracks.length < 100 && offset < 200)] loop of
    [getArtistTopTracks]; [limit] is the constant 50. *)
Fixpoint searchPages (fuel : nat) (artistId artistName : string)
    (primaryArtistTracks : list SpotifyTrack.t) (offset : Z)
  : M (list SpotifyTrack.t) :=
  if (Z.of_nat (List.length primaryArtistTracks) <? 100) && (offset <? 200) then
    match fuel with
    | O => diverge
    | S fuel' =>
        searchResponse <- axios (GetSearch artistName offset)
                                (search_endpoint w artistName offset) ;;
        let newTracks := SpotifySearchResponse.items searchResponse in
        if (Z.of_nat (List.length newTracks) =? 0) then ret primaryArtistTracks
        else
          newPrimaryTracks <- lift (filterPrimary artistId newTracks) ;;
          searchPages fuel' artistId artistName
            (primaryArtistTracks ++ newPrimaryTracks) (offset + 50)
    end
  else ret primaryArtistTracks.

(** The offset starts at 0 and grows by 50, so the loop runs at most four
    times: fuel 4 is never exhausted ([searchPages_fuel] below). *)
Definition getArtistTopTracks (artistId : string) : M (list ProcessedTrack.t) :=
  artistResponse <- axios (GetArtist artistId) (artists_endpoint w artistId) ;;
  primaryArtistTracks <-
    searchPages 4 artistId (SpotifyArtistResponse.name artistResponse) [] 0 ;;
  ret (slice0 100 (sort byPopularity (map processSearchTrack primaryArtistTracks))).

Definition artistBranch (artistId : string) : M Response.t :=
  results <- promiseAll2 (getArtistDetails artistId) (getArtistTopTracks artistId) ;;
  let (artist, topTracks) := results in
  ret (jsonResponse (ArtistResult artist topTracks)).

Definition albumBranch (fuel : nat) (albumId : string) : M Response.t :=
  albumResponse <- axios (GetAlbum albumId) (albums_endpoint w albumId) ;;
  albumTracks <- getAlbumTracks fuel albumId ;;
  ret (jsonResponse
         (AlbumResult
            (SpotifyAlbumDetails.mk
               (SpotifyAlbumDetails.id albumResponse)
               (SpotifyAlbumDetails.name albumResponse)
               (SpotifyAlbumDetails.artists albumResponse)
               (SpotifyAlbumDetails.release_date albumResponse)
               (SpotifyAlbumDetails.total_tracks albumResponse)
               (SpotifyAlbumDetails.images albumResponse))
            albumTracks)).

Definition trackBranch (fuel : nat) (trackId : string) : M Response.t :=
  track <- getTrackDetails trackId ;;
  match ProcessedTrack.album track with
  | None => ret (errorResponse 404 "Track album information not found")
  | Some album =>
      let albumId := ProcessedAlbum.id album in
      artistId <- lift (firstArtistId (ProcessedTrack.artists track)) ;;
      if negb (truthy (Some artistId))
      then ret (errorResponse 404 "Artist information not found")
      else
        results <- promiseAll2 (getAlbumTracks fuel albumId)
                               (getArtistTopTracks artistId) ;;
        let (albumTracks, artistTopTracks) := results in
        ret (jsonResponse
               (TrackResult (trackResult trackId track album albumTracks artistTopTracks)))
  end.

(** The body of the [try] block of [POST]; [url] is the field of the request's
    JSON, [None] when it is missing. *)
Definition tryPOST (fuel : nat) (url : option string) : M Response.t :=
  if negb (truthy url) then ret (errorResponse 400 "URL is required")
  else
    let url := match url with Some u => u | None => "" end in
    accessToken <- getAccessToken ;;
    match classify url with
    | IsArtist artistId => artistBranch artistId
    | IsAlbum albumId => albumBranch fuel albumId
    | IsTrack trackId => trackBranch fuel trackId
    | Unmatched =>
        ret (errorResponse 400
               "Invalid Spotify URL. Please provide a valid artist, album, or track URL.")
    end.

(** [POST]: the [try] block, and the [catch] clause, whose
    [NextResponse.json] can throw in its turn; that exception leaves the
    handler. The statuses of the [try] block (200, 400, 404) are accepted. *)
Definition POST (fuel : nat) (url : option string) : M Response.t :=
  fun log =>
    match tryPOST fuel url log with
    | (log', Throw e) => (log', nextResponseJson (caught e))
    | other => other
    end.

End Handler.

(** ** Vocabulary of the properties *)

(** A collection in which no track is followed by a more popular one. *)
Definition Descending (l : list ProcessedTrack.t) : Prop :=
  StronglySorted
    (fun a b => ProcessedTrack.popularity a >= ProcessedTrack.popularity b) l.

(** Position follows popularity: a more popular track stands strictly before a
    less popular one. *)
Definition RankedByPopularity (l : list ProcessedTrack.t) : Prop :=
  forall i j a b,
    nth_error l i = Some a -> nth_error l j = Some b ->
    ProcessedTrack.popularity a > ProcessedTrack.popularity b ->
    (i < j)%nat.

(** The page requests that [n] iterations send, from [offset] on. *)
Definition pageRequests (albumId : string) (offset : Z) (n : nat) : list Request :=
  map (fun k => GetAlbumTracks albumId (Some (offset + 50 * Z.of_nat k))) (seq 0 n).

(** The search requests that [n] iterations send, from [offset] on. *)
Definition searchRequests (artistName : string) (offset : Z) (n : nat) : list Request :=
  map (fun k => GetSearch artistName (offset + 50 * Z.of_nat k)) (seq 0 n).

(** A track whose first listed artist is [artistId]. *)
Definition PrimaryArtist {T} (artists : T -> list SpotifyArtist.t) (artistId : string)
    (track : T) : Prop :=
  exists artist rest, artists track = artist :: rest /\ SpotifyArtist.id artist = artistId.

(** A non-empty string over the id alphabet. *)
Fixpoint allIdChars (s : string) : bool :=
  match s with
  | EmptyString => true
  | String c s' => isIdChar c && allIdChars s'
  end.

Definition isIdString (s : string) : bool :=
  negb (s =? "")%string && allIdChars s.

(** The empty string, or a string whose first character is outside the id
    alphabet: what may follow an id in a URL ([/], [?], [#], ...). *)
Definition endsId (s : string) : bool :=
  match s with
  | EmptyString => true
  | String c _ => negb (isIdChar c)
  end.

(** [s] without its first [k] characters. *)
Fixpoint dropStr (k : nat) (s : string) : string :=
  match k, s with
  | O, _ => s
  | S k', String _ s' => dropStr k' s'
  | S _, EmptyString => EmptyString
  end.

(** A computation that never throws the [TypeError], from a given log. *)
Definition NoTypeError {A} (m : M A) (log : list Request) : Prop :=
  snd (m log) <> Throw TypeError.

(** Every track that the provider sends lists at least one artist. *)
Definition ArtistsNonEmpty (w : World) : Prop :=
  (forall trackId track,
      tracks_endpoint w trackId = Success track -> SpotifyTrack.artists track <> [])
  /\ (forall artistName offset page track,
        search_endpoint w artistName offset = Success page ->
        In track (SpotifySearchResponse.items page) ->
        SpotifyTrack.artists track <> []).

(** ** A small catalogue

    A provider with a three-track album (popularities 40, 90, 60), a single, an
    album of 51 tracks whose listing is paginated, and a few malformed
    tracks. *)

Module Demo.
Definition artistOne : SpotifyArtist.t := SpotifyArtist.mk "Artist One" "ar1".
Definition guest : SpotifyArtist.t := SpotifyArtist.mk "Guest" "ar2".
Definition anonymous : SpotifyArtist.t := SpotifyArtist.mk "Unknown" "".
Definition cover : Image.t := Image.mk "https://i.scdn.co/image/cover" 640 640.

Definition albumRef (albumId : string) : TrackAlbum.t :=
  TrackAlbum.mk albumId albumId "2020-01-01" [].

Definition rawTrack (trackId : string) (popularity : Z)
    (artists : list SpotifyArtist.t) (albumId : option string) : SpotifyTrack.t :=
  SpotifyTrack.mk trackId trackId artists popularity 180000 None
    (option_map albumRef albumId) (Some false).

Definition notFound {A} : Reply A :=
  Failure (Some (ErrorResponse.mk 404 (Some "Non existing id"))).

Definition tracks (trackId : string) : Reply SpotifyTrack.t :=
  if (trackId =? "t1")%string then Success (rawTrack "t1" 40 [artistOne] (Some "A3"))
  else if (trackId =? "t2")%string then Success (rawTrack "t2" 90 [artistOne; guest] (Some "A3"))
  else if (trackId =? "t3")%string then Success (rawTrack "t3" 60 [artistOne] (Some "A3"))
  else if (trackId =? "s1")%string then Success (rawTrack "s1" 70 [artistOne] (Some "S1"))
  else if (trackId =? "n1")%string then Success (rawTrack "n1" 10 [] (Some "A3"))
  else if (trackId =? "e1")%string then Success (rawTrack "e1" 10 [anonymous] (Some "A3"))
  else notFound.

Definition albumDetails (albumId : string) (total : Z) : SpotifyAlbumDetails.t :=
  SpotifyAlbumDetails.mk albumId albumId [artistOne] "2020-01-01" total [cover].

Definition albums (albumId : string) : Reply SpotifyAlbumDetails.t :=
  if (albumId =? "A3")%string then Success (albumDetails "A3" 3)
  else if (albumId =? "S1")%string then Success (albumDetails "S1" 1)
  else if (albumId =? "L51")%string then Success (albumDetails "L51" 51)
  else notFound.

Definition item (trackId : string) : AlbumItem.t :=
  AlbumItem.mk trackId trackId [artistOne].

Definition albumTracks (albumId : string) (offset : option Z)
  : Reply SpotifyAlbumResponse.t :=
  if (albumId =? "A3")%string then
    Success (SpotifyAlbumResponse.mk [item "t1"; item "t2"; item "t3"] None)
  else if (albumId =? "S1")%string then
    Success (SpotifyAlbumResponse.mk [item "s1"] None)
  else if (albumId =? "L51")%string then
    match offset with
    | None =>
        Success (SpotifyAlbumResponse.mk [item "t1"]
                   (Some "https://api.spotify.com/v1/albums/L51/tracks?offset=50&limit=50"))
    | Some o =>
        Success (SpotifyAlbumResponse.mk (if o =? 50 then [item "t2"] else []) None)
    end
  else notFound.

Definition artists (artistId : string) : Reply SpotifyArtistResponse.t :=
  if (artistId =? "ar1")%string
  then Success (SpotifyArtistResponse.mk "ar1" "Artist One" ["pop"] 1000 [cover])
  else notFound.

Definition search (artistName : string) (offset : Z) : Reply SpotifySearchResponse.t :=
  if (artistName =? "Artist One")%string && (offset =? 0) then
    Success (SpotifySearchResponse.mk
               [rawTrack "t3" 60 [artistOne] (Some "A3");
                rawTrack "f1" 95 [guest; artistOne] (Some "F1");
                rawTrack "s1" 70 [artistOne] (Some "S1");
                rawTrack "t2" 90 [artistOne; guest] (Some "A3")]
               (Some "https://api.spotify.com/v1/search?offset=50"))
  else Success (SpotifySearchResponse.mk [] None).

Definition world : World :=
  mkWorld (Some "client-id") (Some "client-secret") (Success "token")
    tracks albums albumTracks artists search.

(** What [getAlbumTracks] returns for the three-track album. *)
Definition albumA3 : list ProcessedTrack.t :=
  Eval vm_compute in
    match snd (getAlbumTracks world 0 "A3" []) with
    | Ok tracks => tracks
    | _ => []
    end.

(** The three-track album, popularities 40, 90, 60, once sorted. *)
Definition ranked : list ProcessedTrack.t :=
  sort byPopularity
    (map processSearchTrack
       [rawTrack "t1" 40 [artistOne] (Some "A3");
        rawTrack "t2" 90 [artistOne; guest] (Some "A3");
        rawTrack "t3" 60 [artistOne] (Some "A3")]).
End Demo.

(** The catalogue without the track that lists no artist. *)
Definition cleanWorld : World :=
  mkWorld (Some "client-id") (Some "client-secret") (Success "token")
    (fun trackId => if (trackId =? "n1")%string then Demo.notFound else Demo.tracks trackId)
    Demo.albums Demo.albumTracks Demo.artists Demo.search.

(** ** The page: what it posts to the route ([src/app/page.tsx]) *)

(** The [type] of a search result. *)
Inductive SearchType : Type :=
| TypeTrack
| TypeArtist
| TypeAlbum.

Definition searchTypeName (type : SearchType) : string :=
  match type with
  | TypeTrack => "track"
  | TypeArtist => "artist"
  | TypeAlbum => "album"
  end.

(** The URL that [handleResultClick] posts for the chosen result:
    [`https://open.spotify.com/${type}/${id}`]. *)
Definition resultUrl (type : SearchType) (id : string) : string :=
  ("https://open.spotify.com/" ++ searchTypeName type ++ "/" ++ id)%string.

(** What [debouncedSearch] does with the text of the search box: nothing
    (the results are cleared), a post to the lookup route
    ([axios.post('/api/spotify', { url: query })]), or a request to the search
    route ([/api/spotify/search?q=...&type=track,artist,album]); [q] is the
    text that the page gives to [encodeURIComponent] and that the route reads
    back from its [q] parameter. *)
Inductive PageAction : Type :=
| NoAction
| PostLookup (url : string)
| GetSearchResults (q type : string).

(** The callback of [debouncedSearch]; [trim] is JavaScript's
    [String.prototype.trim], a parameter here. *)
Definition debouncedSearch (trim : string -> string) (query : string) : PageAction :=
  if negb (truthy (Some (trim query))) then NoAction
  else if isSpotifyUrl query then PostLookup query
  else GetSearchResults query "track,artist,album".

(** What the route is expected to make of that URL. *)
Definition classifiedAs (type : SearchType) (id : string) : Classified :=
  match type with
  | TypeTrack => IsTrack id
  | TypeArtist => IsArtist id
  | TypeAlbum => IsAlbum id
  end.

(** [Number.prototype.toString] on an integer, and [padStart]. *)
Definition toString (n : Z) : string := NilZero.string_of_int (Z.to_int n).

Definition padStart (targetLength : nat) (pad : ascii) (s : string) : string :=
  (string_of_list_ascii (repeat pad (targetLength - String.length s)) ++ s)%string.

(** [Number.MAX_SAFE_INTEGER], 2^53 - 1. *)
Definition MAX_SAFE_INTEGER : Z := 9007199254740991.

(** [formatDuration] of the page, on a whole number of milliseconds:
    [Math.floor] of a quotient rounds down, [%] takes the sign of the
    dividend. The source computes on doubles; the integer arithmetic below is
    what it computes for [ms] up to [MAX_SAFE_INTEGER] in absolute value
    (there the quotients round to the right side of every whole number and
    [toString] prints plain decimals), and the model says nothing beyond. *)
Definition formatDuration (ms : Z) : string :=
  let minutes := ms / 60000 in
  let seconds := Z.rem ms 60000 / 1000 in
  (toString minutes ++ ":" ++ padStart 2 "0" (toString seconds))%string.

(** ** More vocabulary *)

(** The provider answers the two requests of [getTrackDetails] for this id:
    the track, and its album when it has one. *)
Definition DetailsAvailable (w : World) (trackId : string) : Prop :=
  exists track,
    tracks_endpoint w trackId = Success track
    /\ match SpotifyTrack.album track with
       | Some album => exists details, albums_endpoint w (TrackAlbum.id album) = Success details
       | None => True
       end.

(** The provider rejects some request with this response. *)
Definition Rejects (w : World) (response : option ErrorResponse.t) : Prop :=
  token_endpoint w = Failure response
  \/ (exists trackId, tracks_endpoint w trackId = Failure response)
  \/ (exists albumId, albums_endpoint w albumId = Failure response)
  \/ (exists albumId offset, album_tracks_endpoint w albumId offset = Failure response)
  \/ (exists artistId, artists_endpoint w artistId = Failure response)
  \/ (exists artistName offset, search_endpoint w artistName offset = Failure response).

(** The exceptions of the [try] block: the missing credentials, the missing
    first artist, and the rejections of the provider. *)
Definition Thrown (w : World) (e : Exn) : Prop :=
  e = JsError "Missing Spotify credentials"
  \/ e = TypeError
  \/ exists response, e = AxiosError response /\ Rejects w response.

Definition Throws (w : World) {A} (m : M A) : Prop :=
  forall log e, snd (m log) = Throw e -> Thrown w e.

(** The error answer of the [catch] clause for a failed request. *)
Definition mirrored (response : option ErrorResponse.t) : Response.t :=
  caught (AxiosError response).

(** The catalogue served to a deployment without credentials. *)
Definition unconfigured : World :=
  mkWorld None (Some "client-secret") (Success "token")
    Demo.tracks Demo.albums Demo.albumTracks Demo.artists Demo.search.

(** A provider that rejects every album request with the status 999. *)
Definition outOfRange : World :=
  mkWorld (Some "client-id") (Some "client-secret") (Success "token")
    Demo.tracks
    (fun albumId => Failure (Some (ErrorResponse.mk 999 (Some "Unknown"))))
    Demo.albumTracks Demo.artists Demo.search.

(** A provider whose tracks carry no album. *)
Definition albumless : World :=
  mkWorld (Some "client-id") (Some "client-secret") (Success "token")
    (fun trackId => Success (Demo.rawTrack trackId 5 [Demo.artistOne] None))
    Demo.albums Demo.albumTracks Demo.artists Demo.search.

(** The computation only adds to the log, and every request it adds
    satisfies [P]. *)
Definition Sends {A} (P : Request -> Prop) (m : M A) : Prop :=
  forall log, exists sent, fst (m log) = log ++ sent /\ Forall P sent.

(** The requests of the data endpoints: everything but the token request. *)
Definition isData (r : Request) : Prop := r <> PostToken.

(** The requests of an artist lookup. *)
Definition isArtistLookup (artistId : string) (r : Request) : Prop :=
  r = GetArtist artistId \/ exists artistName offset, r = GetSearch artistName offset.

(** ** The album route ([src/app/api/tracks/route.ts])

    The route answers with the tracks of an album, most popular first. It
    sends the listing request and one request per listed track, with the
    token of the environment; the computations below keep the outcome of the
    requests and leave their log out. *)

Module TracksRoute.

Record Provider := mkProvider {
  album_tracks : string -> Reply (list AlbumItem.t);
  track : string -> Reply SpotifyTrack.t
}.

Inductive Answer : Type :=
| Tracks (tracks : list SpotifyTrack.t)
| Error (status : Z) (error : string).

(** [await axios.get(...)]. *)
Definition await {A} (reply : Reply A) : Outcome A :=
  match reply with
  | Success data => Ok data
  | Failure response => Throw (AxiosError response)
  end.

Definition andThen {A B} (o : Outcome A) (k : A -> Outcome B) : Outcome B :=
  match o with
  | Ok a => k a
  | Throw e => Throw e
  | Diverge => Diverge
  end.

(** [Promise.all] of the outcomes of the requests. *)
Fixpoint all {A} (os : list (Outcome A)) : Outcome (list A) :=
  match os with
  | [] => Ok []
  | o :: rest =>
      match join o (all rest) with
      | Ok (x, xs) => Ok (x :: xs)
      | Throw e => Throw e
      | Diverge => Diverge
      end
  end.

Definition extractAlbumId (url : string) : option string := matchFirst "album/" url.

(** The comparator [(a, b) => b.popularity - a.popularity]. *)
Definition byPopularity (a b : SpotifyTrack.t) : Z :=
  SpotifyTrack.popularity b - SpotifyTrack.popularity a.

(** The [try] block; [url] is [None] when the request's JSON has no such
    field, and [url.match] then throws. *)
Definition tryPOST (p : Provider) (url : option string) : Outcome Answer :=
  match url with
  | None => Throw TypeError
  | Some url =>
      match extractAlbumId url with
      | None => Ok (Error 400 "Invalid Spotify album URL")
      | Some albumId =>
          andThen (await (album_tracks p albumId)) (fun items =>
          andThen (all (map (fun item => await (track p (AlbumItem.id item))) items))
                  (fun tracks =>
          Ok (Tracks (sort byPopularity tracks))))
      end
  end.

Definition POST (p : Provider) (url : option string) : Answer :=
  match tryPOST p url with
  | Ok answer => answer
  | _ => Error 500 "Failed to fetch tracks"
  end.

(** The album of three tracks, and an album with a track that the provider
    does not know. *)
Definition demo : Provider :=
  mkProvider
    (fun albumId =>
       if (albumId =? "A3")%string
       then Success [Demo.item "t1"; Demo.item "t2"; Demo.item "t3"]
       else if (albumId =? "B2")%string
            then Success [Demo.item "t1"; Demo.item "gone"]
            else Failure (Some (ErrorResponse.mk 404 (Some "Non existing id"))))
    Demo.tracks.

End TracksRoute.

(** ** The search route ([src/app/api/spotify/search/route.ts]) *)

Module SearchRoute.

(** The token request and the search request ([limit=10]). *)
Inductive Request : Type :=
| PostToken
| GetSearch (query type : string).

Section Route.
Variable Data : Type.

Record Provider := mkProvider {
  token : Reply string;
  search : string -> string -> Reply Data
}.

Inductive Answer : Type :=
| Results (data : Data)
| Error (status : Z) (error : string).

(** The error and the status that the [catch] clause hands to
    [NextResponse.json]. *)
Definition caught (response : option ErrorResponse.t) : Answer :=
  Error
    (match response with
     | Some r => if ErrorResponse.status r =? 0 then 500 else ErrorResponse.status r
     | None => 500
     end)
    (match response with
     | Some r =>
         if truthy (ErrorResponse.message r)
         then match ErrorResponse.message r with
              | Some m => m
              | None => "Failed to search Spotify"
              end
         else "Failed to search Spotify"
     | None => "Failed to search Spotify"
     end).

(** [NextResponse.json] on an answer: the response constructor refuses a
    status outside 200..599 and the statuses that allow no body. *)
Definition nextResponseJson (answer : Answer) : Outcome Answer :=
  match answer with
  | Results _ => Ok answer
  | Error status _ =>
      if (status <? 200) || (599 <? status) then Throw RangeError
      else if nullBodyStatus status then Throw InvalidStatus
           else Ok answer
  end.

(** [GET]; [q] and [type] are the two query parameters, [None] when absent.
    The result is the requests sent, in order, and the answer, or the
    exception that leaves the handler when the [catch] clause throws. *)
Definition GET (p : Provider) (q type : option string)
  : list Request * Outcome Answer :=
  let type :=
    if truthy type
    then match type with Some t => t | None => ""%string end
    else "track,artist,album"%string in
  if negb (truthy q) then ([], Ok (Error 400 "Search query is required"))
  else
    let query := match q with Some s => s | None => ""%string end in
    match token p with
    | Failure response => ([PostToken], nextResponseJson (caught response))
    | Success accessToken =>
        match search p query type with
        | Failure response =>
            ([PostToken; GetSearch query type], nextResponseJson (caught response))
        | Success data => ([PostToken; GetSearch query type], Ok (Results data))
        end
    end.
End Route.

Arguments token {Data} p.
Arguments search {Data} p query type.
Arguments Results {Data} data.
Arguments Error {Data} status error.
Arguments GET {Data} p q type.
Arguments mkProvider {Data} token search.

End SearchRoute.

(** ** The results dropdown of the page ([renderSearchResults])

    The list [allResults] that the page renders from a search response: the
    exact artist match first, then the results of the three kinds taken in
    turn. The response is there (without one the function returns [null] at
    once); [toLowerCase] is JavaScript's, a parameter here. *)

Module SearchResults.

Inductive Filter : Type :=
| FilterAll
| FilterTrack
| FilterArtist
| FilterAlbum.

Inductive SearchResult : Type :=
| ResultTrack (data : ProcessedTrack.t)
| ResultArtist (data : SpotifyArtistResponse.t)
| ResultAlbum (data : SpotifyAlbumDetails.t).

(** [SearchResponse]: each of the three [items] arrays, [None] when the
    response lacks the kind. *)
Record SearchResponse := mkSearchResponse {
  tracks : option (list ProcessedTrack.t);
  artists : option (list SpotifyArtistResponse.t);
  albums : option (list SpotifyAlbumDetails.t)
}.

(** [xs?.length || 0] and [xs?.[i]]. *)
Definition lengthOr0 {X} (xs : option (list X)) : nat :=
  match xs with
  | Some l => List.length l
  | None => O
  end.

Definition at_ {X} (xs : option (list X)) (i : nat) : option X :=
  match xs with
  | Some l => nth_error l i
  | None => None
  end.

Section Render.
Variable toLowerCase : string -> string.
Variable searchQuery : string.
Variable selectedFilter : Filter.
Variable searchResults : SearchResponse.

Definition filteredTracks : option (list ProcessedTrack.t) :=
  match selectedFilter with
  | FilterAll | FilterTrack => tracks searchResults
  | _ => Some []
  end.

Definition filteredArtists : option (list SpotifyArtistResponse.t) :=
  match selectedFilter with
  | FilterAll | FilterArtist => artists searchResults
  | _ => Some []
  end.

Definition filteredAlbums : option (list SpotifyAlbumDetails.t) :=
  match selectedFilter with
  | FilterAll | FilterAlbum => albums searchResults
  | _ => Some []
  end.

Definition hasResults : bool :=
  negb ((lengthOr0 filteredTracks =? 0)%nat
        && (lengthOr0 filteredArtists =? 0)%nat
        && (lengthOr0 filteredAlbums =? 0)%nat).

Definition exactArtistMatch : option SpotifyArtistResponse.t :=
  match filteredArtists with
  | Some l =>
      find (fun artist =>
              (toLowerCase (SpotifyArtistResponse.name artist) =? toLowerCase searchQuery)%string
              && (SpotifyArtistResponse.followers_total artist >? 10000))
           l
  | None => None
  end.

Definition maxResults : nat :=
  Nat.max (Nat.max (lengthOr0 filteredTracks) (lengthOr0 filteredArtists))
          (lengthOr0 filteredAlbums).

(** The condition under which the artist at index [i] is pushed. *)
Definition notTheExactMatch (artist : SpotifyArtistResponse.t) : bool :=
  match exactArtistMatch with
  | Some exact =>
      negb (SpotifyArtistResponse.id artist =? SpotifyArtistResponse.id exact)%string
  | None => true
  end.

(** The body of the [for] loop at index [i], then the remaining [count]
    iterations. *)
Fixpoint pushFrom (count i : nat) (allResults : list SearchResult) : list SearchResult :=
  match count with
  | O => allResults
  | S count' =>
      let allResults :=
        match at_ filteredTracks i with
        | Some track => allResults ++ [ResultTrack track]
        | None => allResults
        end in
      let allResults :=
        match at_ filteredArtists i with
        | Some artist =>
            if notTheExactMatch artist then allResults ++ [ResultArtist artist]
            else allResults
        | None => allResults
        end in
      let allResults :=
        match at_ filteredAlbums i with
        | Some album => allResults ++ [ResultAlbum album]
        | None => allResults
        end in
      pushFrom count' (S i) allResults
  end.

(** What the iteration at index [i] pushes. *)
Definition row (i : nat) : list SearchResult :=
  match at_ filteredTracks i with Some track => [ResultTrack track] | None => [] end
  ++ match at_ filteredArtists i with
     | Some artist => if notTheExactMatch artist then [ResultArtist artist] else []
     | None => []
     end
  ++ match at_ filteredAlbums i with Some album => [ResultAlbum album] | None => [] end.

(** The list rendered, [None] where the function returns [null]. *)
Definition renderSearchResults : option (list SearchResult) :=
  if hasResults
  then Some (pushFrom maxResults 0
               (match exactArtistMatch with
                | Some exact => [ResultArtist exact]
                | None => []
                end))
  else None.
End Render.

(** The results of one kind, in the order of the list. *)
Definition tracksOf (rows : list SearchResult) : list ProcessedTrack.t :=
  flat_map (fun r => match r with ResultTrack t => [t] | _ => [] end) rows.

Definition artistsOf (rows : list SearchResult) : list SpotifyArtistResponse.t :=
  flat_map (fun r => match r with ResultArtist a => [a] | _ => [] end) rows.

Definition albumsOf (rows : list SearchResult) : list SpotifyAlbumDetails.t :=
  flat_map (fun r => match r with ResultAlbum a => [a] | _ => [] end) rows.

Definition orEmpty {X} (xs : option (list X)) : list X :=
  match xs with
  | Some l => l
  | None => []
  end.

(** A response with two artists, one of them the query, and one track. *)
Definition demoArtist (id name : string) (followers : Z) : SpotifyArtistResponse.t :=
  SpotifyArtistResponse.mk id name [] followers [].

Definition demoResponse : SearchResponse :=
  mkSearchResponse
    (Some [processSearchTrack (Demo.rawTrack "t1" 40 [Demo.artistOne] (Some "A3"))])
    (Some [demoArtist "ar2" "Guest" 500; demoArtist "ar1" "Artist One" 20000])
    None.

End SearchResults.

(** ** Reasoning about computations in [M] *)

Lemma bind_Ok {A B} (m : M A) (k : A -> M B) log log' b :
  bind m k log = (log', Ok b) ->
  exists a log1, m log = (log1, Ok a) /\ k a log1 = (log', Ok b).
Proof.
  unfold bind. destruct (m log) as [log1 [a | e | ]]; intros H.
  - exists a, log1. split; [reflexivity | exact H].
  - discriminate H.
  - discriminate H.
Qed.

Lemma ret_Ok {A} (a b : A) log log' :
  ret a log = (log', Ok b) -> log' = log /\ b = a.
Proof. unfold ret. intros H. injection H as <- <-. split; reflexivity. Qed.

Lemma lift_Ok {A} (o : Outcome A) log log' a :
  lift o log = (log', Ok a) -> log' = log /\ o = Ok a.
Proof. unfold lift. intros H. injection H as <- ->. split; reflexivity. Qed.

Lemma axios_Ok {A} (r : Request) (reply : Reply A) log log' a :
  axios r reply log = (log', Ok a) -> log' = log ++ [r] /\ reply = Success a.
Proof.
  unfold axios. destruct reply as [d | resp]; intros H.
  - injection H as <- <-. split; reflexivity.
  - discriminate H.
Qed.

Lemma join_Ok {A B} (a : Outcome A) (b : Outcome B) x y :
  join a b = Ok (x, y) -> a = Ok x /\ b = Ok y.
Proof.
  destruct a, b; simpl; intros H; try discriminate H.
  injection H as <- <-. split; reflexivity.
Qed.

Lemma promiseAll2_Ok {A B} (ma : M A) (mb : M B) log log' x y :
  promiseAll2 ma mb log = (log', Ok (x, y)) ->
  exists log1, ma log = (log1, Ok x) /\ mb log1 = (log', Ok y).
Proof.
  unfold promiseAll2. destruct (ma log) as [log1 a].
  destruct (mb log1) as [log2 b] eqn:Eb.
  intros H. injection H as <- H. apply join_Ok in H. destruct H as [-> ->].
  exists log1. split; [reflexivity | exact Eb].
Qed.

(** Unpacks the successful runs in the hypotheses, one step of the source at a
    time. *)
Ltac run_ok :=
  repeat match goal with
    | H : bind _ _ _ = (_, Ok _) |- _ =>
        let a := fresh "v" in
        let l := fresh "log" in
        let H1 := fresh "Hrun" in
        let H2 := fresh "Hrun" in
        apply bind_Ok in H; destruct H as (a & l & H1 & H2)
    | H : ret _ _ = (_, Ok _) |- _ =>
        apply ret_Ok in H; destruct H as [? ?]; subst
    | H : lift _ _ = (_, Ok _) |- _ =>
        apply lift_Ok in H; destruct H as [? ?]; subst
    end.

(** ** The sort *)

Section SortFacts.
Context {A : Type} (compare : A -> A -> Z).

Lemma insert_In (x y : A) (l : list A) :
  In y (insert compare x l) <-> y = x \/ In y l.
Proof.
  induction l as [| z l IH]; simpl.
  - intuition congruence.
  - destruct (compare x z >? 0); simpl; rewrite ?IH; intuition congruence.
Qed.

Lemma insert_length (x : A) (l : list A) :
  List.length (insert compare x l) = S (List.length l).
Proof.
  induction l as [| z l IH]; simpl; [reflexivity |].
  destruct (compare x z >? 0); simpl; congruence.
Qed.

Lemma sort_In (y : A) (l : list A) : In y (sort compare l) <-> In y l.
Proof.
  induction l as [| x l IH]; simpl; [tauto |].
  rewrite insert_In, IH. intuition congruence.
Qed.

Lemma sort_length (l : list A) : List.length (sort compare l) = List.length l.
Proof.
  induction l as [| x l IH]; simpl; [reflexivity |].
  rewrite insert_length, IH. reflexivity.
Qed.
End SortFacts.

Lemma insert_Descending (x : ProcessedTrack.t) (l : list ProcessedTrack.t) :
  Descending l -> Descending (insert byPopularity x l).
Proof.
  unfold Descending. induction 1 as [| y l Hl IH Hy]; simpl.
  - constructor; constructor.
  - destruct (byPopularity x y >? 0) eqn:E; unfold byPopularity in E.
    + constructor; [exact IH |].
      apply Forall_forall. intros z Hz. apply insert_In in Hz.
      destruct Hz as [-> | Hz]; [lia |].
      rewrite Forall_forall in Hy. apply Hy, Hz.
    + constructor; [constructor; assumption |].
      constructor; [lia |].
      rewrite Forall_forall in Hy |- *. intros z Hz. specialize (Hy z Hz). lia.
Qed.

Lemma sort_Descending (l : list ProcessedTrack.t) : Descending (sort byPopularity l).
Proof.
  induction l as [| x l IH]; simpl.
  - constructor.
  - apply insert_Descending, IH.
Qed.

Lemma In_firstn {A} (n : nat) (l : list A) (x : A) : In x (firstn n l) -> In x l.
Proof.
  revert l. induction n as [| n IH]; intros [| y l]; simpl; try tauto.
  intros [-> | H]; [left; reflexivity | right; apply IH, H].
Qed.

Lemma firstn_Descending (n : nat) (l : list ProcessedTrack.t) :
  Descending l -> Descending (firstn n l).
Proof.
  unfold Descending. intros H. revert n.
  induction H as [| y l Hl IH Hy]; intros [| n]; simpl; try constructor.
  - apply IH.
  - rewrite Forall_forall in Hy |- *. intros z Hz. apply Hy.
    eapply In_firstn; exact Hz.
Qed.

Lemma Descending_nth (l : list ProcessedTrack.t) :
  Descending l ->
  forall i j a b,
    (i < j)%nat -> nth_error l i = Some a -> nth_error l j = Some b ->
    ProcessedTrack.popularity a >= ProcessedTrack.popularity b.
Proof.
  unfold Descending. induction 1 as [| y l Hl IH Hy]; intros i j a b Hij Ha Hb.
  - destruct i; discriminate Ha.
  - destruct j as [| j]; [lia |]. simpl in Hb.
    destruct i as [| i]; simpl in Ha.
    + injection Ha as <-. rewrite Forall_forall in Hy.
      apply Hy. eapply nth_error_In; exact Hb.
    + apply (IH i j); [lia | assumption | assumption].
Qed.

Lemma Descending_ranked (l : list ProcessedTrack.t) :
  Descending l -> RankedByPopularity l.
Proof.
  intros Hl i j a b Ha Hb Hgt.
  destruct (Nat.lt_trichotomy i j) as [Hlt | [Heq | Hlt]]; [exact Hlt | |].
  - subst j. rewrite Ha in Hb. injection Hb as <-. lia.
  - pose proof (Descending_nth l Hl j i b a Hlt Hb Ha). lia.
Qed.

Lemma getAlbumTracks_Descending w fuel albumId log log' tracks :
  getAlbumTracks w fuel albumId log = (log', Ok tracks) -> Descending tracks.
Proof.
  unfold getAlbumTracks. intros H. run_ok. apply sort_Descending.
Qed.

Lemma getArtistTopTracks_Descending w artistId log log' tracks :
  getArtistTopTracks w artistId log = (log', Ok tracks) -> Descending tracks.
Proof.
  unfold getArtistTopTracks. intros H. run_ok.
  apply firstn_Descending, sort_Descending.
Qed.

(** ** The page loop of [getAlbumTracks] *)

(** An album whose first page has no cursor needs no iteration: the loop exits
    at once, whatever the fuel. *)
Lemma fetchMorePages_last_page w fuel albumId response allTracks offset log :
  truthy (SpotifyAlbumResponse.next response) = false ->
  fetchMorePages w fuel albumId response allTracks offset log = (log, Ok allTracks).
Proof.
  intros Hnext. destruct fuel; simpl; rewrite Hnext; reflexivity.
Qed.

Lemma pageRequests_S albumId offset n :
  pageRequests albumId offset (S n) =
  GetAlbumTracks albumId (Some offset) :: pageRequests albumId (offset + 50) n.
Proof.
  unfold pageRequests. cbn [seq map].
  replace (offset + 50 * Z.of_nat 0) with offset by lia.
  f_equal. rewrite <- seq_shift, map_map. apply map_ext. intros k.
  replace (offset + 50 * Z.of_nat (S k)) with (offset + 50 + 50 * Z.of_nat k) by lia.
  reflexivity.
Qed.

(** When the first page carries a cursor and the provider answers every page
    request, the loop condition stays true: every iteration sends the next
    request and no amount of fuel reaches the exit. *)
Lemma fetchMorePages_never_exits w albumId response :
  truthy (SpotifyAlbumResponse.next response) = true ->
  (forall offset, exists page, album_tracks_endpoint w albumId (Some offset) = Success page) ->
  forall fuel allTracks offset log,
    fetchMorePages w fuel albumId response allTracks offset log =
    (log ++ pageRequests albumId offset fuel, Diverge).
Proof.
  intros Hnext Hpages. induction fuel as [| fuel IH]; intros allTracks offset log.
  - simpl. rewrite Hnext. unfold diverge, pageRequests. simpl.
    rewrite app_nil_r. reflexivity.
  - simpl. rewrite Hnext. unfold bind, axios at 1.
    destruct (Hpages offset) as [page ->].
    rewrite IH, pageRequests_S, <- app_assoc. reflexivity.
Qed.

(** C2 (the code departs from the claim). On the 51-track album of the
    catalogue the first page carries a cursor; [getAlbumTracks] then requests
    page after page (offsets 50, 100, 150, ...) and never leaves the loop:
    for every fuel the run is cut off inside it. *)
Theorem getAlbumTracks_paginated_album_never_returns :
  forall fuel : nat,
    getAlbumTracks Demo.world fuel "L51" [] =
    ([GetAlbum "L51"; GetAlbumTracks "L51" None] ++ pageRequests "L51" 50 fuel, Diverge).
Proof.
  intros fuel. unfold getAlbumTracks, bind. simpl.
  rewrite (fetchMorePages_never_exits Demo.world "L51").
  - reflexivity.
  - reflexivity.
  - intros offset. simpl. eexists. reflexivity.
Qed.

(** ** The rank of the focal track *)

Lemma findIndexFrom_none {A} (p : A -> bool) (l : list A) (i : Z) :
  (forall x, In x l -> p x = false) -> findIndexFrom p l i = -1.
Proof.
  revert i. induction l as [| x l IH]; intros i Hall; simpl; [reflexivity |].
  rewrite (Hall x (or_introl eq_refl)). apply IH.
  intros y Hy. apply Hall. right. exact Hy.
Qed.

Lemma findIndexFrom_first {A} (p : A -> bool) (l : list A) (i : Z) (k : nat) (x : A) :
  nth_error l k = Some x ->
  p x = true ->
  (forall j y, (j < k)%nat -> nth_error l j = Some y -> p y = false) ->
  findIndexFrom p l i = i + Z.of_nat k.
Proof.
  revert i k. induction l as [| z l IH]; intros i k Hk Hx Hbefore.
  - destruct k; discriminate Hk.
  - destruct k as [| k]; simpl in *.
    + injection Hk as ->. rewrite Hx. lia.
    + rewrite (Hbefore 0%nat z); [| lia | reflexivity].
      rewrite (IH (i + 1) k Hk Hx); [lia |].
      intros j y Hj Hy. apply (Hbefore (S j) y); [lia | exact Hy].
Qed.

Lemma rankOf_absent (tracks : list ProcessedTrack.t) (trackId : string) :
  (forall t, In t tracks -> ProcessedTrack.id t <> trackId) ->
  rankOf tracks trackId = 0.
Proof.
  intros Hall. unfold rankOf, findIndex.
  rewrite findIndexFrom_none; [reflexivity |].
  intros t Ht. apply String.eqb_neq, Hall, Ht.
Qed.

Lemma rankOf_first (tracks : list ProcessedTrack.t) (trackId : string) (i : nat)
    (t : ProcessedTrack.t) :
  nth_error tracks i = Some t ->
  ProcessedTrack.id t = trackId ->
  (forall j u, (j < i)%nat -> nth_error tracks j = Some u ->
               ProcessedTrack.id u <> trackId) ->
  rankOf tracks trackId = 1 + Z.of_nat i.
Proof.
  intros Hi Ht Hbefore. unfold rankOf, findIndex.
  rewrite (findIndexFrom_first _ tracks 0 i t Hi); [lia | |].
  - apply String.eqb_eq, Ht.
  - intros j u Hj Hu. apply String.eqb_neq. exact (Hbefore j u Hj Hu).
Qed.

Lemma first_index_exists {A} (p : A -> bool) (l : list A) :
  (exists x, In x l /\ p x = true) ->
  exists k x,
    nth_error l k = Some x /\ p x = true
    /\ forall j y, (j < k)%nat -> nth_error l j = Some y -> p y = false.
Proof.
  induction l as [| z l IH]; intros (x & Hin & Hx); [destruct Hin |].
  destruct (p z) eqn:Ez.
  - exists 0%nat, z. split; [reflexivity |]. split; [exact Ez |]. intros j y Hj. lia.
  - destruct IH as (k & x' & Hk & Hx' & Hbefore).
    + destruct Hin as [-> | Hin]; [congruence |]. exists x. split; assumption.
    + exists (S k), x'. split; [exact Hk |]. split; [exact Hx' |].
      intros [| j] y Hj Hy; simpl in Hy.
      * injection Hy as <-. exact Ez.
      * apply (Hbefore j y); [lia | exact Hy].
Qed.

(** The rank of a track of the collection is the position of the first track
    with its id. *)
Lemma rankOf_present (tracks : list ProcessedTrack.t) (a : ProcessedTrack.t) :
  In a tracks ->
  exists k t,
    nth_error tracks k = Some t
    /\ ProcessedTrack.id t = ProcessedTrack.id a
    /\ rankOf tracks (ProcessedTrack.id a) = 1 + Z.of_nat k.
Proof.
  intros Hin.
  destruct (first_index_exists
              (fun t => (ProcessedTrack.id t =? ProcessedTrack.id a)%string) tracks)
    as (k & t & Hk & Ht & Hbefore).
  - exists a. split; [exact Hin | apply String.eqb_refl].
  - apply String.eqb_eq in Ht. exists k, t. split; [exact Hk |]. split; [exact Ht |].
    apply (rankOf_first tracks _ k t Hk Ht).
    intros j u Hj Hu. apply String.eqb_neq. exact (Hbefore j u Hj Hu).
Qed.

(** C3. For every collection and focal id, the rank is 0 when no track of the
    collection has the focal id, and 1 plus the index of the first track that
    has it otherwise; in the payload of the track branch [trackRank] is that
    rank in the album tracks, [artistTrackRank] (when attached) is that rank in
    the artist top tracks, and [totalTracks] is the length of the album
    tracks. *)
Theorem rank_is_one_plus_first_index :
  forall (tracks : list ProcessedTrack.t) (trackId : string),
    ((forall t, In t tracks -> ProcessedTrack.id t <> trackId) ->
     rankOf tracks trackId = 0)
    /\ (forall (i : nat) (t : ProcessedTrack.t),
          nth_error tracks i = Some t ->
          ProcessedTrack.id t = trackId ->
          (forall j u, (j < i)%nat -> nth_error tracks j = Some u ->
                       ProcessedTrack.id u <> trackId) ->
          rankOf tracks trackId = 1 + Z.of_nat i)
    /\ (forall (track : ProcessedTrack.t) (album : ProcessedAlbum.t)
               (artistTopTracks : list ProcessedTrack.t),
          let payload := trackResult trackId track album tracks artistTopTracks in
          TrackPayload.trackRank payload = rankOf tracks trackId
          /\ TrackPayload.totalTracks payload = Z.of_nat (List.length tracks)
          /\ (TrackPayload.artistTrackRank payload = None
              \/ TrackPayload.artistTrackRank payload =
                 Some (rankOf artistTopTracks trackId))).
Proof.
  intros tracks trackId. split; [| split].
  - apply rankOf_absent.
  - apply rankOf_first.
  - intros track album artistTopTracks. simpl. split; [reflexivity |].
    split; [reflexivity |].
    destruct (ProcessedAlbum.total_tracks album =? 1); [right | left]; reflexivity.
Qed.

(** The album with popularities 40, 90, 60 sorts to 90, 60, 40: the track of
    popularity 60 has rank 2, an unknown id has rank 0. *)
Lemma rank_is_one_plus_first_index_witness :
  map ProcessedTrack.popularity Demo.ranked = [90; 60; 40]
  /\ rankOf Demo.ranked "t3" = 1 + Z.of_nat 1
  /\ rankOf Demo.ranked "unknown" = 0.
Proof.
  split; [vm_compute; reflexivity |]. split.
  - refine (proj1 (proj2 (rank_is_one_plus_first_index Demo.ranked "t3")) 1%nat _ _ _ _).
    + vm_compute. reflexivity.
    + reflexivity.
    + intros j u Hj. destruct j as [| j]; [| lia].
      vm_compute. intros H. injection H as <-. discriminate.
  - apply (proj1 (rank_is_one_plus_first_index Demo.ranked "unknown")).
    intros t Hin. vm_compute in Hin.
    destruct Hin as [<- | [<- | [<- | []]]]; discriminate.
Defined.

(** ** Sortedness of the returned collections *)

(** C1. Every collection that [getAlbumTracks] or [getArtistTopTracks] returns
    is ordered by descending popularity: if track [a] is more popular than
    track [b], then [a] stands at a strictly smaller index than [b]; and when
    tracks with the same id have the same popularity (so that the rank of an
    id is the rank of the track), the rank of [a] is smaller than that of
    [b]. *)
Theorem returned_collections_ranked_by_popularity :
  forall (w : World) (fuel : nat) (id : string) (log log' : list Request)
         (tracks : list ProcessedTrack.t),
    getAlbumTracks w fuel id log = (log', Ok tracks) \/
    getArtistTopTracks w id log = (log', Ok tracks) ->
    (forall (i j : nat) (a b : ProcessedTrack.t),
        nth_error tracks i = Some a ->
        nth_error tracks j = Some b ->
        ProcessedTrack.popularity a > ProcessedTrack.popularity b ->
        (i < j)%nat)
    /\ ((forall x y, In x tracks -> In y tracks ->
                     ProcessedTrack.id x = ProcessedTrack.id y ->
                     ProcessedTrack.popularity x = ProcessedTrack.popularity y) ->
        forall a b : ProcessedTrack.t,
          In a tracks -> In b tracks ->
          ProcessedTrack.popularity a > ProcessedTrack.popularity b ->
          rankOf tracks (ProcessedTrack.id a) < rankOf tracks (ProcessedTrack.id b)).
Proof.
  intros w fuel id log log' tracks H.
  assert (RankedByPopularity tracks) as Hranked.
  { apply Descending_ranked. destruct H as [H | H].
    - eapply getAlbumTracks_Descending; exact H.
    - eapply getArtistTopTracks_Descending; exact H. }
  split; [exact Hranked |].
  intros Hsame a b Ha Hb Hgt.
  destruct (rankOf_present tracks a Ha) as (i & a' & Hi & Hida & ->).
  destruct (rankOf_present tracks b Hb) as (j & b' & Hj & Hidb & ->).
  assert (i < j)%nat; [| lia].
  apply (Hranked i j a' b' Hi Hj).
  rewrite (Hsame a' a (nth_error_In _ _ Hi) Ha Hida).
  rewrite (Hsame b' b (nth_error_In _ _ Hj) Hb Hidb).
  exact Hgt.
Qed.

(** The three-track album of the catalogue comes back as 90, 60, 40: the
    track of popularity 90 stands before the track of popularity 40 and has
    the smaller rank. *)
Lemma returned_collections_ranked_by_popularity_witness :
  map ProcessedTrack.popularity Demo.albumA3 = [90; 60; 40]
  /\ (0 < 2)%nat
  /\ rankOf Demo.albumA3 "t2" < rankOf Demo.albumA3 "t1".
Proof.
  assert (exists log', getAlbumTracks Demo.world 0 "A3" [] = (log', Ok Demo.albumA3))
    as [log' Hrun] by (eexists; vm_compute; reflexivity).
  destruct (returned_collections_ranked_by_popularity
              Demo.world 0 "A3" [] log' Demo.albumA3 (or_introl Hrun)) as [Hindex Hrank].
  split; [reflexivity |]. split.
  - refine (Hindex 0%nat 2%nat _ _ eq_refl eq_refl _). reflexivity.
  - refine (Hrank _ (nth 0 Demo.albumA3 (processSearchTrack (Demo.rawTrack "" 0 [] None)))
                    (nth 2 Demo.albumA3 (processSearchTrack (Demo.rawTrack "" 0 [] None)))
                    _ _ _).
    + intros x y Hx Hy.
      destruct Hx as [<- | [<- | [<- | []]]]; destruct Hy as [<- | [<- | [<- | []]]];
        intros Hid; first [reflexivity | discriminate Hid].
    + left. reflexivity.
    + right. right. left. reflexivity.
    + reflexivity.
Defined.

(** ** The track branch *)

(** What a run of the track branch that ends in a response has done. *)
Lemma trackBranch_Ok w fuel trackId log log' response :
  trackBranch w fuel trackId log = (log', Ok response) ->
  exists track log1,
    getTrackDetails w trackId log = (log1, Ok track)
    /\ ((ProcessedTrack.album track = None
         /\ log' = log1
         /\ response = errorResponse 404 "Track album information not found")
        \/ exists album artistId,
             ProcessedTrack.album track = Some album
             /\ firstArtistId (ProcessedTrack.artists track) = Ok artistId
             /\ ((artistId = ""%string
                  /\ log' = log1
                  /\ response = errorResponse 404 "Artist information not found")
                 \/ (artistId <> ""%string
                     /\ exists albumTracks artistTopTracks log2,
                          getAlbumTracks w fuel (ProcessedAlbum.id album) log1
                          = (log2, Ok albumTracks)
                          /\ getArtistTopTracks w artistId log2
                             = (log', Ok artistTopTracks)
                          /\ response =
                             jsonResponse
                               (TrackResult
                                  (trackResult trackId track album albumTracks
                                     artistTopTracks))))).
Proof.
  unfold trackBranch. intros H.
  apply bind_Ok in H. destruct H as (track & log1 & Htrack & H).
  exists track, log1. split; [exact Htrack |].
  destruct (ProcessedTrack.album track) as [album |] eqn:Ealbum.
  - right. apply bind_Ok in H. destruct H as (artistId & log1' & Hid & H).
    apply lift_Ok in Hid. destruct Hid as [-> Hid].
    exists album, artistId. split; [reflexivity |]. split; [exact Hid |].
    destruct (truthy (Some artistId)) eqn:Eid; simpl in H, Eid.
    + right. apply negb_true_iff, String.eqb_neq in Eid. split; [exact Eid |].
      apply bind_Ok in H. destruct H as ([albumTracks artistTopTracks] & log3 & Hall & H).
      apply ret_Ok in H. destruct H as [-> ->].
      apply promiseAll2_Ok in Hall. destruct Hall as (log2 & Ha & Hb).
      exists albumTracks, artistTopTracks, log2. repeat split; assumption.
    + left. apply negb_false_iff, String.eqb_eq in Eid.
      apply ret_Ok in H. destruct H as [-> ->]. repeat split; assumption.
  - left. apply ret_Ok in H. destruct H as [-> ->]. repeat split; reflexivity.
Qed.

(** ** The search loop of [getArtistTopTracks] *)

Lemma searchRequests_S artistName offset n :
  searchRequests artistName offset (S n) =
  GetSearch artistName offset :: searchRequests artistName (offset + 50) n.
Proof.
  unfold searchRequests. cbn [seq map].
  replace (offset + 50 * Z.of_nat 0) with offset by lia.
  f_equal. rewrite <- seq_shift, map_map. apply map_ext. intros k.
  replace (offset + 50 * Z.of_nat (S k)) with (offset + 50 + 50 * Z.of_nat k) by lia.
  reflexivity.
Qed.

(** The loop sends its requests at offsets [offset], [offset + 50], ..., all
    of them below 200. *)
Lemma searchPages_requests w artistId artistName :
  forall fuel acc offset log,
  exists (n : nat) (out : Outcome (list SpotifyTrack.t)),
    searchPages w fuel artistId artistName acc offset log =
    (log ++ searchRequests artistName offset n, out)
    /\ ((0 < n)%nat -> offset + 50 * (Z.of_nat n - 1) < 200).
Proof.
  induction fuel as [| fuel IH]; intros acc offset log; cbn [searchPages].
  - exists 0%nat. unfold searchRequests. simpl. rewrite app_nil_r.
    destruct ((Z.of_nat (List.length acc) <? 100) && (offset <? 200));
      eexists; (split; [reflexivity | lia]).
  - destruct ((Z.of_nat (List.length acc) <? 100) && (offset <? 200)) eqn:Econd.
    + apply andb_true_iff in Econd. destruct Econd as [_ Hoff].
      apply Z.ltb_lt in Hoff. unfold bind at 1, axios at 1.
      destruct (search_endpoint w artistName offset) as [searchResponse | failure].
      * destruct (Z.of_nat (List.length (SpotifySearchResponse.items searchResponse)) =? 0).
        -- exists 1%nat. eexists. rewrite searchRequests_S. unfold searchRequests. simpl.
           split; [reflexivity | lia].
        -- unfold bind at 1, lift at 1.
           destruct (filterPrimary artistId (SpotifySearchResponse.items searchResponse))
             as [newPrimaryTracks | e | ].
           ++ destruct (IH (acc ++ newPrimaryTracks) (offset + 50)
                           (log ++ [GetSearch artistName offset])) as (n & out & Hrun & Hn).
              exists (S n), out. rewrite Hrun, searchRequests_S, <- app_assoc.
              split; [reflexivity |]. intros _.
              destruct n as [| n]; [lia |].
              assert (0 < S n)%nat as Hpos by lia. specialize (Hn Hpos). lia.
           ++ exists 1%nat. eexists. rewrite searchRequests_S. unfold searchRequests. simpl.
              split; [reflexivity | lia].
           ++ exists 1%nat. eexists. rewrite searchRequests_S. unfold searchRequests. simpl.
              split; [reflexivity | lia].
      * exists 1%nat. eexists. rewrite searchRequests_S. unfold searchRequests. simpl.
        split; [reflexivity | lia].
    + exists 0%nat. eexists. unfold searchRequests. simpl. rewrite app_nil_r.
      split; [reflexivity | lia].
Qed.

Lemma filterPrimary_terminates artistId tracks : filterPrimary artistId tracks <> Diverge.
Proof.
  induction tracks as [| track rest IH]; simpl; [discriminate |].
  destruct (firstArtistId (SpotifyTrack.artists track)) as [id | e | ] eqn:E.
  - destruct (filterPrimary artistId rest); [discriminate | discriminate | contradiction].
  - discriminate.
  - destruct (SpotifyTrack.artists track); discriminate E.
Qed.

(** With fuel for every multiple of 50 between [offset] and 200, the loop is
    not cut off. *)
Lemma searchPages_fuel w artistId artistName :
  forall fuel acc offset log,
    200 <= offset + 50 * Z.of_nat fuel ->
    snd (searchPages w fuel artistId artistName acc offset log) <> Diverge.
Proof.
  induction fuel as [| fuel IH]; intros acc offset log Hfuel; simpl.
  - replace (offset <? 200) with false by (symmetry; apply Z.ltb_ge; lia).
    rewrite andb_false_r. simpl. discriminate.
  - destruct ((Z.of_nat (List.length acc) <? 100) && (offset <? 200)); [| simpl; discriminate].
    unfold bind at 1, axios at 1.
    destruct (search_endpoint w artistName offset) as [searchResponse | failure];
      [| simpl; discriminate].
    destruct (Z.of_nat (List.length (SpotifySearchResponse.items searchResponse)) =? 0);
      [simpl; discriminate |].
    unfold bind at 1, lift at 1.
    pose proof (filterPrimary_terminates artistId
                  (SpotifySearchResponse.items searchResponse)) as Hfilter.
    destruct (filterPrimary artistId (SpotifySearchResponse.items searchResponse));
      [| simpl; discriminate | contradiction].
    apply IH. lia.
Qed.

(** [getArtistTopTracks] always ends: in a list or in a thrown exception. *)
Lemma getArtistTopTracks_terminates w artistId log :
  snd (getArtistTopTracks w artistId log) <> Diverge.
Proof.
  unfold getArtistTopTracks, bind at 1, axios at 1.
  destruct (artists_endpoint w artistId) as [artistResponse | failure];
    [| simpl; discriminate].
  unfold bind.
  pose proof (searchPages_fuel w artistId (SpotifyArtistResponse.name artistResponse)
                4 [] 0 (log ++ [GetArtist artistId])) as Hfuel.
  destruct (searchPages w 4 artistId (SpotifyArtistResponse.name artistResponse) [] 0
              (log ++ [GetArtist artistId])) as [log' [found | e | ]]; simpl in *.
  - discriminate.
  - discriminate.
  - exfalso. apply Hfuel; [lia | reflexivity].
Qed.

(** The requests of [getArtistTopTracks]: the artist, then at most four
    searches, at offsets 0, 50, 100 and 150. *)
Lemma getArtistTopTracks_requests w artistId log :
  exists (log' : list Request) (out : Outcome (list ProcessedTrack.t)),
    getArtistTopTracks w artistId log = (log', out)
    /\ ((log' = log ++ [GetArtist artistId]
         /\ exists failure, artists_endpoint w artistId = Failure failure)
        \/ exists artistResponse n,
             artists_endpoint w artistId = Success artistResponse
             /\ (n <= 4)%nat
             /\ log' = log ++ GetArtist artistId
                           :: searchRequests (SpotifyArtistResponse.name artistResponse) 0 n).
Proof.
  unfold getArtistTopTracks, bind at 1, axios at 1.
  destruct (artists_endpoint w artistId) as [artistResponse | failure].
  - destruct (searchPages_requests w artistId (SpotifyArtistResponse.name artistResponse)
                4 [] 0 (log ++ [GetArtist artistId])) as (n & out & Hrun & Hn).
    unfold bind. rewrite Hrun. rewrite <- app_assoc. cbn [app].
    assert (n <= 4)%nat as Hle by lia.
    destruct out; eexists; eexists; (split; [reflexivity |]);
      right; exists artistResponse, n; repeat split; assumption.
  - eexists. eexists. split; [reflexivity |]. left. split; [reflexivity |].
    exists failure. reflexivity.
Qed.

(** ** The track branch and the artist top tracks *)




(** ** What the search loop accumulates *)

Lemma filterPrimary_Ok artistId tracks kept :
  filterPrimary artistId tracks = Ok kept ->
  Forall (PrimaryArtist SpotifyTrack.artists artistId) kept.
Proof.
  revert kept. induction tracks as [| track rest IH]; intros kept H; simpl in H.
  - injection H as <-. constructor.
  - destruct (SpotifyTrack.artists track) as [| artist others] eqn:Eartists;
      simpl in H; [discriminate H |].
    destruct (filterPrimary artistId rest) as [kept' | e | ]; try discriminate H.
    injection H as <-. specialize (IH kept' eq_refl).
    destruct (SpotifyArtist.id artist =? artistId)%string eqn:Eid; [| exact IH].
    constructor; [| exact IH].
    exists artist, others. split; [exact Eartists | apply String.eqb_eq, Eid].
Qed.

Lemma searchPages_Ok w artistId artistName :
  forall fuel acc offset log log' found,
    Forall (PrimaryArtist SpotifyTrack.artists artistId) acc ->
    searchPages w fuel artistId artistName acc offset log = (log', Ok found) ->
    Forall (PrimaryArtist SpotifyTrack.artists artistId) found.
Proof.
  induction fuel as [| fuel IH]; intros acc offset log log' found Hacc H;
    cbn [searchPages] in H.
  - destruct ((Z.of_nat (List.length acc) <? 100) && (offset <? 200));
      [discriminate H |].
    apply ret_Ok in H. destruct H as [_ ->]. exact Hacc.
  - destruct ((Z.of_nat (List.length acc) <? 100) && (offset <? 200)).
    + apply bind_Ok in H. destruct H as (searchResponse & log1 & _ & H).
      cbv zeta in H.
      destruct (Z.of_nat (List.length (SpotifySearchResponse.items searchResponse)) =? 0).
      * apply ret_Ok in H. destruct H as [_ ->]. exact Hacc.
      * apply bind_Ok in H. destruct H as (newPrimaryTracks & log2 & Hfilter & H).
        apply lift_Ok in Hfilter. destruct Hfilter as [_ Hfilter].
        refine (IH _ _ _ _ _ _ H). apply Forall_app. split; [exact Hacc |].
        eapply filterPrimary_Ok; exact Hfilter.
    + apply ret_Ok in H. destruct H as [_ ->]. exact Hacc.
Qed.

(** A list returned by [getArtistTopTracks] is the first 100 elements of the
    sorted, reshaped tracks that the search loop found, all of them tracks
    whose first artist is the target. *)
Lemma getArtistTopTracks_Ok w artistId log log' tracks :
  getArtistTopTracks w artistId log = (log', Ok tracks) ->
  exists found,
    Forall (PrimaryArtist SpotifyTrack.artists artistId) found
    /\ tracks = slice0 100 (sort byPopularity (map processSearchTrack found)).
Proof.
  unfold getArtistTopTracks. intros H.
  apply bind_Ok in H. destruct H as (artistResponse & log1 & _ & H).
  apply bind_Ok in H. destruct H as (found & log2 & Hsearch & H).
  apply ret_Ok in H. destruct H as [_ ->].
  exists found. split; [| reflexivity].
  eapply searchPages_Ok; [constructor | exact Hsearch].
Qed.

Lemma In_getArtistTopTracks w artistId log log' tracks track :
  getArtistTopTracks w artistId log = (log', Ok tracks) ->
  In track tracks ->
  exists found,
    PrimaryArtist SpotifyTrack.artists artistId found /\ track = processSearchTrack found.
Proof.
  intros H Hin. apply getArtistTopTracks_Ok in H. destruct H as (found & Hfound & ->).
  apply In_firstn, sort_In, in_map_iff in Hin. destruct Hin as (raw & <- & Hraw).
  exists raw. split; [| reflexivity].
  rewrite Forall_forall in Hfound. apply Hfound, Hraw.
Qed.

Lemma In_searchRequests artistName name offset start n :
  In (GetSearch name offset) (searchRequests artistName start n) ->
  exists k, (k < n)%nat /\ offset = start + 50 * Z.of_nat k.
Proof.
  unfold searchRequests. intros H. apply in_map_iff in H.
  destruct H as (k & Heq & Hk). apply in_seq in Hk.
  injection Heq as _ <-. exists k. split; [lia | reflexivity].
Qed.

(** C5. The search loop sends no request once 100 primary-artist tracks are
    accumulated; after an empty page it sends no further request and returns
    what it has; and every search request that [getArtistTopTracks] sends has
    an offset below 200 (the offsets are 0, 50, 100 and 150 at most). *)
Theorem search_loop_stops_at_100_tracks_offset_200_or_empty_page :
  forall (w : World) (artistId artistName : string),
    (forall fuel acc offset log,
        100 <= Z.of_nat (List.length acc) ->
        searchPages w fuel artistId artistName acc offset log = (log, Ok acc))
    /\ (forall fuel acc offset log page,
          Z.of_nat (List.length acc) < 100 ->
          offset < 200 ->
          search_endpoint w artistName offset = Success page ->
          SpotifySearchResponse.items page = [] ->
          searchPages w (S fuel) artistId artistName acc offset log
          = (log ++ [GetSearch artistName offset], Ok acc))
    /\ (forall log,
        exists sent,
          fst (getArtistTopTracks w artistId log) = log ++ sent
          /\ forall name offset,
               In (GetSearch name offset) sent -> 0 <= offset < 200).
Proof.
  intros w artistId artistName. split; [| split].
  - intros fuel acc offset log Hfull.
    destruct fuel; cbn [searchPages];
      (replace (Z.of_nat (List.length acc) <? 100) with false
        by (symmetry; apply Z.ltb_ge; exact Hfull));
      reflexivity.
  - intros fuel acc offset log page Hacc Hoff Hpage Hempty. cbn [searchPages].
    replace (Z.of_nat (List.length acc) <? 100) with true
      by (symmetry; apply Z.ltb_lt; exact Hacc).
    replace (offset <? 200) with true by (symmetry; apply Z.ltb_lt; exact Hoff).
    unfold bind, axios. rewrite Hpage, Hempty. reflexivity.
  - intros log.
    destruct (getArtistTopTracks_requests w artistId log)
      as (log' & out & Hrun & [[Hlog _] | (artistResponse & n & _ & Hn & Hlog)]);
      rewrite Hrun; cbn [fst]; subst log'.
    + exists [GetArtist artistId]. split; [reflexivity |].
      intros name offset [H | []]. discriminate H.
    + eexists. split; [reflexivity |].
      intros name offset [H | H]; [discriminate H |].
      apply In_searchRequests in H. destruct H as (k & Hk & ->). lia.
Qed.

(** On the catalogue: the first search page is not empty, the second is, and
    no third request is sent. *)
Example search_loop_on_the_catalogue :
  fst (getArtistTopTracks Demo.world "ar1" [])
  = [GetArtist "ar1"; GetSearch "Artist One" 0; GetSearch "Artist One" 50].
Proof. vm_compute. reflexivity. Qed.

(** C6. Every list returned by [getArtistTopTracks] has at most 100 tracks, and
    the first listed artist of each of them is the target artist. *)
Theorem artist_top_tracks_at_most_100_and_primary :
  forall (w : World) (artistId : string) (log log' : list Request)
         (tracks : list ProcessedTrack.t),
    getArtistTopTracks w artistId log = (log', Ok tracks) ->
    (List.length tracks <= 100)%nat
    /\ Forall (PrimaryArtist ProcessedTrack.artists artistId) tracks.
Proof.
  intros w artistId log log' tracks H. split.
  - apply getArtistTopTracks_Ok in H. destruct H as (found & _ & ->).
    unfold slice0. apply firstn_le_length.
  - apply Forall_forall. intros track Hin.
    destruct (In_getArtistTopTracks _ _ _ _ _ _ H Hin) as (raw & Hraw & ->).
    exact Hraw.
Qed.

(** The search page of the catalogue holds four tracks; the one on which the
    target is only a featured artist is dropped. *)
Lemma artist_top_tracks_at_most_100_and_primary_witness :
  exists (log' : list Request) (tracks : list ProcessedTrack.t),
    map ProcessedTrack.id tracks = ["t2"; "s1"; "t3"]
    /\ (List.length tracks <= 100)%nat
    /\ Forall (PrimaryArtist ProcessedTrack.artists "ar1") tracks.
Proof.
  assert (exists log' tracks,
             getArtistTopTracks Demo.world "ar1" [] = (log', Ok tracks)
             /\ map ProcessedTrack.id tracks = ["t2"; "s1"; "t3"])
    as (log' & tracks & Hrun & Hids).
  { eexists. eexists. vm_compute. split; reflexivity. }
  exists log', tracks. split; [exact Hids |].
  exact (artist_top_tracks_at_most_100_and_primary Demo.world "ar1" [] log' tracks Hrun).
Defined.

(** C10. Every track returned by [getArtistTopTracks] that carries an album has
    that album's [total_tracks] equal to 1, whatever the album's real track
    count. *)
Theorem artist_top_tracks_album_total_tracks_is_one :
  forall (w : World) (artistId : string) (log log' : list Request)
         (tracks : list ProcessedTrack.t) (track : ProcessedTrack.t)
         (album : ProcessedAlbum.t),
    getArtistTopTracks w artistId log = (log', Ok tracks) ->
    In track tracks ->
    ProcessedTrack.album track = Some album ->
    ProcessedAlbum.total_tracks album = 1.
Proof.
  intros w artistId log log' tracks track album H Hin Halbum.
  destruct (In_getArtistTopTracks _ _ _ _ _ _ H Hin) as (raw & _ & ->).
  unfold processSearchTrack in Halbum. simpl in Halbum.
  destruct (SpotifyTrack.album raw); [| discriminate Halbum].
  injection Halbum as <-. reflexivity.
Qed.

(** Track t2 belongs to the three-track album A3; in the artist's top tracks
    its album says [total_tracks = 1]. *)
Lemma artist_top_tracks_album_total_tracks_is_one_witness :
  exists (track : ProcessedTrack.t) (album : ProcessedAlbum.t),
    ProcessedTrack.id track = "t2"
    /\ ProcessedAlbum.id album = "A3"
    /\ Demo.albums "A3" = Success (Demo.albumDetails "A3" 3)
    /\ ProcessedAlbum.total_tracks album = 1.
Proof.
  assert (exists log' tracks track album,
             getArtistTopTracks Demo.world "ar1" [] = (log', Ok tracks)
             /\ In track tracks
             /\ ProcessedTrack.album track = Some album
             /\ ProcessedTrack.id track = "t2"
             /\ ProcessedAlbum.id album = "A3")
    as (log' & tracks & track & album & Hrun & Hin & Halbum & Hid & Haid).
  { eexists. eexists. eexists. eexists. vm_compute.
    split; [reflexivity |]. split; [left; reflexivity |]. repeat split; reflexivity. }
  exists track, album. split; [exact Hid |]. split; [exact Haid |].
  split; [reflexivity |].
  exact (artist_top_tracks_album_total_tracks_is_one
           Demo.world "ar1" [] log' tracks track album Hrun Hin Halbum).
Defined.

(** On a hundred accumulated tracks the loop sends nothing, though the
    provider has more pages. *)
Lemma search_loop_stops_at_100_tracks_offset_200_or_empty_page_witness :
  searchPages Demo.world 4 "ar1" "Artist One"
    (repeat (Demo.rawTrack "s1" 70 [Demo.artistOne] (Some "S1")) 100) 0 []
  = ([], Ok (repeat (Demo.rawTrack "s1" 70 [Demo.artistOne] (Some "S1")) 100)).
Proof.
  apply (proj1 (search_loop_stops_at_100_tracks_offset_200_or_empty_page
                  Demo.world "ar1" "Artist One")).
  rewrite repeat_length. lia.
Defined.

(** ** Classification of the input *)

Lemma matchFirst_eq literal s :
  matchFirst literal s =
  match matchHere literal s with
  | Some capture => Some capture
  | None =>
      match s with
      | EmptyString => None
      | String _ s' => matchFirst literal s'
      end
  end.
Proof. destruct s; reflexivity. Qed.

Lemma afterPrefix_app literal s : afterPrefix literal (literal ++ s)%string = Some s.
Proof.
  induction literal as [| c literal IH]; simpl.
  - destruct s; reflexivity.
  - rewrite Ascii.eqb_refl. exact IH.
Qed.

Lemma takeId_app id rest :
  allIdChars id = true -> endsId rest = true -> takeId (id ++ rest)%string = id.
Proof.
  intros Hid Hrest. induction id as [| c id IH]; simpl in *.
  - destruct rest as [| c rest]; simpl in *; [reflexivity |].
    apply negb_true_iff in Hrest. rewrite Hrest. reflexivity.
  - apply andb_true_iff in Hid. destruct Hid as [Hc Hid].
    rewrite Hc, (IH Hid). reflexivity.
Qed.

Lemma matchHere_segment literal id rest :
  isIdString id = true -> endsId rest = true ->
  matchHere literal (literal ++ id ++ rest)%string = Some id.
Proof.
  unfold isIdString, matchHere. intros Hid Hrest.
  apply andb_true_iff in Hid. destruct Hid as [Hne Hid].
  rewrite afterPrefix_app, (takeId_app id rest Hid Hrest).
  destruct id; [discriminate Hne | reflexivity].
Qed.

Lemma matchFirst_skip literal pre s :
  (forall k, (k < String.length pre)%nat ->
             matchHere literal (dropStr k (pre ++ s)%string) = None) ->
  matchFirst literal (pre ++ s)%string = matchFirst literal s.
Proof.
  induction pre as [| c pre IH]; intros Hbefore; cbn [append]; [reflexivity |].
  rewrite (matchFirst_eq literal (String c (pre ++ s))).
  assert (matchHere literal (String c (pre ++ s)) = None) as ->.
  { apply (Hbefore 0%nat). simpl. lia. }
  apply IH. intros k Hk. apply (Hbefore (S k)). simpl. lia.
Qed.

(** C7, as stated, fails: a track URL whose query string holds [album/] and
    an id character is classified as an album. *)
Lemma track_url_with_album_in_query_is_an_album :
  isIdString "6rqhFgbbKwnb9MLmUQDhG6" = true
  /\ classify ("https://open.spotify.com/" ++ "track/" ++ "6rqhFgbbKwnb9MLmUQDhG6"
               ++ "?context=album/4aawyAB9vmqN3uQ7FjRGTy")%string
     = IsAlbum "4aawyAB9vmqN3uQ7FjRGTy"
  /\ classify ("https://open.spotify.com/" ++ "track/" ++ "6rqhFgbbKwnb9MLmUQDhG6"
               ++ "?context=album/4aawyAB9vmqN3uQ7FjRGTy")%string
     <> IsTrack "6rqhFgbbKwnb9MLmUQDhG6".
Proof.
  split; [reflexivity |]. split; [vm_compute; reflexivity |].
  vm_compute. discriminate.
Qed.

(** C7, amended. For every id over the id alphabet, a URL
    [prefix ++ "track/" ++ id ++ rest], where [rest] is empty or starts with a
    character outside the alphabet (a slash, a query string), is classified
    as the track [id] provided the URL matches neither the artist nor the
    album pattern and the track pattern matches at no earlier position. *)
Theorem track_url_classified_as_track :
  forall (prefix id rest : string),
    isIdString id = true ->
    endsId rest = true ->
    artistMatch (prefix ++ "track/" ++ id ++ rest)%string = None ->
    albumMatch (prefix ++ "track/" ++ id ++ rest)%string = None ->
    (forall k, (k < String.length prefix)%nat ->
               matchHere "track/" (dropStr k (prefix ++ "track/" ++ id ++ rest)%string)
               = None) ->
    classify (prefix ++ "track/" ++ id ++ rest)%string = IsTrack id.
Proof.
  intros prefix id rest Hid Hrest Hartist Halbum Hbefore.
  unfold classify. rewrite Hartist, Halbum. unfold trackMatch.
  rewrite (matchFirst_skip "track/" prefix _ Hbefore), matchFirst_eq.
  rewrite (matchHere_segment "track/" id rest Hid Hrest). reflexivity.
Qed.

(** A shared link, with its query string. *)
Lemma track_url_classified_as_track_witness :
  classify "https://open.spotify.com/track/6rqhFgbbKwnb9MLmUQDhG6?si=0a1b2c3d"
  = IsTrack "6rqhFgbbKwnb9MLmUQDhG6".
Proof.
  apply (track_url_classified_as_track
           "https://open.spotify.com/" "6rqhFgbbKwnb9MLmUQDhG6" "?si=0a1b2c3d").
  - reflexivity.
  - reflexivity.
  - vm_compute. reflexivity.
  - vm_compute. reflexivity.
  - intros k Hk.
    do 25 (destruct k as [| k]; [vm_compute; reflexivity |]).
    simpl in Hk. lia.
Defined.

(** ** The response constructor *)

Lemma nextResponseJson_Ok response response' :
  nextResponseJson response = Ok response' ->
  response' = response /\ validStatus (Response.status response) = true.
Proof.
  unfold nextResponseJson, validStatus. intros H.
  destruct (Response.status response <? 200) eqn:Elow; [discriminate H |].
  destruct (599 <? Response.status response) eqn:Ehigh; [discriminate H |].
  cbn [orb] in H.
  destruct (nullBodyStatus (Response.status response)); [discriminate H |].
  injection H as <-. split; [reflexivity |].
  apply Z.ltb_ge in Elow, Ehigh. apply Z.leb_le in Elow, Ehigh.
  rewrite Elow, Ehigh. reflexivity.
Qed.

Lemma nextResponseJson_valid response :
  validStatus (Response.status response) = true ->
  nextResponseJson response = Ok response.
Proof.
  unfold nextResponseJson, validStatus. intros H.
  apply andb_true_iff in H. destruct H as [H Hnull].
  apply andb_true_iff in H. destruct H as [Hlow Hhigh].
  apply Z.leb_le in Hlow, Hhigh. apply negb_true_iff in Hnull.
  replace (Response.status response <? 200) with false by (symmetry; apply Z.ltb_ge; lia).
  replace (599 <? Response.status response) with false by (symmetry; apply Z.ltb_ge; lia).
  rewrite Hnull. reflexivity.
Qed.

Lemma nextResponseJson_invalid response :
  validStatus (Response.status response) = false ->
  exists e, nextResponseJson response = Throw e.
Proof.
  intros H. destruct (nextResponseJson response) as [r | e | ] eqn:E.
  - apply nextResponseJson_Ok in E. destruct E as [_ E]. congruence.
  - exists e. reflexivity.
  - unfold nextResponseJson in E.
    destruct ((Response.status response <? 200) || (599 <? Response.status response));
      [discriminate E |].
    destruct (nullBodyStatus (Response.status response)); discriminate E.
Qed.

(** C8, as stated, fails: a playlist link is a non-empty input, matches none
    of the three patterns, is posted to this route by the page
    ([isSpotifyUrl] holds), and is answered with the error status 400. *)
Lemma unmatched_url_is_answered_with_error_400 :
  classify "https://open.spotify.com/playlist/37i9dQZF1DXcBWIGoYBM5M" = Unmatched
  /\ isSpotifyUrl "https://open.spotify.com/playlist/37i9dQZF1DXcBWIGoYBM5M" = true
  /\ POST Demo.world 0 (Some "https://open.spotify.com/playlist/37i9dQZF1DXcBWIGoYBM5M") []
     = ([PostToken],
        Ok (errorResponse 400
              "Invalid Spotify URL. Please provide a valid artist, album, or track URL.")).
Proof.
  split; [vm_compute; reflexivity |]. split; vm_compute; reflexivity.
Qed.

(** C8, amended. A non-empty input that matches none of the three patterns
    is treated by the page, not by the route: the page does nothing with a
    blank input, sends an input that contains neither "spotify.com" nor
    "spotify.link" to the search route as a free-text query, and posts any
    other input to the lookup route. The lookup route never treats such an
    input as a search: it sends the provider at most the token request,
    answers with status 400, "Invalid Spotify URL...", whenever the access
    token is obtained, and every response it gives to such an input is an
    error. *)
Theorem unmatched_input_is_searched_by_the_page_or_refused_by_the_route :
  forall (trim : string -> string) (w : World) (fuel : nat) (query : string)
         (log : list Request),
    query <> ""%string ->
    classify query = Unmatched ->
    (trim query = ""%string -> debouncedSearch trim query = NoAction)
    /\ (trim query <> ""%string -> isSpotifyUrl query = false ->
        debouncedSearch trim query = GetSearchResults query "track,artist,album")
    /\ (trim query <> ""%string -> isSpotifyUrl query = true ->
        debouncedSearch trim query = PostLookup query)
    /\ (fst (POST w fuel (Some query) log) = log
        \/ fst (POST w fuel (Some query) log) = log ++ [PostToken])
    /\ (forall accessToken log1,
          getAccessToken w log = (log1, Ok accessToken) ->
          POST w fuel (Some query) log
          = (log1,
             Ok (errorResponse 400
                   "Invalid Spotify URL. Please provide a valid artist, album, or track URL.")))
    /\ (forall log' response,
          POST w fuel (Some query) log = (log', Ok response) ->
          exists status error, response = errorResponse status error).
Proof.
  intros trim w fuel query log Hne Hclass.
  split; [| split; [| split]].
  - intros Hblank. unfold debouncedSearch. rewrite Hblank. reflexivity.
  - intros Hblank Hurl. unfold debouncedSearch. cbn [truthy].
    apply String.eqb_neq in Hblank. rewrite Hblank, Hurl. reflexivity.
  - intros Hblank Hurl. unfold debouncedSearch. cbn [truthy].
    apply String.eqb_neq in Hblank. rewrite Hblank, Hurl. reflexivity.
  - unfold POST, tryPOST.
    assert (truthy (Some query) = true) as ->
      by (cbn; apply negb_true_iff, String.eqb_neq, Hne).
    cbn [negb]. unfold bind. rewrite Hclass. unfold getAccessToken.
    destruct (negb (truthy (SPOTIFY_CLIENT_ID w)) || negb (truthy (SPOTIFY_CLIENT_SECRET w))).
    + unfold throw. cbn [fst]. split; [left; reflexivity |]. split.
      * intros accessToken log1 H. discriminate H.
      * intros log' response H. injection H as <- <-. eexists. eexists. reflexivity.
    + unfold axios. destruct (token_endpoint w) as [token | failure].
      * unfold ret. cbn [fst]. split; [right; reflexivity |]. split.
        -- intros accessToken log1 H. injection H as <- _. reflexivity.
        -- intros log' response H. injection H as <- <-. eexists. eexists. reflexivity.
      * cbn [fst]. split; [right; reflexivity |]. split.
        -- intros accessToken log1 H. discriminate H.
        -- intros log' response H. injection H as <- H.
           apply nextResponseJson_Ok in H. destruct H as [-> _].
           unfold caught. eexists. eexists. reflexivity.
Qed.

(** A playlist link is posted to the route and answered with status 400; a
    line of a song is sent to the search route. Neither text begins or ends
    with white space, so [trim] leaves both as they are. *)
Lemma unmatched_input_is_searched_by_the_page_or_refused_by_the_route_witness :
  (debouncedSearch (fun s => s) "https://open.spotify.com/playlist/37i9dQZF1DXcBWIGoYBM5M"
   = PostLookup "https://open.spotify.com/playlist/37i9dQZF1DXcBWIGoYBM5M"
   /\ POST Demo.world 0 (Some "https://open.spotify.com/playlist/37i9dQZF1DXcBWIGoYBM5M") []
      = ([PostToken],
         Ok (errorResponse 400
               "Invalid Spotify URL. Please provide a valid artist, album, or track URL.")))
  /\ debouncedSearch (fun s => s) "never gonna give you up"
     = GetSearchResults "never gonna give you up" "track,artist,album".
Proof.
  split.
  - destruct (unmatched_input_is_searched_by_the_page_or_refused_by_the_route
                (fun s => s) Demo.world 0
                "https://open.spotify.com/playlist/37i9dQZF1DXcBWIGoYBM5M" [])
      as (_ & _ & Hpost & _ & Hanswer & _).
    + discriminate.
    + vm_compute. reflexivity.
    + split.
      * apply Hpost; [discriminate | vm_compute; reflexivity].
      * apply (Hanswer "token"%string [PostToken]). reflexivity.
  - destruct (unmatched_input_is_searched_by_the_page_or_refused_by_the_route
                (fun s => s) Demo.world 0 "never gonna give you up" [])
      as (_ & Hsearch & _).
    + discriminate.
    + vm_compute. reflexivity.
    + apply Hsearch; [discriminate | vm_compute; reflexivity].
Defined.

(** ** Indexing the first artist *)

(** The filter ends in a list or in the [TypeError]. *)
Lemma filterPrimary_cases artistId tracks :
  (exists kept, filterPrimary artistId tracks = Ok kept)
  \/ filterPrimary artistId tracks = Throw TypeError.
Proof.
  induction tracks as [| track rest IH]; simpl.
  - left. eexists. reflexivity.
  - destruct (SpotifyTrack.artists track) as [| artist others]; simpl.
    + right. reflexivity.
    + destruct IH as [[kept ->] | ->]; [left; eexists; reflexivity | right; reflexivity].
Qed.

Lemma filterPrimary_total artistId tracks :
  (forall track, In track tracks -> SpotifyTrack.artists track <> []) <->
  exists kept, filterPrimary artistId tracks = Ok kept.
Proof.
  induction tracks as [| track rest IH]; simpl.
  - split; [intros _; eexists; reflexivity | intros _ t []].
  - split.
    + intros Hall.
      destruct (SpotifyTrack.artists track) as [| artist others] eqn:E.
      * exfalso. apply (Hall track); [left; reflexivity | exact E].
      * simpl. destruct (proj1 IH) as [kept ->]; [| eexists; reflexivity].
        intros t Ht. apply Hall. right. exact Ht.
    + intros [kept H] t [<- | Ht].
      * destruct (SpotifyTrack.artists track); [discriminate H | discriminate].
      * destruct (SpotifyTrack.artists track); [discriminate H |]. simpl in H.
        destruct (filterPrimary artistId rest) as [kept' | e | ] eqn:E;
          [| discriminate H | discriminate H].
        apply (proj2 IH); [eexists; reflexivity | exact Ht].
Qed.

Lemma ret_NoTypeError {A} (a : A) log : NoTypeError (ret a) log.
Proof. unfold NoTypeError, ret. simpl. discriminate. Qed.

Lemma axios_NoTypeError {A} (r : Request) (reply : Reply A) log :
  NoTypeError (axios r reply) log.
Proof.
  unfold NoTypeError, axios. simpl. destruct reply; [discriminate |].
  unfold TypeError. discriminate.
Qed.

Lemma bind_NoTypeError {A B} (m : M A) (k : A -> M B) log :
  NoTypeError m log ->
  (forall a log1, m log = (log1, Ok a) -> NoTypeError (k a) log1) ->
  NoTypeError (bind m k) log.
Proof.
  unfold NoTypeError, bind. intros Hm Hk.
  destruct (m log) as [log1 [a | e | ]]; simpl in *.
  - apply Hk. reflexivity.
  - intros H. apply Hm. injection H as ->. reflexivity.
  - discriminate.
Qed.

Lemma promiseAll2_NoTypeError {A B} (ma : M A) (mb : M B) log :
  NoTypeError ma log -> (forall log1, NoTypeError mb log1) ->
  NoTypeError (promiseAll2 ma mb) log.
Proof.
  unfold NoTypeError, promiseAll2. intros Ha Hb.
  destruct (ma log) as [log1 a]. specialize (Hb log1).
  destruct (mb log1) as [log2 b]. simpl in *.
  destruct a, b; simpl; try discriminate;
    intros H; injection H as ->;
    first [apply Ha; reflexivity | apply Hb; reflexivity].
Qed.

Lemma promiseAll_NoTypeError {A} (ms : list (M A)) :
  (forall m, In m ms -> forall log, NoTypeError m log) ->
  forall log, NoTypeError (promiseAll ms) log.
Proof.
  induction ms as [| m rest IH]; intros Hall log.
  - apply ret_NoTypeError.
  - assert (NoTypeError (promiseAll2 m (promiseAll rest)) log) as H.
    { apply promiseAll2_NoTypeError.
      - apply Hall. left. reflexivity.
      - apply IH. intros m' Hm'. apply Hall. right. exact Hm'. }
    unfold NoTypeError in *. cbn [promiseAll].
    destruct (promiseAll2 m (promiseAll rest) log) as [log' [[x xs] | e | ]]; simpl in *.
    + discriminate.
    + intros H'. apply H. injection H' as ->. reflexivity.
    + discriminate.
Qed.

Section NoTypeErrors.
Variable w : World.

Lemma getTrackDetails_NoTypeError trackId log :
  NoTypeError (getTrackDetails w trackId) log.
Proof.
  unfold getTrackDetails.
  apply bind_NoTypeError; [apply axios_NoTypeError |]. intros response log1 _.
  apply bind_NoTypeError; [| intros; apply ret_NoTypeError].
  destruct (SpotifyTrack.album response); [| apply ret_NoTypeError].
  apply bind_NoTypeError; [apply axios_NoTypeError |].
  intros; apply ret_NoTypeError.
Qed.

Lemma fetchMorePages_NoTypeError fuel albumId response :
  forall allTracks offset log,
    NoTypeError (fetchMorePages w fuel albumId response allTracks offset) log.
Proof.
  induction fuel as [| fuel IH]; intros allTracks offset log; cbn [fetchMorePages];
    destruct (truthy (SpotifyAlbumResponse.next response));
    try apply ret_NoTypeError.
  - unfold NoTypeError, diverge. simpl. discriminate.
  - apply bind_NoTypeError; [apply axios_NoTypeError |].
    intros nextResponse log1 _. apply IH.
Qed.

Lemma getAlbumTracks_NoTypeError fuel albumId log :
  NoTypeError (getAlbumTracks w fuel albumId) log.
Proof.
  unfold getAlbumTracks.
  apply bind_NoTypeError; [apply axios_NoTypeError |]. intros albumResponse log1 _.
  apply bind_NoTypeError; [apply axios_NoTypeError |]. intros response log2 _.
  apply bind_NoTypeError; [apply fetchMorePages_NoTypeError |]. intros allTracks log3 _.
  apply bind_NoTypeError; [| intros; apply ret_NoTypeError].
  apply promiseAll_NoTypeError. intros m Hm log4.
  apply in_map_iff in Hm. destruct Hm as (track & <- & _).
  unfold withAlbumImages.
  apply bind_NoTypeError; [apply getTrackDetails_NoTypeError |].
  intros; apply ret_NoTypeError.
Qed.

(** The precondition: the provider lists at least one artist on every
    track, in track details and in search pages. *)
Hypothesis tracks_have_artists :
  forall trackId track,
    tracks_endpoint w trackId = Success track -> SpotifyTrack.artists track <> [].
Hypothesis search_results_have_artists :
  forall artistName offset page track,
    search_endpoint w artistName offset = Success page ->
    In track (SpotifySearchResponse.items page) ->
    SpotifyTrack.artists track <> [].

Lemma searchPages_NoTypeError fuel artistId artistName :
  forall acc offset log,
    NoTypeError (searchPages w fuel artistId artistName acc offset) log.
Proof.
  induction fuel as [| fuel IH]; intros acc offset log; cbn [searchPages];
    destruct ((Z.of_nat (List.length acc) <? 100) && (offset <? 200));
    try apply ret_NoTypeError.
  - unfold NoTypeError, diverge. simpl. discriminate.
  - apply bind_NoTypeError; [apply axios_NoTypeError |].
    intros searchResponse log1 Hsearch. cbv zeta.
    destruct (Z.of_nat (List.length (SpotifySearchResponse.items searchResponse)) =? 0);
      [apply ret_NoTypeError |].
    apply axios_Ok in Hsearch. destruct Hsearch as [_ Hsearch].
    apply bind_NoTypeError; [| intros; apply IH].
    destruct (proj1 (filterPrimary_total artistId
                       (SpotifySearchResponse.items searchResponse))) as [kept Hkept].
    + intros track Hin. eapply search_results_have_artists; eassumption.
    + unfold NoTypeError, lift. rewrite Hkept. simpl. discriminate.
Qed.

Lemma getArtistTopTracks_NoTypeError artistId log :
  NoTypeError (getArtistTopTracks w artistId) log.
Proof.
  unfold getArtistTopTracks.
  apply bind_NoTypeError; [apply axios_NoTypeError |]. intros artistResponse log1 _.
  apply bind_NoTypeError; [apply searchPages_NoTypeError |].
  intros; apply ret_NoTypeError.
Qed.

(** The artists of a track detail are those of the provider's track. *)
Lemma getTrackDetails_artists trackId log log1 track :
  getTrackDetails w trackId log = (log1, Ok track) ->
  ProcessedTrack.artists track <> [].
Proof.
  unfold getTrackDetails. intros H.
  apply bind_Ok in H. destruct H as (response & log2 & Hresponse & H).
  apply axios_Ok in Hresponse. destruct Hresponse as [_ Hresponse].
  apply bind_Ok in H. destruct H as (albumResponse & log3 & _ & H).
  apply ret_Ok in H. destruct H as [_ ->]. simpl.
  pose proof (tracks_have_artists trackId response Hresponse) as Hne.
  destruct (SpotifyTrack.artists response); [contradiction | discriminate].
Qed.

Lemma trackBranch_NoTypeError fuel trackId log :
  NoTypeError (trackBranch w fuel trackId) log.
Proof.
  unfold trackBranch.
  apply bind_NoTypeError; [apply getTrackDetails_NoTypeError |].
  intros track log1 Htrack. apply getTrackDetails_artists in Htrack.
  destruct (ProcessedTrack.album track) as [album |]; [| apply ret_NoTypeError].
  destruct (ProcessedTrack.artists track) as [| artist others]; [contradiction |].
  apply bind_NoTypeError.
  - unfold NoTypeError, lift. simpl. discriminate.
  - intros artistId log2 _.
    destruct (negb (truthy (Some artistId))); [apply ret_NoTypeError |].
    apply bind_NoTypeError.
    + apply promiseAll2_NoTypeError;
        [apply getAlbumTracks_NoTypeError | intros; apply getArtistTopTracks_NoTypeError].
    + intros [albumTracks artistTopTracks] log3 _. apply ret_NoTypeError.
Qed.

Lemma tryPOST_NoTypeError fuel url log : NoTypeError (tryPOST w fuel url) log.
Proof.
  unfold tryPOST. destruct (negb (truthy url)); [apply ret_NoTypeError |].
  apply bind_NoTypeError.
  - unfold getAccessToken.
    destruct (negb (truthy (SPOTIFY_CLIENT_ID w))
              || negb (truthy (SPOTIFY_CLIENT_SECRET w)));
      [| apply axios_NoTypeError].
    unfold NoTypeError, throw, TypeError. simpl. discriminate.
  - intros accessToken log1 _.
    destruct (classify (match url with Some u => u | None => ""%string end)).
    + unfold artistBranch. apply bind_NoTypeError.
      * apply promiseAll2_NoTypeError;
          [apply axios_NoTypeError | intros; apply getArtistTopTracks_NoTypeError].
      * intros [artist topTracks] log2 _. apply ret_NoTypeError.
    + unfold albumBranch.
      apply bind_NoTypeError; [apply axios_NoTypeError |]. intros albumResponse log2 _.
      apply bind_NoTypeError; [apply getAlbumTracks_NoTypeError |].
      intros; apply ret_NoTypeError.
    + apply trackBranch_NoTypeError.
    + apply ret_NoTypeError.
Qed.
End NoTypeErrors.

(** C9. [track.artists[0].id] is read without a guard, in the filter of the
    search loop and in the track branch:
    - the filter returns a list exactly when every track of the page lists an
      artist, and throws the [TypeError] as soon as one lists none;
    - the track branch throws the [TypeError] on a track (with an album) that
      lists no artist; when the track lists one, the 404 "Artist information
      not found" answer is given exactly when the first artist's id is the
      empty string, so it is unreachable for a non-empty id;
    - when every track of every provider response lists an artist, the handler
      never throws the [TypeError]. *)
Theorem first_artist_indexing_safe_iff_artists_nonempty :
  (forall artistId tracks,
      ((forall track, In track tracks -> SpotifyTrack.artists track <> []) <->
       exists kept, filterPrimary artistId tracks = Ok kept)
      /\ ((exists track, In track tracks /\ SpotifyTrack.artists track = []) ->
          filterPrimary artistId tracks = Throw TypeError))
  /\ (forall w fuel trackId log log1 track album,
        getTrackDetails w trackId log = (log1, Ok track) ->
        ProcessedTrack.album track = Some album ->
        (ProcessedTrack.artists track = [] ->
         trackBranch w fuel trackId log = (log1, Throw TypeError))
        /\ (forall artist rest,
              ProcessedTrack.artists track = artist :: rest ->
              (SpotifyArtist.id artist <> ""%string ->
               forall log',
                 trackBranch w fuel trackId log
                 <> (log', Ok (errorResponse 404 "Artist information not found")))
              /\ (SpotifyArtist.id artist = ""%string ->
                  trackBranch w fuel trackId log
                  = (log1, Ok (errorResponse 404 "Artist information not found")))))
  /\ (forall w,
        ArtistsNonEmpty w ->
        forall fuel url log, snd (tryPOST w fuel url log) <> Throw TypeError).
Proof.
  split; [| split].
  - intros artistId tracks. split; [apply filterPrimary_total |].
    intros (track & Hin & Hempty).
    destruct (filterPrimary_cases artistId tracks) as [Hok | Hthrow]; [| exact Hthrow].
    exfalso. apply (proj2 (filterPrimary_total artistId tracks) Hok track Hin Hempty).
  - intros w fuel trackId log log1 track album Htrack Halbum. split.
    + intros Hempty. unfold trackBranch, bind. rewrite Htrack, Halbum, Hempty.
      reflexivity.
    + intros artist rest Hartists. split.
      * intros Hid log' H. apply trackBranch_Ok in H.
        destruct H as (track' & log1' & Htrack' & H).
        rewrite Htrack in Htrack'. injection Htrack' as <- <-.
        destruct H as [(Hnone & _) | (album' & artistId & _ & Hfirst & [H | H])].
        -- rewrite Halbum in Hnone. discriminate Hnone.
        -- rewrite Hartists in Hfirst. injection Hfirst as <-.
           destruct H as (Hempty & _). contradiction.
        -- destruct H as (_ & albumTracks & artistTopTracks & log2 & _ & _ & H).
           discriminate H.
      * intros Hid. unfold trackBranch, bind. rewrite Htrack, Halbum, Hartists.
        unfold lift, firstArtistId. rewrite Hid. reflexivity.
  - intros w [Htracks Hsearch] fuel url log.
    apply (tryPOST_NoTypeError w Htracks Hsearch).
Qed.

Lemma cleanWorld_ArtistsNonEmpty : ArtistsNonEmpty cleanWorld.
Proof.
  split.
  - intros trackId track. simpl. unfold Demo.tracks.
    repeat (destruct (trackId =? _)%string;
            [intros H; first [discriminate H | injection H as <-; discriminate] |]).
    intros H. discriminate H.
  - intros artistName offset page track. simpl. unfold Demo.search.
    destruct ((artistName =? "Artist One")%string && (offset =? 0));
      intros H; injection H as <-; simpl; intros Hin.
    + repeat (destruct Hin as [<- | Hin]; [discriminate |]). contradiction.
    + contradiction.
Qed.

(** On the catalogue: the filter on the first search page, the track that
    lists no artist, the track whose first artist has an empty id, and the
    handler on the cleaned catalogue. *)
Lemma first_artist_indexing_safe_iff_artists_nonempty_witness :
  trackBranch Demo.world 0 "n1" [] = ([GetTrack "n1"; GetAlbum "A3"], Throw TypeError)
  /\ trackBranch Demo.world 0 "e1" []
     = ([GetTrack "e1"; GetAlbum "A3"],
        Ok (errorResponse 404 "Artist information not found"))
  /\ snd (tryPOST cleanWorld 0 (Some "https://open.spotify.com/track/n1") [])
     <> Throw TypeError.
Proof.
  pose proof first_artist_indexing_safe_iff_artists_nonempty as (_ & Htrack & Hsafe).
  split; [| split].
  - refine (proj1 (Htrack Demo.world 0%nat "n1" [] _ _ _ _ _) _);
      vm_compute; reflexivity.
  - refine (proj2 (proj2 (Htrack Demo.world 0%nat "e1" [] _ _ _ _ _) _ _ _) _);
      vm_compute; reflexivity.
  - apply (Hsafe cleanWorld cleanWorld_ArtistsNonEmpty).
Defined.

(** * Further properties of the route *)

(** ** The sort is a stable rearrangement *)

Lemma insert_Permutation {A} (compare : A -> A -> Z) (x : A) (l : list A) :
  Permutation (insert compare x l) (x :: l).
Proof.
  induction l as [| y l IH]; simpl; [reflexivity |].
  destruct (compare x y >? 0); [| reflexivity].
  rewrite IH. apply perm_swap.
Qed.

Lemma sort_Permutation {A} (compare : A -> A -> Z) (l : list A) :
  Permutation (sort compare l) l.
Proof.
  induction l as [| x l IH]; simpl; [reflexivity |].
  rewrite insert_Permutation. apply perm_skip, IH.
Qed.

Lemma insert_ties (k : Z) (x : ProcessedTrack.t) (l : list ProcessedTrack.t) :
  filter (fun t => ProcessedTrack.popularity t =? k) (insert byPopularity x l)
  = filter (fun t => ProcessedTrack.popularity t =? k) (x :: l).
Proof.
  induction l as [| y l IH]; [reflexivity |].
  cbn [insert]. destruct (byPopularity x y >? 0) eqn:E; [| reflexivity].
  unfold byPopularity in E. apply Z.gtb_lt in E.
  cbn [filter] in *.
  destruct (ProcessedTrack.popularity y =? k) eqn:Ey.
  - apply Z.eqb_eq in Ey.
    replace (ProcessedTrack.popularity x =? k) with false in *
      by (symmetry; apply Z.eqb_neq; lia).
    rewrite IH. reflexivity.
  - exact IH.
Qed.

(** X1. The array that [sort((a, b) => b.popularity - a.popularity)] returns is
    a rearrangement of the tracks it is given, and tracks of equal popularity
    keep the order in which the provider listed them. *)
Theorem sort_by_popularity_is_a_stable_rearrangement :
  forall l : list ProcessedTrack.t,
    Permutation (sort byPopularity l) l
    /\ forall k : Z,
         filter (fun t => ProcessedTrack.popularity t =? k) (sort byPopularity l)
         = filter (fun t => ProcessedTrack.popularity t =? k) l.
Proof.
  intros l. split; [apply sort_Permutation |].
  intros k. induction l as [| x l IH]; [reflexivity |].
  cbn [sort fold_right]. fold (sort byPopularity l).
  rewrite insert_ties. cbn [filter]. rewrite IH. reflexivity.
Qed.

(** ** [getTrackDetails] *)

Lemma map_artist_copy (artists : list SpotifyArtist.t) :
  map (fun artist => SpotifyArtist.mk (SpotifyArtist.name artist) (SpotifyArtist.id artist))
      artists = artists.
Proof.
  induction artists as [| [name id] artists IH]; simpl; [reflexivity |].
  rewrite IH. reflexivity.
Qed.

(** What a successful [getTrackDetails] has requested and returns. *)
Lemma getTrackDetails_Ok w trackId log log' track :
  getTrackDetails w trackId log = (log', Ok track) ->
  exists response,
    tracks_endpoint w trackId = Success response
    /\ ProcessedTrack.id track = SpotifyTrack.id response
    /\ ProcessedTrack.name track = SpotifyTrack.name response
    /\ ProcessedTrack.artists track = SpotifyTrack.artists response
    /\ ProcessedTrack.popularity track = SpotifyTrack.popularity response
    /\ ProcessedTrack.duration_ms track = SpotifyTrack.duration_ms response
    /\ match SpotifyTrack.album response with
       | None => ProcessedTrack.album track = None /\ log' = log ++ [GetTrack trackId]
       | Some album =>
           exists details,
             albums_endpoint w (TrackAlbum.id album) = Success details
             /\ log' = log ++ [GetTrack trackId; GetAlbum (TrackAlbum.id album)]
             /\ ProcessedTrack.album track =
                Some (ProcessedAlbum.mk
                        (TrackAlbum.id album) (TrackAlbum.name album)
                        (TrackAlbum.release_date album)
                        (orOne (SpotifyAlbumDetails.total_tracks details))
                        (SpotifyAlbumDetails.images details))
       end.
Proof.
  unfold getTrackDetails. intros H.
  apply bind_Ok in H. destruct H as (response & log1 & Hresponse & H).
  apply axios_Ok in Hresponse. destruct Hresponse as [-> Hresponse].
  apply bind_Ok in H. destruct H as (albumResponse & log2 & Halbum & H).
  apply ret_Ok in H. destruct H as [-> ->].
  exists response. split; [exact Hresponse |]. cbn.
  rewrite map_artist_copy. repeat (split; [reflexivity |]).
  destruct (SpotifyTrack.album response) as [album |].
  - apply bind_Ok in Halbum. destruct Halbum as (details & log3 & Hdetails & Halbum).
    apply axios_Ok in Hdetails. destruct Hdetails as [-> Hdetails].
    apply ret_Ok in Halbum. destruct Halbum as [-> ->].
    exists details. split; [exact Hdetails |].
    rewrite <- app_assoc. split; reflexivity.
  - apply ret_Ok in Halbum. destruct Halbum as [-> ->]. split; reflexivity.
Qed.

(** When the provider answers, [getTrackDetails] returns, from any log. *)
Lemma getTrackDetails_returns w trackId log :
  DetailsAvailable w trackId ->
  exists log' track, getTrackDetails w trackId log = (log', Ok track).
Proof.
  intros (response & Hresponse & Halbum).
  unfold getTrackDetails, bind at 1, axios at 1. rewrite Hresponse.
  destruct (SpotifyTrack.album response) as [album |].
  - destruct Halbum as [details Hdetails].
    unfold bind, axios, ret. rewrite Hdetails. eexists. eexists. reflexivity.
  - unfold bind, ret. eexists. eexists. reflexivity.
Qed.

Lemma getTrackDetails_available w trackId log log' track :
  getTrackDetails w trackId log = (log', Ok track) -> DetailsAvailable w trackId.
Proof.
  intros H. apply getTrackDetails_Ok in H.
  destruct H as (response & Hresponse & _ & _ & _ & _ & _ & Halbum).
  exists response. split; [exact Hresponse |].
  destruct (SpotifyTrack.album response) as [album |]; [| exact I].
  destruct Halbum as (details & Hdetails & _). exists details. exact Hdetails.
Qed.

(** X2. The track that [getTrackDetails] returns has the id, name, artists,
    popularity and duration of the provider's track; its album, when there is
    one, takes its images from the album's own details and its [total_tracks]
    from there too, except that a count of 0 is reported as 1: the reported
    count is never 0. *)
Theorem track_details_mirror_the_provider :
  forall (w : World) (trackId : string) (log log' : list Request)
         (track : ProcessedTrack.t),
    getTrackDetails w trackId log = (log', Ok track) ->
    exists response,
      tracks_endpoint w trackId = Success response
      /\ ProcessedTrack.id track = SpotifyTrack.id response
      /\ ProcessedTrack.name track = SpotifyTrack.name response
      /\ ProcessedTrack.artists track = SpotifyTrack.artists response
      /\ ProcessedTrack.popularity track = SpotifyTrack.popularity response
      /\ ProcessedTrack.duration_ms track = SpotifyTrack.duration_ms response
      /\ (ProcessedTrack.album track = None <-> SpotifyTrack.album response = None)
      /\ forall album,
           ProcessedTrack.album track = Some album ->
           ProcessedAlbum.total_tracks album <> 0
           /\ exists details,
                albums_endpoint w (ProcessedAlbum.id album) = Success details
                /\ ProcessedAlbum.images album = SpotifyAlbumDetails.images details
                /\ (SpotifyAlbumDetails.total_tracks details <> 0 ->
                    ProcessedAlbum.total_tracks album
                    = SpotifyAlbumDetails.total_tracks details)
                /\ (SpotifyAlbumDetails.total_tracks details = 0 ->
                    ProcessedAlbum.total_tracks album = 1).
Proof.
  intros w trackId log log' track H. apply getTrackDetails_Ok in H.
  destruct H as (response & Hresponse & Hid & Hname & Hartists & Hpop & Hms & Halbum).
  exists response. repeat (split; [assumption |]).
  destruct (SpotifyTrack.album response) as [raw |].
  - destruct Halbum as (details & Hdetails & _ & ->). split.
    + split; intros H; discriminate H.
    + intros album H. injection H as <-. cbn. unfold orOne.
      destruct (SpotifyAlbumDetails.total_tracks details =? 0) eqn:E.
      * apply Z.eqb_eq in E. split; [discriminate |].
        exists details. split; [exact Hdetails |]. split; [reflexivity |].
        split; [intros Hne; contradiction | reflexivity].
      * apply Z.eqb_neq in E. split; [exact E |].
        exists details. split; [exact Hdetails |]. split; [reflexivity |].
        split; [reflexivity | intros H0; contradiction].
  - destruct Halbum as [-> _]. split; [split; reflexivity |].
    intros album H. discriminate H.
Qed.

Lemma track_details_mirror_the_provider_witness :
  exists (track : ProcessedTrack.t) (album : ProcessedAlbum.t),
    ProcessedTrack.album track = Some album
    /\ ProcessedTrack.popularity track = 60
    /\ ProcessedAlbum.total_tracks album = 3.
Proof.
  assert (exists log' track album,
             getTrackDetails Demo.world "t3" [] = (log', Ok track)
             /\ ProcessedTrack.album track = Some album
             /\ ProcessedAlbum.total_tracks album = 3)
    as (log' & track & album & Hrun & Halbum & Htotal)
    by (eexists; eexists; eexists; vm_compute; repeat split; reflexivity).
  destruct (track_details_mirror_the_provider Demo.world "t3" [] log' track Hrun)
    as (response & Hresponse & _ & _ & _ & Hpop & _).
  exists track, album. split; [exact Halbum |]. split; [| exact Htotal].
  rewrite Hpop. vm_compute in Hresponse. injection Hresponse as <-. reflexivity.
Defined.

(** ** [getAlbumTracks] on an album of one page *)

Lemma promiseAll_Ok {A} (ms : list (M A)) :
  forall log log' xs,
    promiseAll ms log = (log', Ok xs) ->
    Forall2 (fun m x => exists log1 log2, m log1 = (log2, Ok x)) ms xs.
Proof.
  induction ms as [| m rest IH]; intros log log' xs H; cbn [promiseAll] in H.
  - apply ret_Ok in H. destruct H as [_ ->]. constructor.
  - destruct (promiseAll2 m (promiseAll rest) log) as [log2 [[x xs'] | e | ]] eqn:E;
      try discriminate H.
    injection H as <- <-. apply promiseAll2_Ok in E. destruct E as (log1 & Hm & Hrest).
    constructor; [exists log, log1; exact Hm | exact (IH _ _ _ Hrest)].
Qed.

Lemma promiseAll_returns {A} (ms : list (M A)) :
  (forall m, In m ms -> forall log, exists log' x, m log = (log', Ok x)) ->
  forall log, exists log' xs, promiseAll ms log = (log', Ok xs).
Proof.
  induction ms as [| m rest IH]; intros Hall log.
  - exists log, []. reflexivity.
  - destruct (Hall m (or_introl eq_refl) log) as (log1 & x & Hm).
    destruct (IH (fun m' Hm' => Hall m' (or_intror Hm')) log1) as (log2 & xs & Hrest).
    exists log2, (x :: xs). cbn [promiseAll]. unfold promiseAll2.
    rewrite Hm, Hrest. reflexivity.
Qed.

(** The callback returns exactly when [getTrackDetails] does; it keeps the
    track and puts the album's images on it. *)
Lemma withAlbumImages_Ok w albumResponse item log log' track :
  withAlbumImages w albumResponse item log = (log', Ok track) ->
  exists details,
    getTrackDetails w (AlbumItem.id item) log = (log', Ok details)
    /\ ProcessedTrack.id track = ProcessedTrack.id details
    /\ ProcessedTrack.popularity track = ProcessedTrack.popularity details
    /\ ProcessedTrack.artists track = ProcessedTrack.artists details
    /\ forall album,
         ProcessedTrack.album track = Some album ->
         ProcessedAlbum.images album = SpotifyAlbumDetails.images albumResponse.
Proof.
  unfold withAlbumImages. intros H.
  apply bind_Ok in H. destruct H as (details & log1 & Hdetails & H).
  apply ret_Ok in H. destruct H as [-> ->].
  exists details. split; [exact Hdetails |]. cbn. repeat (split; [reflexivity |]).
  intros album H. destruct (ProcessedTrack.album details); [| discriminate H].
  injection H as <-. reflexivity.
Qed.

Lemma withAlbumImages_returns w albumResponse item log :
  DetailsAvailable w (AlbumItem.id item) ->
  exists log' track, withAlbumImages w albumResponse item log = (log', Ok track).
Proof.
  intros Havailable.
  destruct (getTrackDetails_returns w _ log Havailable) as (log' & details & Hdetails).
  unfold withAlbumImages, bind. rewrite Hdetails. unfold ret.
  eexists. eexists. reflexivity.
Qed.

Lemma fetchMorePages_Ok w fuel albumId response :
  truthy (SpotifyAlbumResponse.next response) = true ->
  forall allTracks offset log log' result,
    fetchMorePages w fuel albumId response allTracks offset log <> (log', Ok result).
Proof.
  intros Hnext. induction fuel as [| fuel IH]; intros allTracks offset log log' result;
    cbn [fetchMorePages]; rewrite Hnext.
  - discriminate.
  - intros H. apply bind_Ok in H. destruct H as (page & log1 & _ & H).
    exact (IH _ _ _ _ _ H).
Qed.

(** What a successful [getAlbumTracks] has seen and returns. *)
Lemma getAlbumTracks_Ok w fuel albumId log log' tracks :
  getAlbumTracks w fuel albumId log = (log', Ok tracks) ->
  exists album page details,
    albums_endpoint w albumId = Success album
    /\ album_tracks_endpoint w albumId None = Success page
    /\ truthy (SpotifyAlbumResponse.next page) = false
    /\ Forall2 (fun item track =>
                  exists log1 log2,
                    withAlbumImages w album item log1 = (log2, Ok track))
               (SpotifyAlbumResponse.items page) details
    /\ tracks = sort byPopularity details.
Proof.
  unfold getAlbumTracks. intros H.
  apply bind_Ok in H. destruct H as (album & log1 & Halbum & H).
  apply axios_Ok in Halbum. destruct Halbum as [-> Halbum].
  apply bind_Ok in H. destruct H as (page & log2 & Hpage & H).
  apply axios_Ok in Hpage. destruct Hpage as [-> Hpage].
  apply bind_Ok in H. destruct H as (allTracks & log3 & Hloop & H).
  apply bind_Ok in H. destruct H as (details & log4 & Hall & H).
  apply ret_Ok in H. destruct H as [-> ->].
  destruct (truthy (SpotifyAlbumResponse.next page)) eqn:Hnext.
  - exfalso. exact (fetchMorePages_Ok w fuel albumId page Hnext _ _ _ _ _ Hloop).
  - rewrite (fetchMorePages_last_page w fuel albumId page _ _ _ Hnext) in Hloop.
    injection Hloop as <- <-.
    exists album, page, details. repeat (split; [assumption || reflexivity |]).
    split; [| reflexivity].
    apply promiseAll_Ok in Hall. clear - Hall.
    remember (map (withAlbumImages w album) (SpotifyAlbumResponse.items page)) as ms eqn:E.
    revert E. generalize (SpotifyAlbumResponse.items page).
    induction Hall as [| m track ms details Hm Hrest IH]; intros items E.
    + destruct items; [constructor | discriminate E].
    + destruct items as [| item items]; [discriminate E |].
      injection E as -> ->. constructor; [exact Hm | apply IH; reflexivity].
Qed.

(** X3. [getAlbumTracks] returns a list exactly when the provider answers the
    album request and the first page of its track listing, that page carries
    no cursor, and the provider answers the detail requests of every track
    listed on it; the fuel plays no part. *)
Theorem getAlbumTracks_returns_iff_one_page_and_all_details :
  forall (w : World) (fuel : nat) (albumId : string) (log : list Request),
    (exists log' tracks, getAlbumTracks w fuel albumId log = (log', Ok tracks))
    <->
    (exists album page,
        albums_endpoint w albumId = Success album
        /\ album_tracks_endpoint w albumId None = Success page
        /\ truthy (SpotifyAlbumResponse.next page) = false
        /\ Forall (fun item => DetailsAvailable w (AlbumItem.id item))
                  (SpotifyAlbumResponse.items page)).
Proof.
  intros w fuel albumId log. split.
  - intros (log' & tracks & H). apply getAlbumTracks_Ok in H.
    destruct H as (album & page & details & Halbum & Hpage & Hnext & Hall & _).
    exists album, page. repeat (split; [assumption |]).
    induction Hall as [| item track items details Hitem _ IH]; constructor; [| exact IH].
    destruct Hitem as (log1 & log2 & Hitem). apply withAlbumImages_Ok in Hitem.
    destruct Hitem as (d & Hd & _). eapply getTrackDetails_available; exact Hd.
  - intros (album & page & Halbum & Hpage & Hnext & Hall).
    unfold getAlbumTracks, bind at 1, axios at 1. rewrite Halbum.
    unfold bind at 1, axios at 1. rewrite Hpage.
    unfold bind at 1. rewrite (fetchMorePages_last_page w fuel albumId page _ _ _ Hnext).
    destruct (promiseAll_returns
                (map (withAlbumImages w album) (SpotifyAlbumResponse.items page)))
      with (log := (log ++ [GetAlbum albumId]) ++ [GetAlbumTracks albumId None])
      as (log' & details & Hrun).
    + intros m Hm log0. apply in_map_iff in Hm. destruct Hm as (item & <- & Hitem).
      apply withAlbumImages_returns. rewrite Forall_forall in Hall. apply Hall, Hitem.
    + unfold bind. rewrite Hrun. unfold ret. eexists. eexists. reflexivity.
Qed.

(** X4. A list returned by [getAlbumTracks] holds exactly one track per item
    of the first page of the listing: it is a rearrangement of a list that
    has, item by item, a track with the id and the popularity that the
    provider gives for that item, whose album, if any, carries the images of
    the album requested. *)
Theorem getAlbumTracks_one_track_per_listed_item :
  forall (w : World) (fuel : nat) (albumId : string) (log log' : list Request)
         (tracks : list ProcessedTrack.t),
    getAlbumTracks w fuel albumId log = (log', Ok tracks) ->
    exists album page details,
      albums_endpoint w albumId = Success album
      /\ album_tracks_endpoint w albumId None = Success page
      /\ List.length tracks = List.length (SpotifyAlbumResponse.items page)
      /\ Permutation tracks details
      /\ Forall2
           (fun item track =>
              (exists response,
                  tracks_endpoint w (AlbumItem.id item) = Success response
                  /\ ProcessedTrack.id track = SpotifyTrack.id response
                  /\ ProcessedTrack.popularity track = SpotifyTrack.popularity response)
              /\ forall a, ProcessedTrack.album track = Some a ->
                           ProcessedAlbum.images a = SpotifyAlbumDetails.images album)
           (SpotifyAlbumResponse.items page) details.
Proof.
  intros w fuel albumId log log' tracks H. apply getAlbumTracks_Ok in H.
  destruct H as (album & page & details & Halbum & Hpage & _ & Hall & ->).
  exists album, page, details. split; [exact Halbum |]. split; [exact Hpage |]. split.
  { rewrite sort_length. symmetry. eapply Forall2_length; exact Hall. }
  split; [apply sort_Permutation |].
  induction Hall as [| item d items details Hitem _ IH]; constructor; [| exact IH].
  destruct Hitem as (log1 & log2 & Hitem). apply withAlbumImages_Ok in Hitem.
  destruct Hitem as (td & Htd & Hid & Hpop & _ & Himages).
  apply getTrackDetails_Ok in Htd.
  destruct Htd as (response & Hresponse & Hid' & _ & _ & Hpop' & _).
  split; [| exact Himages].
  exists response. split; [exact Hresponse |]. split; congruence.
Qed.

(** The three-track album: the list returned has the three listed tracks,
    rearranged. *)
Lemma getAlbumTracks_one_track_per_listed_item_witness :
  exists album page details,
    albums_endpoint Demo.world "A3" = Success album
    /\ album_tracks_endpoint Demo.world "A3" None = Success page
    /\ List.length Demo.albumA3 = List.length (SpotifyAlbumResponse.items page)
    /\ Permutation Demo.albumA3 details
    /\ Forall2
         (fun item track =>
            (exists response,
                tracks_endpoint Demo.world (AlbumItem.id item) = Success response
                /\ ProcessedTrack.id track = SpotifyTrack.id response
                /\ ProcessedTrack.popularity track = SpotifyTrack.popularity response)
            /\ forall a, ProcessedTrack.album track = Some a ->
                         ProcessedAlbum.images a = SpotifyAlbumDetails.images album)
         (SpotifyAlbumResponse.items page) details.
Proof.
  assert (exists log', getAlbumTracks Demo.world 0 "A3" [] = (log', Ok Demo.albumA3))
    as [log' Hrun] by (eexists; vm_compute; reflexivity).
  exact (getAlbumTracks_one_track_per_listed_item Demo.world 0 "A3" [] log' _ Hrun).
Defined.

(** The three-track album is such an album, whatever the fuel. *)
Lemma getAlbumTracks_returns_iff_one_page_and_all_details_witness :
  exists log' tracks, getAlbumTracks Demo.world 7 "A3" [] = (log', Ok tracks).
Proof.
  apply (proj2 (getAlbumTracks_returns_iff_one_page_and_all_details
                  Demo.world 7 "A3" [])).
  eexists. eexists. split; [reflexivity |]. split; [reflexivity |].
  split; [reflexivity |].
  repeat constructor;
    (eexists; split; [reflexivity |]; cbn; eexists; reflexivity).
Defined.

(** ** Bounds of the ranks *)

Lemma findIndexFrom_bounds {A} (p : A -> bool) (l : list A) (i : Z) :
  findIndexFrom p l i = -1
  \/ i <= findIndexFrom p l i < i + Z.of_nat (List.length l).
Proof.
  revert i. induction l as [| x l IH]; intros i; cbn [findIndexFrom List.length].
  - left. reflexivity.
  - destruct (p x); [right; lia |].
    destruct (IH (i + 1)) as [H | H]; [left; exact H | right; lia].
Qed.

Lemma rankOf_bounds (tracks : list ProcessedTrack.t) (trackId : string) :
  0 <= rankOf tracks trackId <= Z.of_nat (List.length tracks).
Proof.
  unfold rankOf, findIndex.
  destruct (findIndexFrom_bounds
              (fun t => (ProcessedTrack.id t =? trackId)%string) tracks 0) as [H | H];
    lia.
Qed.

(** X5. In every track payload the rank lies between 0 and the number of
    album tracks, and the artist rank, when attached, between 0 and the
    number of attached artist tracks, which is at most 100. *)
Theorem track_payload_ranks_are_bounded :
  forall (w : World) (fuel : nat) (trackId : string) (log log' : list Request)
         (payload : TrackPayload.t),
    trackBranch w fuel trackId log = (log', Ok (jsonResponse (TrackResult payload))) ->
    0 <= TrackPayload.trackRank payload <= TrackPayload.totalTracks payload
    /\ TrackPayload.totalTracks payload
       = Z.of_nat (List.length (TrackPayload.albumTracks payload))
    /\ forall k, TrackPayload.artistTrackRank payload = Some k ->
                 exists artistTopTracks,
                   TrackPayload.artistTopTracks payload = Some artistTopTracks
                   /\ 0 <= k <= Z.of_nat (List.length artistTopTracks)
                   /\ (List.length artistTopTracks <= 100)%nat.
Proof.
  intros w fuel trackId log log' payload H.
  apply trackBranch_Ok in H. destruct H as (track & log1 & _ & [H | H]).
  { destruct H as (_ & _ & H). discriminate H. }
  destruct H as (album & artistId & _ & _ & [H | H]).
  { destruct H as (_ & _ & H). discriminate H. }
  destruct H as (_ & albumTracks & artistTopTracks & log2 & _ & Htop & H).
  injection H as ->. cbn. split; [apply rankOf_bounds |]. split; [reflexivity |].
  intros k Hk. destruct (ProcessedAlbum.total_tracks album =? 1); [| discriminate Hk].
  injection Hk as <-. exists artistTopTracks. split; [reflexivity |].
  split; [apply rankOf_bounds |].
  apply getArtistTopTracks_Ok in Htop. destruct Htop as (found & _ & ->).
  unfold slice0. apply firstn_le_length.
Qed.

Lemma track_payload_ranks_are_bounded_witness :
  exists payload : TrackPayload.t,
    TrackPayload.trackRank payload = 2
    /\ 0 <= TrackPayload.trackRank payload <= TrackPayload.totalTracks payload.
Proof.
  assert (exists log' payload,
             trackBranch Demo.world 0 "t3" []
             = (log', Ok (jsonResponse (TrackResult payload)))
             /\ TrackPayload.trackRank payload = 2)
    as (log' & payload & Hrun & Hrank)
    by (eexists; eexists; vm_compute; split; reflexivity).
  exists payload. split; [exact Hrank |].
  exact (proj1 (track_payload_ranks_are_bounded Demo.world 0 "t3" [] log' payload Hrun)).
Defined.

(** ** The answers of [POST] *)

Lemma artistBranch_Ok w artistId log log' response :
  artistBranch w artistId log = (log', Ok response) ->
  exists artist topTracks log1,
    artists_endpoint w artistId = Success artist
    /\ getArtistTopTracks w artistId log1 = (log', Ok topTracks)
    /\ response = jsonResponse (ArtistResult artist topTracks).
Proof.
  unfold artistBranch. intros H.
  apply bind_Ok in H. destruct H as ([artist topTracks] & log2 & Hall & H).
  apply ret_Ok in H. destruct H as [-> ->].
  apply promiseAll2_Ok in Hall. destruct Hall as (log1 & Hartist & Htop).
  unfold getArtistDetails in Hartist. apply axios_Ok in Hartist.
  destruct Hartist as [_ Hartist].
  exists artist, topTracks, log1. repeat split; assumption.
Qed.

Lemma albumBranch_Ok w fuel albumId log log' response :
  albumBranch w fuel albumId log = (log', Ok response) ->
  exists album albumTracks,
    albums_endpoint w albumId = Success album
    /\ getAlbumTracks w fuel albumId (log ++ [GetAlbum albumId]) = (log', Ok albumTracks)
    /\ response = jsonResponse (AlbumResult album albumTracks).
Proof.
  unfold albumBranch. intros H.
  apply bind_Ok in H. destruct H as (album & log1 & Halbum & H).
  apply axios_Ok in Halbum. destruct Halbum as [-> Halbum].
  apply bind_Ok in H. destruct H as (albumTracks & log2 & Htracks & H).
  apply ret_Ok in H. destruct H as [-> ->].
  exists album, albumTracks. split; [exact Halbum |]. split; [exact Htracks |].
  destruct album. reflexivity.
Qed.

(** How a run of [POST] ends in a response: the [try] block returned it, or
    the [try] block threw and the [catch] clause built it, with a status that
    the response constructor accepts. *)
Lemma POST_Ok w fuel url log log' response :
  POST w fuel url log = (log', Ok response) ->
  tryPOST w fuel url log = (log', Ok response)
  \/ exists e,
       tryPOST w fuel url log = (log', Throw e)
       /\ response = caught e
       /\ validStatus (Response.status response) = true.
Proof.
  unfold POST. destruct (tryPOST w fuel url log) as [log1 [r | e | ]]; intros H.
  - left. exact H.
  - right. injection H as <- H. apply nextResponseJson_Ok in H. destruct H as [-> H].
    exists e. repeat split. exact H.
  - discriminate H.
Qed.

Lemma caught_is_an_error (e : Exn) :
  exists status message,
    caught e = errorResponse status message /\ status <> 0 /\ message <> ""%string.
Proof.
  unfold caught.
  destruct e as [[[status message] |] | message]; cbn.
  - eexists. eexists. split; [reflexivity |]. split.
    + destruct (status =? 0) eqn:E; [discriminate | apply Z.eqb_neq, E].
    + destruct message as [m |]; cbn; [| discriminate].
      destruct (m =? "")%string eqn:E; cbn; [discriminate | apply String.eqb_neq, E].
  - eexists. eexists. split; [reflexivity |]. split; discriminate.
  - eexists. eexists. split; [reflexivity |]. split; discriminate.
Qed.

(** X6. Every response of [POST] has a status that the response constructor
    accepts, and is of one of two kinds: an error body with a non-empty
    message and a non-zero status, or status 200 with the result of the
    branch that the classification of the URL selects: the artist with the
    artist's top tracks, the album with its tracks, or a track payload. The
    artist and the album of a result are the provider's, unchanged, and every
    track list of a result (top tracks, album tracks, and the artist top
    tracks attached to a track payload) is in descending order of
    popularity. *)
Theorem post_response_follows_the_classification :
  forall (w : World) (fuel : nat) (url : option string) (log log' : list Request)
         (response : Response.t),
    POST w fuel url log = (log', Ok response) ->
    validStatus (Response.status response) = true
    /\ match Response.body response with
       | ErrorBody message =>
           message <> ""%string /\ Response.status response <> 0
       | ArtistResult artist topTracks =>
           Response.status response = 200
           /\ exists u artistId,
                url = Some u /\ classify u = IsArtist artistId
                /\ artists_endpoint w artistId = Success artist
                /\ Descending topTracks
       | AlbumResult album albumTracks =>
           Response.status response = 200
           /\ exists u albumId,
                url = Some u /\ classify u = IsAlbum albumId
                /\ albums_endpoint w albumId = Success album
                /\ Descending albumTracks
       | TrackResult payload =>
           Response.status response = 200
           /\ exists u trackId,
                url = Some u /\ classify u = IsTrack trackId
                /\ DetailsAvailable w trackId
                /\ Descending (TrackPayload.albumTracks payload)
                /\ forall artistTopTracks,
                     TrackPayload.artistTopTracks payload = Some artistTopTracks ->
                     Descending artistTopTracks
       end.
Proof.
  intros w fuel url log log' response H. apply POST_Ok in H.
  destruct H as [H | (e & _ & -> & Hvalid)].
  2: { split; [exact Hvalid |].
       destruct (caught_is_an_error e) as (status & message & -> & Hs & Hm).
       cbn. split; assumption. }
  unfold tryPOST in H. destruct (negb (truthy url)) eqn:Eurl.
  { apply ret_Ok in H. destruct H as [_ ->]. cbn.
    split; [reflexivity |]. split; discriminate. }
  destruct url as [u |]; [| discriminate Eurl].
  apply bind_Ok in H. destruct H as (accessToken & log1 & _ & H).
  destruct (classify u) as [artistId | albumId | trackId |] eqn:Eclass.
  - apply artistBranch_Ok in H. destruct H as (artist & topTracks & log2 & Ha & Ht & ->).
    cbn. split; [reflexivity |]. split; [reflexivity |]. exists u, artistId.
    split; [reflexivity |]. split; [exact Eclass |]. split; [exact Ha |].
    eapply getArtistTopTracks_Descending; exact Ht.
  - apply albumBranch_Ok in H. destruct H as (album & albumTracks & Ha & Ht & ->).
    cbn. split; [reflexivity |]. split; [reflexivity |]. exists u, albumId.
    split; [reflexivity |]. split; [exact Eclass |]. split; [exact Ha |].
    eapply getAlbumTracks_Descending; exact Ht.
  - apply trackBranch_Ok in H. destruct H as (track & log2 & Htrack & [H | H]).
    { destruct H as (_ & _ & ->). cbn. split; [reflexivity |]. split; discriminate. }
    destruct H as (album & artist & _ & _ & [H | H]).
    { destruct H as (_ & _ & ->). cbn. split; [reflexivity |]. split; discriminate. }
    destruct H as (_ & albumTracks & artistTopTracks & log3 & Ha & Htop & ->).
    cbn. split; [reflexivity |]. split; [reflexivity |]. exists u, trackId.
    split; [reflexivity |]. split; [exact Eclass |]. split.
    + eapply getTrackDetails_available; exact Htrack.
    + split; [eapply getAlbumTracks_Descending; exact Ha |].
      intros tops Htops.
      destruct (ProcessedAlbum.total_tracks album =? 1); [| discriminate Htops].
      injection Htops as <-. eapply getArtistTopTracks_Descending; exact Htop.
  - apply ret_Ok in H. destruct H as [_ ->]. cbn.
    split; [reflexivity |]. split; discriminate.
Qed.

(** An album lookup, and the lookup of the single, whose payload carries the
    artist's top tracks. *)
Lemma post_response_follows_the_classification_witness :
  (exists (album : SpotifyAlbumDetails.t) (albumTracks : list ProcessedTrack.t),
      albums_endpoint Demo.world "A3" = Success album /\ Descending albumTracks)
  /\ exists artistTopTracks : list ProcessedTrack.t,
       map ProcessedTrack.id artistTopTracks = ["t2"; "s1"; "t3"]
       /\ Descending artistTopTracks.
Proof.
  split.
  - assert (exists log' album albumTracks,
               POST Demo.world 0 (Some "https://open.spotify.com/album/A3") []
               = (log', Ok (jsonResponse (AlbumResult album albumTracks))))
      as (log' & album & albumTracks & Hrun)
      by (eexists; eexists; eexists; vm_compute; reflexivity).
    pose proof (post_response_follows_the_classification
                  Demo.world 0 _ [] log' _ Hrun) as [_ H].
    cbn in H. destruct H as (_ & u & albumId & Hu & Hclass & Halbum & Hsorted).
    injection Hu as <-. vm_compute in Hclass. injection Hclass as <-.
    exists album, albumTracks. split; assumption.
  - assert (exists log' payload tops,
               POST Demo.world 0 (Some "https://open.spotify.com/track/s1") []
               = (log', Ok (jsonResponse (TrackResult payload)))
               /\ TrackPayload.artistTopTracks payload = Some tops
               /\ map ProcessedTrack.id tops = ["t2"; "s1"; "t3"])
      as (log' & payload & tops & Hrun & Htops & Hids)
      by (eexists; eexists; eexists; vm_compute; repeat split; reflexivity).
    pose proof (post_response_follows_the_classification
                  Demo.world 0 _ [] log' _ Hrun) as [_ H].
    cbn in H. destruct H as (_ & u & trackId & _ & _ & _ & _ & Hsorted).
    exists tops. split; [exact Hids | exact (Hsorted tops Htops)].
Defined.

(** ** Failures *)

(** X7. Without a client id or a client secret, every request with a
    non-empty URL is answered with status 500, "Failed to fetch data", and
    nothing is sent to the provider. *)
Theorem missing_credentials_answer_500_without_requests :
  forall (w : World) (fuel : nat) (url : string) (log : list Request),
    url <> ""%string ->
    truthy (SPOTIFY_CLIENT_ID w) = false \/ truthy (SPOTIFY_CLIENT_SECRET w) = false ->
    POST w fuel (Some url) log = (log, Ok (errorResponse 500 "Failed to fetch data")).
Proof.
  intros w fuel url log Hurl Hmissing. unfold POST, tryPOST.
  assert (truthy (Some url) = true) as ->
    by (cbn; apply negb_true_iff, String.eqb_neq, Hurl).
  cbn [negb]. unfold bind, getAccessToken.
  assert (negb (truthy (SPOTIFY_CLIENT_ID w))
          || negb (truthy (SPOTIFY_CLIENT_SECRET w)) = true) as ->.
  { destruct Hmissing as [-> | ->]; [reflexivity | apply orb_true_r]. }
  reflexivity.
Qed.

Lemma missing_credentials_answer_500_without_requests_witness :
  POST unconfigured 0 (Some "https://open.spotify.com/track/t3") []
  = ([], Ok (errorResponse 500 "Failed to fetch data")).
Proof.
  apply missing_credentials_answer_500_without_requests.
  - discriminate.
  - left. reflexivity.
Defined.

(** X8. When the provider rejects the album request of an album URL, the
    handler asks for nothing more (no track listing, no track details). The
    [catch] clause takes the provider's status when that is not 0 and its
    message when that is not empty, status 500 and "Failed to fetch data"
    taking the place of what is missing; the handler answers with them when
    the status is one that a response may carry (200..599 other than 204, 205
    and 304), and otherwise the response constructor throws and the handler
    gives no answer. *)
Theorem album_failure_is_mirrored_without_further_requests :
  forall (w : World) (fuel : nat) (url albumId accessToken : string)
         (log log1 : list Request) (failure : option ErrorResponse.t),
    url <> ""%string ->
    classify url = IsAlbum albumId ->
    getAccessToken w log = (log1, Ok accessToken) ->
    albums_endpoint w albumId = Failure failure ->
    fst (POST w fuel (Some url) log) = log1 ++ [GetAlbum albumId]
    /\ (validStatus (Response.status (mirrored failure)) = true ->
        POST w fuel (Some url) log = (log1 ++ [GetAlbum albumId], Ok (mirrored failure)))
    /\ (validStatus (Response.status (mirrored failure)) = false ->
        exists e, snd (POST w fuel (Some url) log) = Throw e)
    /\ (forall r, failure = Some r -> ErrorResponse.status r <> 0 ->
                  Response.status (mirrored failure) = ErrorResponse.status r)
    /\ (forall r m, failure = Some r -> ErrorResponse.message r = Some m ->
                    m <> ""%string ->
                    Response.body (mirrored failure) = ErrorBody m)
    /\ (failure = None ->
        mirrored failure = errorResponse 500 "Failed to fetch data").
Proof.
  intros w fuel url albumId accessToken log log1 failure Hurl Hclass Htoken Halbum.
  assert (POST w fuel (Some url) log
          = (log1 ++ [GetAlbum albumId], nextResponseJson (mirrored failure))) as Hrun.
  { unfold POST, tryPOST.
    assert (truthy (Some url) = true) as ->
      by (cbn; apply negb_true_iff, String.eqb_neq, Hurl).
    cbn [negb]. unfold bind at 1. rewrite Htoken, Hclass.
    unfold albumBranch, bind, axios. rewrite Halbum. reflexivity. }
  rewrite Hrun. cbn [fst snd].
  split; [reflexivity |]. split; [| split; [| split; [| split]]].
  - intros Hvalid. rewrite (nextResponseJson_valid _ Hvalid). reflexivity.
  - intros Hinvalid. exact (nextResponseJson_invalid _ Hinvalid).
  - intros r -> Hstatus. cbn. apply Z.eqb_neq in Hstatus. rewrite Hstatus. reflexivity.
  - intros r m -> Hm Hne. cbn. rewrite Hm. cbn.
    apply String.eqb_neq in Hne. rewrite Hne. reflexivity.
  - intros ->. reflexivity.
Qed.

(** An unknown album is answered 404, with the provider's message; a
    rejection with status 999 is not answered. *)
Lemma album_failure_is_mirrored_without_further_requests_witness :
  POST Demo.world 0 (Some "https://open.spotify.com/album/unknown") []
  = ([PostToken; GetAlbum "unknown"], Ok (errorResponse 404 "Non existing id"))
  /\ exists e, snd (POST outOfRange 0 (Some "https://open.spotify.com/album/unknown") [])
               = Throw e.
Proof.
  split.
  - refine (proj1 (proj2 (album_failure_is_mirrored_without_further_requests
                            Demo.world 0 "https://open.spotify.com/album/unknown" "unknown"
                            "token" [] [PostToken]
                            (Some (ErrorResponse.mk 404 (Some "Non existing id"%string)))
                            _ _ _ _)) _).
    + discriminate.
    + vm_compute. reflexivity.
    + reflexivity.
    + reflexivity.
    + reflexivity.
  - refine (proj1 (proj2 (proj2 (album_failure_is_mirrored_without_further_requests
                                   outOfRange 0 "https://open.spotify.com/album/unknown"
                                   "unknown" "token" [] [PostToken]
                                   (Some (ErrorResponse.mk 999 (Some "Unknown"%string)))
                                   _ _ _ _))) _).
    + discriminate.
    + vm_compute. reflexivity.
    + reflexivity.
    + reflexivity.
    + reflexivity.
Defined.

(** ** When the handler answers *)

(** Where a cut-off run was cut off. *)
Lemma bind_Diverge {A B} (m : M A) (k : A -> M B) log :
  snd (bind m k log) = Diverge ->
  snd (m log) = Diverge
  \/ exists a log1, m log = (log1, Ok a) /\ snd (k a log1) = Diverge.
Proof.
  unfold bind. destruct (m log) as [log1 [a | e | ]]; cbn; intros H.
  - right. exists a, log1. split; [reflexivity | exact H].
  - discriminate H.
  - left. reflexivity.
Qed.

Lemma axios_Diverge {A} (r : Request) (reply : Reply A) log :
  snd (axios r reply log) <> Diverge.
Proof. unfold axios. cbn. destruct reply; discriminate. Qed.

Lemma promiseAll2_Diverge {A B} (ma : M A) (mb : M B) log :
  snd (promiseAll2 ma mb log) = Diverge ->
  snd (ma log) = Diverge \/ exists log1, snd (mb log1) = Diverge.
Proof.
  unfold promiseAll2. destruct (ma log) as [log1 a]. 
  destruct (mb log1) as [log2 b] eqn:Eb. cbn.
  destruct a, b; cbn; intros H; try discriminate H.
  - right. exists log1. rewrite Eb. reflexivity.
  - left. reflexivity.
  - left. reflexivity.
Qed.

Lemma promiseAll_Diverge {A} (ms : list (M A)) :
  forall log,
    snd (promiseAll ms log) = Diverge ->
    exists m log1, In m ms /\ snd (m log1) = Diverge.
Proof.
  induction ms as [| m rest IH]; intros log H; cbn [promiseAll] in H.
  - discriminate H.
  - destruct (promiseAll2 m (promiseAll rest) log) as [log2 r] eqn:E.
    assert (snd (promiseAll2 m (promiseAll rest) log) = Diverge) as Hd.
    { rewrite E. cbn in *. destruct r as [[x xs] | e | ]; [discriminate H .. | reflexivity]. }
    apply promiseAll2_Diverge in Hd. destruct Hd as [Hd | [log1 Hd]].
    + exists m, log. split; [left; reflexivity | exact Hd].
    + destruct (IH log1 Hd) as (m' & log3 & Hin & Hm').
      exists m', log3. split; [right; exact Hin | exact Hm'].
Qed.

Lemma getTrackDetails_ends w trackId log :
  snd (getTrackDetails w trackId log) <> Diverge.
Proof.
  unfold getTrackDetails. intros H.
  apply bind_Diverge in H. destruct H as [H | (response & log1 & _ & H)].
  { exact (axios_Diverge _ _ _ H). }
  apply bind_Diverge in H. destruct H as [H | (albumResponse & log2 & _ & H)].
  - destruct (SpotifyTrack.album response); [| discriminate H].
    apply bind_Diverge in H. destruct H as [H | (d & log3 & _ & H)].
    + exact (axios_Diverge _ _ _ H).
    + discriminate H.
  - discriminate H.
Qed.

Lemma fetchMorePages_Diverge w fuel albumId response :
  forall allTracks offset log,
    snd (fetchMorePages w fuel albumId response allTracks offset log) = Diverge ->
    truthy (SpotifyAlbumResponse.next response) = true.
Proof.
  induction fuel as [| fuel IH]; intros allTracks offset log; cbn [fetchMorePages];
    destruct (truthy (SpotifyAlbumResponse.next response)); intros H;
    try reflexivity; discriminate H.
Qed.

(** [getAlbumTracks] is cut off only inside its page loop. *)
Lemma getAlbumTracks_Diverge w fuel albumId log :
  snd (getAlbumTracks w fuel albumId log) = Diverge ->
  exists page,
    album_tracks_endpoint w albumId None = Success page
    /\ truthy (SpotifyAlbumResponse.next page) = true.
Proof.
  unfold getAlbumTracks. intros H.
  apply bind_Diverge in H. destruct H as [H | (album & log1 & _ & H)].
  { exfalso. exact (axios_Diverge _ _ _ H). }
  apply bind_Diverge in H. destruct H as [H | (page & log2 & Hpage & H)].
  { exfalso. exact (axios_Diverge _ _ _ H). }
  apply axios_Ok in Hpage. destruct Hpage as [_ Hpage].
  apply bind_Diverge in H. destruct H as [H | (allTracks & log3 & _ & H)].
  { exists page. split; [exact Hpage |]. eapply fetchMorePages_Diverge; exact H. }
  exfalso. apply bind_Diverge in H. destruct H as [H | (tracks & log4 & _ & H)].
  - apply promiseAll_Diverge in H. destruct H as (m & log5 & Hin & Hm).
    apply in_map_iff in Hin. destruct Hin as (item & <- & _).
    unfold withAlbumImages in Hm. apply bind_Diverge in Hm.
    destruct Hm as [Hm | (d & log6 & _ & Hm)].
    + exact (getTrackDetails_ends _ _ _ Hm).
    + discriminate Hm.
  - discriminate H.
Qed.

(** Where an exception of the [try] block comes from. *)
Lemma Throws_ret w {A} (a : A) : Throws w (ret a).
Proof. intros log e H. discriminate H. Qed.

Lemma Throws_diverge w {A} : Throws w (@diverge A).
Proof. intros log e H. discriminate H. Qed.

Lemma Throws_axios w {A} (r : Request) (reply : Reply A) :
  (forall response, reply = Failure response -> Rejects w response) ->
  Throws w (axios r reply).
Proof.
  intros Hreply log e H. unfold axios in H. cbn in H.
  destruct reply as [data | response]; [discriminate H |].
  injection H as <-. right. right. exists response. split; [reflexivity |].
  apply Hreply. reflexivity.
Qed.

Lemma Throws_bind w {A B} (m : M A) (k : A -> M B) :
  Throws w m -> (forall a, Throws w (k a)) -> Throws w (bind m k).
Proof.
  intros Hm Hk log e H. unfold bind in H.
  destruct (m log) as [log1 [a | e' | ]] eqn:E.
  - exact (Hk a log1 e H).
  - cbn in H. injection H as <-. apply (Hm log). rewrite E. reflexivity.
  - discriminate H.
Qed.

Lemma Throws_promiseAll2 w {A B} (ma : M A) (mb : M B) :
  Throws w ma -> Throws w mb -> Throws w (promiseAll2 ma mb).
Proof.
  intros Ha Hb log e H. unfold promiseAll2 in H.
  destruct (ma log) as [log1 a] eqn:Ea. destruct (mb log1) as [log2 b] eqn:Eb.
  cbn in H.
  destruct a as [x | ea | ]; destruct b as [y | eb | ]; cbn in H;
    try discriminate H; injection H as <-;
    first [ apply (Ha log); rewrite Ea; reflexivity
          | apply (Hb log1); rewrite Eb; reflexivity ].
Qed.

Lemma Throws_promiseAll w {A} (ms : list (M A)) :
  (forall m, In m ms -> Throws w m) -> Throws w (promiseAll ms).
Proof.
  induction ms as [| m rest IH]; intros Hall; [apply Throws_ret |].
  intros log e H. cbn [promiseAll] in H.
  pose proof (Throws_promiseAll2 w m (promiseAll rest)
                (Hall m (or_introl eq_refl))
                (IH (fun m' Hm' => Hall m' (or_intror Hm'))) log) as Hboth.
  destruct (promiseAll2 m (promiseAll rest) log) as [log' [[x xs] | e' | ]];
    cbn in *; try discriminate H.
  injection H as <-. apply Hboth. reflexivity.
Qed.

Lemma Throws_getTrackDetails w trackId : Throws w (getTrackDetails w trackId).
Proof.
  unfold getTrackDetails. apply Throws_bind.
  - apply Throws_axios. intros response H. right. left. exists trackId. exact H.
  - intros response. apply Throws_bind; [| intros; apply Throws_ret].
    destruct (SpotifyTrack.album response) as [album |]; [| apply Throws_ret].
    apply Throws_bind; [| intros; apply Throws_ret].
    apply Throws_axios. intros r H. right. right. left. eexists. exact H.
Qed.

Lemma Throws_fetchMorePages w fuel albumId response :
  forall allTracks offset,
    Throws w (fetchMorePages w fuel albumId response allTracks offset).
Proof.
  induction fuel as [| fuel IH]; intros allTracks offset; cbn [fetchMorePages];
    destruct (truthy (SpotifyAlbumResponse.next response));
    try apply Throws_ret; try apply Throws_diverge.
  apply Throws_bind; [| intros; apply IH].
  apply Throws_axios. intros r H. right. right. right. left. eexists. eexists. exact H.
Qed.

Lemma Throws_getAlbumTracks w fuel albumId : Throws w (getAlbumTracks w fuel albumId).
Proof.
  unfold getAlbumTracks. apply Throws_bind.
  { apply Throws_axios. intros r H. right. right. left. eexists. exact H. }
  intros albumResponse. apply Throws_bind.
  { apply Throws_axios. intros r H. right. right. right. left. eexists. eexists. exact H. }
  intros response. apply Throws_bind; [apply Throws_fetchMorePages |].
  intros allTracks. apply Throws_bind; [| intros; apply Throws_ret].
  apply Throws_promiseAll. intros m Hm. apply in_map_iff in Hm.
  destruct Hm as (item & <- & _). unfold withAlbumImages.
  apply Throws_bind; [apply Throws_getTrackDetails | intros; apply Throws_ret].
Qed.

Lemma Throws_filterPrimary w artistId tracks : Throws w (lift (filterPrimary artistId tracks)).
Proof.
  intros log e H. unfold lift in H. cbn in H.
  destruct (filterPrimary_cases artistId tracks) as [[kept Hk] | Ht]; rewrite H in *.
  - discriminate Hk.
  - injection Ht as ->. right. left. reflexivity.
Qed.

Lemma Throws_searchPages w fuel artistId artistName :
  forall acc offset, Throws w (searchPages w fuel artistId artistName acc offset).
Proof.
  induction fuel as [| fuel IH]; intros acc offset; cbn [searchPages];
    destruct ((Z.of_nat (List.length acc) <? 100) && (offset <? 200));
    try apply Throws_ret; try apply Throws_diverge.
  apply Throws_bind.
  { apply Throws_axios. intros r H. do 5 right. eexists. eexists. exact H. }
  intros searchResponse. cbv zeta.
  destruct (Z.of_nat (List.length (SpotifySearchResponse.items searchResponse)) =? 0);
    [apply Throws_ret |].
  apply Throws_bind; [apply Throws_filterPrimary | intros; apply IH].
Qed.

Lemma Throws_getArtistTopTracks w artistId : Throws w (getArtistTopTracks w artistId).
Proof.
  unfold getArtistTopTracks. apply Throws_bind.
  { apply Throws_axios. intros r H. do 4 right. left. eexists. exact H. }
  intros artistResponse.
  apply Throws_bind; [apply Throws_searchPages | intros; apply Throws_ret].
Qed.

Lemma Throws_tryPOST w fuel url : Throws w (tryPOST w fuel url).
Proof.
  unfold tryPOST. destruct (negb (truthy url)); [apply Throws_ret |].
  apply Throws_bind.
  { unfold getAccessToken.
    destruct (negb (truthy (SPOTIFY_CLIENT_ID w)) || negb (truthy (SPOTIFY_CLIENT_SECRET w))).
    - intros log e H. injection H as <-. left. reflexivity.
    - apply Throws_axios. intros r H. left. exact H. }
  intros accessToken.
  destruct (classify (match url with Some u => u | None => ""%string end)).
  - unfold artistBranch. apply Throws_bind.
    + apply Throws_promiseAll2; [| apply Throws_getArtistTopTracks].
      unfold getArtistDetails. apply Throws_axios.
      intros r H. do 4 right. left. eexists. exact H.
    + intros [artist topTracks]. apply Throws_ret.
  - unfold albumBranch. apply Throws_bind.
    { apply Throws_axios. intros r H. right. right. left. eexists. exact H. }
    intros albumResponse.
    apply Throws_bind; [apply Throws_getAlbumTracks | intros; apply Throws_ret].
  - unfold trackBranch. apply Throws_bind; [apply Throws_getTrackDetails |].
    intros track. destruct (ProcessedTrack.album track) as [album |]; [| apply Throws_ret].
    apply Throws_bind.
    { intros log e H. unfold lift in H. cbn in H.
      destruct (ProcessedTrack.artists track); [| discriminate H].
      injection H as <-. right. left. reflexivity. }
    intros artistId. destruct (negb (truthy (Some artistId))); [apply Throws_ret |].
    apply Throws_bind.
    + apply Throws_promiseAll2; [apply Throws_getAlbumTracks | apply Throws_getArtistTopTracks].
    + intros [albumTracks artistTopTracks]. apply Throws_ret.
  - apply Throws_ret.
Qed.

(** X9. [POST] answers every request, with two exceptions. An exception
    leaves [POST] only from the response constructor of the [catch] clause,
    when the provider has rejected a request with a status that a response
    cannot carry (not 0, and not in 200..599 or one of 204, 205, 304). And a
    run is caught in the page loop of an album's track listing only on an
    album or track URL, when an album's first page carries a cursor. Artist
    URLs, unmatched input and a missing URL never meet the loop. *)
Theorem post_always_answers_outside_the_page_loop :
  forall (w : World) (fuel : nat) (url : option string) (log : list Request),
    (forall e,
        snd (POST w fuel url log) = Throw e ->
        exists r,
          Rejects w (Some r)
          /\ snd (tryPOST w fuel url log) = Throw (AxiosError (Some r))
          /\ ErrorResponse.status r <> 0
          /\ validStatus (ErrorResponse.status r) = false)
    /\ (snd (POST w fuel url log) = Diverge ->
        exists u id albumId page,
          url = Some u
          /\ (classify u = IsAlbum id \/ classify u = IsTrack id)
          /\ album_tracks_endpoint w albumId None = Success page
          /\ truthy (SpotifyAlbumResponse.next page) = true).
Proof.
  intros w fuel url log. split.
  - intros e H. pose proof (Throws_tryPOST w fuel url log) as Hthrown.
    unfold POST in H.
    destruct (tryPOST w fuel url log) as [log1 [r | e0 | ]]; cbn in H;
      [discriminate H | | discriminate H].
    specialize (Hthrown e0 eq_refl).
    assert (validStatus (Response.status (caught e0)) = false) as Hinvalid.
    { destruct (validStatus (Response.status (caught e0))) eqn:E; [| reflexivity].
      rewrite (nextResponseJson_valid _ E) in H. discriminate H. }
    destruct Hthrown as [-> | [-> | (response & -> & Hrejects)]];
      [discriminate Hinvalid | discriminate Hinvalid |].
    destruct response as [r |]; [| discriminate Hinvalid].
    exists r. split; [exact Hrejects |]. split; [reflexivity |].
    cbn in Hinvalid. destruct (ErrorResponse.status r =? 0) eqn:E.
    + discriminate Hinvalid.
    + split; [apply Z.eqb_neq, E | exact Hinvalid].
  - intros H.
    assert (snd (tryPOST w fuel url log) = Diverge) as Htry.
    { unfold POST in H.
      destruct (tryPOST w fuel url log) as [log1 [r | e' | ]]; cbn in *;
        [discriminate H | | reflexivity].
      unfold nextResponseJson in H.
      destruct ((Response.status (caught e') <? 200) || (599 <? Response.status (caught e')));
        [discriminate H |].
      destruct (nullBodyStatus (Response.status (caught e'))); discriminate H. }
    clear H. unfold tryPOST in Htry.
    destruct (negb (truthy url)); [discriminate Htry |].
    destruct url as [u |].
    2: { exfalso. apply bind_Diverge in Htry.
         destruct Htry as [H | (t & log1 & _ & H)]; [| discriminate H].
         unfold getAccessToken in H.
         destruct (negb (truthy (SPOTIFY_CLIENT_ID w))
                   || negb (truthy (SPOTIFY_CLIENT_SECRET w)));
           [discriminate H | exact (axios_Diverge _ _ _ H)]. }
    apply bind_Diverge in Htry. destruct Htry as [H | (t & log1 & _ & H)].
    { exfalso. unfold getAccessToken in H.
      destruct (negb (truthy (SPOTIFY_CLIENT_ID w))
                || negb (truthy (SPOTIFY_CLIENT_SECRET w)));
        [discriminate H | exact (axios_Diverge _ _ _ H)]. }
    destruct (classify u) as [artistId | albumId | trackId |] eqn:Eclass.
    + exfalso. unfold artistBranch in H. apply bind_Diverge in H.
      destruct H as [H | ([artist topTracks] & log2 & _ & H)]; [| discriminate H].
      apply promiseAll2_Diverge in H. destruct H as [H | [log2 H]].
      * exact (axios_Diverge _ _ _ H).
      * exact (getArtistTopTracks_terminates _ _ _ H).
    + unfold albumBranch in H. apply bind_Diverge in H.
      destruct H as [H | (album & log2 & _ & H)].
      { exfalso. exact (axios_Diverge _ _ _ H). }
      apply bind_Diverge in H. destruct H as [H | (tracks & log3 & _ & H)];
        [| discriminate H].
      apply getAlbumTracks_Diverge in H. destruct H as (page & Hpage & Hnext).
      exists u, albumId, albumId, page.
      split; [reflexivity |]. split; [left; exact Eclass |]. split; assumption.
    + unfold trackBranch in H. apply bind_Diverge in H.
      destruct H as [H | (track & log2 & _ & H)].
      { exfalso. exact (getTrackDetails_ends _ _ _ H). }
      destruct (ProcessedTrack.album track) as [album |]; [| discriminate H].
      apply bind_Diverge in H. destruct H as [H | (artistId & log3 & _ & H)].
      { exfalso. unfold lift in H. cbn in H.
        destruct (ProcessedTrack.artists track); discriminate H. }
      destruct (negb (truthy (Some artistId))); [discriminate H |].
      apply bind_Diverge in H.
      destruct H as [H | ([albumTracks artistTopTracks] & log4 & _ & H)];
        [| discriminate H].
      apply promiseAll2_Diverge in H. destruct H as [H | [log4 H]].
      * apply getAlbumTracks_Diverge in H. destruct H as (page & Hpage & Hnext).
        exists u, trackId, (ProcessedAlbum.id album), page.
        split; [reflexivity |]. split; [right; exact Eclass |]. split; assumption.
      * exfalso. exact (getArtistTopTracks_terminates _ _ _ H).
    + discriminate H.
Qed.

(** The album of 51 tracks: the run is cut off, and the album's first page
    carries a cursor. An album request rejected with status 999: the handler
    throws, and the status is the provider's. *)
Lemma post_always_answers_outside_the_page_loop_witness :
  (snd (POST Demo.world 3 (Some "https://open.spotify.com/album/L51") []) = Diverge
   /\ exists u id albumId page,
        Some "https://open.spotify.com/album/L51"%string = Some u
        /\ (classify u = IsAlbum id \/ classify u = IsTrack id)
        /\ album_tracks_endpoint Demo.world albumId None = Success page
        /\ truthy (SpotifyAlbumResponse.next page) = true)
  /\ snd (POST outOfRange 0 (Some "https://open.spotify.com/album/unknown") [])
     = Throw RangeError
  /\ exists r,
       Rejects outOfRange (Some r)
       /\ snd (tryPOST outOfRange 0 (Some "https://open.spotify.com/album/unknown"%string) [])
          = Throw (AxiosError (Some r))
       /\ ErrorResponse.status r <> 0
       /\ validStatus (ErrorResponse.status r) = false.
Proof.
  split.
  - assert (snd (POST Demo.world 3 (Some "https://open.spotify.com/album/L51") [])
            = Diverge) as H by (vm_compute; reflexivity).
    split; [exact H |].
    exact (proj2 (post_always_answers_outside_the_page_loop
                    Demo.world 3 (Some "https://open.spotify.com/album/L51"%string) [])
                 H).
  - assert (snd (POST outOfRange 0 (Some "https://open.spotify.com/album/unknown") [])
            = Throw RangeError) as H by (vm_compute; reflexivity).
    split; [exact H |].
    exact (proj1 (post_always_answers_outside_the_page_loop
                    outOfRange 0 (Some "https://open.spotify.com/album/unknown"%string) [])
                 RangeError H).
Defined.

(** ** The URL of a chosen search result *)

Lemma append_empty_r (s : string) : (s ++ "")%string = s.
Proof. induction s as [| c s IH]; cbn; [reflexivity | rewrite IH; reflexivity]. Qed.

Lemma afterPrefix_Some literal s rest :
  afterPrefix literal s = Some rest -> s = (literal ++ rest)%string.
Proof.
  revert s. induction literal as [| a literal IH]; intros s H; cbn in H.
  - destruct s; injection H as <-; reflexivity.
  - destruct s as [| b s]; [discriminate H |].
    destruct (Ascii.eqb a b) eqn:E; [| discriminate H].
    apply Ascii.eqb_eq in E. subst b. cbn. rewrite (IH s H). reflexivity.
Qed.

Lemma allIdChars_app (a b : string) :
  allIdChars (a ++ b)%string = allIdChars a && allIdChars b.
Proof.
  induction a as [| c a IH]; cbn; [reflexivity |].
  rewrite IH. apply andb_assoc.
Qed.

(** A literal with a character outside the id alphabet (the slash) matches
    nowhere in a string over the alphabet. *)
Lemma matchFirst_in_id literal s :
  allIdChars literal = false -> allIdChars s = true -> matchFirst literal s = None.
Proof.
  intros Hliteral. induction s as [| c s IH]; intros Hs; rewrite matchFirst_eq.
  - unfold matchHere. destruct (afterPrefix literal "") as [rest |] eqn:E; [| reflexivity].
    apply afterPrefix_Some in E. destruct literal; [discriminate Hliteral | discriminate E].
  - assert (matchHere literal (String c s) = None) as ->.
    { unfold matchHere.
      destruct (afterPrefix literal (String c s)) as [rest |] eqn:E; [| reflexivity].
      apply afterPrefix_Some in E. rewrite E, allIdChars_app, Hliteral in Hs.
      discriminate Hs. }
    apply IH. cbn in Hs. apply andb_true_iff in Hs. apply Hs.
Qed.

Lemma matchFirst_segment_at_end literal prefix id :
  isIdString id = true ->
  (forall k, (k < String.length prefix)%nat ->
             matchHere literal (dropStr k (prefix ++ literal ++ id)%string) = None) ->
  matchFirst literal (prefix ++ literal ++ id)%string = Some id.
Proof.
  intros Hid Hbefore. rewrite (matchFirst_skip literal prefix _ Hbefore), matchFirst_eq.
  rewrite <- (append_empty_r id) at 1.
  rewrite (matchHere_segment literal id "" Hid eq_refl). reflexivity.
Qed.

Lemma matchFirst_nowhere literal prefix id :
  allIdChars literal = false ->
  isIdString id = true ->
  (forall k, (k < String.length prefix)%nat ->
             matchHere literal (dropStr k (prefix ++ id)%string) = None) ->
  matchFirst literal (prefix ++ id)%string = None.
Proof.
  intros Hliteral Hid Hbefore. rewrite (matchFirst_skip literal prefix _ Hbefore).
  apply matchFirst_in_id; [exact Hliteral |].
  unfold isIdString in Hid. apply andb_true_iff in Hid. apply Hid.
Qed.

(** Settles a pattern at every position of a literal prefix. *)
Tactic Notation "positions" integer(n) :=
  let k := fresh "k" in
  let Hk := fresh "Hk" in
  intros k Hk; do n (destruct k as [| k]; [reflexivity |]); cbn in Hk; lia.

(** X10. The URL that the page posts for a chosen search result,
    [https://open.spotify.com/{type}/{id}], is classified by the route as that
    type with that id, for every id over the id alphabet. *)
Theorem result_url_is_classified_as_its_type :
  forall (type : SearchType) (id : string),
    isIdString id = true ->
    classify (resultUrl type id) = classifiedAs type id.
Proof.
  intros type id Hid. unfold classify, artistMatch, albumMatch, trackMatch.
  destruct type; cbn [classifiedAs].
  - change (resultUrl TypeTrack id)
      with ("https://open.spotify.com/track/" ++ id)%string.
    rewrite (matchFirst_nowhere "artist/" "https://open.spotify.com/track/" id eq_refl Hid)
      by positions 31.
    rewrite (matchFirst_nowhere "album/" "https://open.spotify.com/track/" id eq_refl Hid)
      by positions 31.
    change ("https://open.spotify.com/track/" ++ id)%string
      with ("https://open.spotify.com/" ++ "track/" ++ id)%string.
    rewrite (matchFirst_segment_at_end "track/" "https://open.spotify.com/" id Hid)
      by positions 25.
    reflexivity.
  - change (resultUrl TypeArtist id)
      with ("https://open.spotify.com/" ++ "artist/" ++ id)%string.
    rewrite (matchFirst_segment_at_end "artist/" "https://open.spotify.com/" id Hid)
      by positions 25.
    reflexivity.
  - change (resultUrl TypeAlbum id)
      with ("https://open.spotify.com/album/" ++ id)%string.
    rewrite (matchFirst_nowhere "artist/" "https://open.spotify.com/album/" id eq_refl Hid)
      by positions 31.
    change ("https://open.spotify.com/album/" ++ id)%string
      with ("https://open.spotify.com/" ++ "album/" ++ id)%string.
    rewrite (matchFirst_segment_at_end "album/" "https://open.spotify.com/" id Hid)
      by positions 25.
    reflexivity.
Qed.

Lemma result_url_is_classified_as_its_type_witness :
  classify "https://open.spotify.com/album/4aawyAB9vmqN3uQ7FjRGTy"
  = IsAlbum "4aawyAB9vmqN3uQ7FjRGTy".
Proof.
  apply (result_url_is_classified_as_its_type TypeAlbum "4aawyAB9vmqN3uQ7FjRGTy").
  reflexivity.
Defined.

(** ** [formatDuration] *)

(** X11. For a duration of [ms] milliseconds, a whole number from 0 to
    [MAX_SAFE_INTEGER], [formatDuration] prints the whole minutes, a colon,
    and the remaining whole seconds as exactly two decimal digits: the
    seconds are below 60, and minutes and seconds account for the duration up
    to the milliseconds of the last second. *)
Theorem formatDuration_minutes_and_two_digit_seconds :
  forall ms : Z,
    0 <= ms <= MAX_SAFE_INTEGER ->
    exists (minutes seconds : Z) (tens units : nat),
      formatDuration ms
      = (toString minutes ++ ":"
         ++ String (ascii_of_nat (48 + tens)) (String (ascii_of_nat (48 + units)) ""))%string
      /\ seconds = Z.of_nat (10 * tens + units)
      /\ (tens < 6)%nat /\ (units < 10)%nat
      /\ 0 <= minutes
      /\ 60000 * minutes + 1000 * seconds <= ms < 60000 * minutes + 1000 * seconds + 1000.
Proof.
  intros ms [Hms _]. unfold formatDuration. cbv zeta.
  rewrite (Z.rem_mod_nonneg ms 60000) by lia.
  pose proof (Z.mod_pos_bound ms 60000 ltac:(lia)) as Hrem.
  pose proof (Z.div_mod ms 60000 ltac:(lia)) as Hdiv.
  pose proof (Z.div_pos ms 60000 Hms ltac:(lia)) as Hminutes.
  set (minutes := ms / 60000) in *. set (rest := ms mod 60000) in *.
  pose proof (Z.div_mod rest 1000 ltac:(lia)) as Hsec.
  pose proof (Z.mod_pos_bound rest 1000 ltac:(lia)) as Hmillis.
  assert (0 <= rest / 1000 < 60) as Hrange.
  { split; [apply Z.div_pos; lia | apply Z.div_lt_upper_bound; lia]. }
  set (seconds := rest / 1000) in *.
  exists minutes, seconds, (Z.to_nat seconds / 10)%nat, (Z.to_nat seconds mod 10)%nat.
  assert (seconds = Z.of_nat (Z.to_nat seconds)) as Hnat by lia.
  assert (Z.to_nat seconds < 60)%nat as Hbound by lia.
  revert Hnat Hbound. generalize (Z.to_nat seconds). intros n Hnat Hbound.
  split.
  - rewrite Hnat. clear - Hbound.
    do 60 (destruct n as [| n]; [reflexivity |]). lia.
  - split.
    + rewrite Hnat. f_equal. rewrite (Nat.div_mod_eq n 10) at 1. reflexivity.
    + split; [apply Nat.Div0.div_lt_upper_bound; lia |].
      split; [apply Nat.mod_upper_bound; lia |].
      split; [exact Hminutes |]. lia.
Qed.

Lemma formatDuration_minutes_and_two_digit_seconds_witness :
  formatDuration 185000 = "3:05"%string
  /\ exists (minutes seconds : Z) (tens units : nat),
       formatDuration 185000
       = (toString minutes ++ ":"
          ++ String (ascii_of_nat (48 + tens)) (String (ascii_of_nat (48 + units)) ""))%string
       /\ seconds = Z.of_nat (10 * tens + units)
       /\ (tens < 6)%nat /\ (units < 10)%nat
       /\ 0 <= minutes
       /\ 60000 * minutes + 1000 * seconds <= 185000
          < 60000 * minutes + 1000 * seconds + 1000.
Proof.
  split; [vm_compute; reflexivity |].
  apply (formatDuration_minutes_and_two_digit_seconds 185000).
  unfold MAX_SAFE_INTEGER. lia.
Defined.

(** ** The requests of a lookup *)

Lemma Sends_ret {A} P (a : A) : Sends P (ret a).
Proof. intros log. exists []. rewrite app_nil_r. split; [reflexivity | constructor]. Qed.

Lemma Sends_throw {A} P e : Sends P (@throw A e).
Proof. intros log. exists []. rewrite app_nil_r. split; [reflexivity | constructor]. Qed.

Lemma Sends_diverge {A} P : Sends P (@diverge A).
Proof. intros log. exists []. rewrite app_nil_r. split; [reflexivity | constructor]. Qed.

Lemma Sends_lift {A} P (o : Outcome A) : Sends P (lift o).
Proof. intros log. exists []. rewrite app_nil_r. split; [reflexivity | constructor]. Qed.

Lemma Sends_axios {A} (P : Request -> Prop) r (reply : Reply A) :
  P r -> Sends P (axios r reply).
Proof.
  intros Hr log. exists [r]. split; [reflexivity |]. constructor; [exact Hr | constructor].
Qed.

Lemma Sends_bind {A B} P (m : M A) (k : A -> M B) :
  Sends P m -> (forall a, Sends P (k a)) -> Sends P (bind m k).
Proof.
  intros Hm Hk log. destruct (Hm log) as (sent & Hlog & Hsent). unfold bind.
  destruct (m log) as [log1 [a | e | ]]; cbn in Hlog; subst log1.
  - destruct (Hk a (log ++ sent)) as (sent' & Hlog' & Hsent').
    exists (sent ++ sent'). rewrite Hlog', app_assoc. split; [reflexivity |].
    apply Forall_app. split; assumption.
  - exists sent. split; [reflexivity | exact Hsent].
  - exists sent. split; [reflexivity | exact Hsent].
Qed.

Lemma Sends_promiseAll2 {A B} P (ma : M A) (mb : M B) :
  Sends P ma -> Sends P mb -> Sends P (promiseAll2 ma mb).
Proof.
  intros Ha Hb log. destruct (Ha log) as (sent & Hlog & Hsent). unfold promiseAll2.
  destruct (ma log) as [log1 a]. cbn in Hlog. subst log1.
  destruct (Hb (log ++ sent)) as (sent' & Hlog' & Hsent').
  destruct (mb (log ++ sent)) as [log2 b]. cbn in Hlog'. subst log2.
  exists (sent ++ sent'). rewrite app_assoc. split; [reflexivity |].
  apply Forall_app. split; assumption.
Qed.

Lemma Sends_promiseAll {A} P (ms : list (M A)) :
  (forall m, In m ms -> Sends P m) -> Sends P (promiseAll ms).
Proof.
  induction ms as [| m rest IH]; intros Hall; [apply Sends_ret |].
  intros log.
  destruct (Sends_promiseAll2 P m (promiseAll rest)
              (Hall m (or_introl eq_refl))
              (IH (fun m' Hm' => Hall m' (or_intror Hm'))) log)
    as (sent & Hlog & Hsent).
  exists sent. cbn [promiseAll].
  destruct (promiseAll2 m (promiseAll rest) log) as [log' r]. cbn in *.
  split; assumption.
Qed.

Lemma Sends_weaken {A} (P Q : Request -> Prop) (m : M A) :
  (forall r, P r -> Q r) -> Sends P m -> Sends Q m.
Proof.
  intros HPQ Hm log. destruct (Hm log) as (sent & Hlog & Hsent).
  exists sent. split; [exact Hlog |]. eapply Forall_impl; [exact HPQ | exact Hsent].
Qed.

Lemma Sends_getTrackDetails w trackId : Sends isData (getTrackDetails w trackId).
Proof.
  unfold getTrackDetails.
  apply Sends_bind; [apply Sends_axios; discriminate |]. intros response.
  apply Sends_bind; [| intros; apply Sends_ret].
  destruct (SpotifyTrack.album response); [| apply Sends_ret].
  apply Sends_bind; [apply Sends_axios; discriminate | intros; apply Sends_ret].
Qed.

Lemma Sends_fetchMorePages w fuel albumId response :
  forall allTracks offset,
    Sends isData (fetchMorePages w fuel albumId response allTracks offset).
Proof.
  induction fuel as [| fuel IH]; intros allTracks offset; cbn [fetchMorePages];
    destruct (truthy (SpotifyAlbumResponse.next response));
    try apply Sends_ret; try apply Sends_diverge.
  apply Sends_bind; [apply Sends_axios; discriminate | intros; apply IH].
Qed.

Lemma Sends_getAlbumTracks w fuel albumId : Sends isData (getAlbumTracks w fuel albumId).
Proof.
  unfold getAlbumTracks.
  apply Sends_bind; [apply Sends_axios; discriminate |]. intros albumResponse.
  apply Sends_bind; [apply Sends_axios; discriminate |]. intros response.
  apply Sends_bind; [apply Sends_fetchMorePages |]. intros allTracks.
  apply Sends_bind; [| intros; apply Sends_ret].
  apply Sends_promiseAll. intros m Hm. apply in_map_iff in Hm.
  destruct Hm as (item & <- & _). unfold withAlbumImages.
  apply Sends_bind; [apply Sends_getTrackDetails | intros; apply Sends_ret].
Qed.

Lemma Sends_searchPages w fuel artistId artistName :
  forall acc offset,
    Sends (isArtistLookup artistId) (searchPages w fuel artistId artistName acc offset).
Proof.
  induction fuel as [| fuel IH]; intros acc offset; cbn [searchPages];
    destruct ((Z.of_nat (List.length acc) <? 100) && (offset <? 200));
    try apply Sends_ret; try apply Sends_diverge.
  apply Sends_bind.
  - apply Sends_axios. right. eexists. eexists. reflexivity.
  - intros searchResponse. cbv zeta.
    destruct (Z.of_nat (List.length (SpotifySearchResponse.items searchResponse)) =? 0);
      [apply Sends_ret |].
    apply Sends_bind; [apply Sends_lift | intros; apply IH].
Qed.

Lemma Sends_getArtistTopTracks w artistId :
  Sends (isArtistLookup artistId) (getArtistTopTracks w artistId).
Proof.
  unfold getArtistTopTracks.
  apply Sends_bind; [apply Sends_axios; left; reflexivity |]. intros artistResponse.
  apply Sends_bind; [apply Sends_searchPages | intros; apply Sends_ret].
Qed.

Lemma isArtistLookup_isData artistId r : isArtistLookup artistId r -> isData r.
Proof. intros [-> | (name & offset & ->)]; discriminate. Qed.

Lemma Sends_artistBranch w artistId :
  Sends (isArtistLookup artistId) (artistBranch w artistId).
Proof.
  unfold artistBranch. apply Sends_bind.
  - apply Sends_promiseAll2; [| apply Sends_getArtistTopTracks].
    unfold getArtistDetails. apply Sends_axios. left. reflexivity.
  - intros [artist topTracks]. apply Sends_ret.
Qed.

Lemma Sends_albumBranch w fuel albumId : Sends isData (albumBranch w fuel albumId).
Proof.
  unfold albumBranch.
  apply Sends_bind; [apply Sends_axios; discriminate |]. intros albumResponse.
  apply Sends_bind; [apply Sends_getAlbumTracks | intros; apply Sends_ret].
Qed.

Lemma Sends_trackBranch w fuel trackId : Sends isData (trackBranch w fuel trackId).
Proof.
  unfold trackBranch. apply Sends_bind; [apply Sends_getTrackDetails |]. intros track.
  destruct (ProcessedTrack.album track) as [album |]; [| apply Sends_ret].
  apply Sends_bind; [apply Sends_lift |]. intros artistId.
  destruct (negb (truthy (Some artistId))); [apply Sends_ret |].
  apply Sends_bind.
  - apply Sends_promiseAll2; [apply Sends_getAlbumTracks |].
    eapply Sends_weaken; [apply isArtistLookup_isData | apply Sends_getArtistTopTracks].
  - intros [albumTracks artistTopTracks]. apply Sends_ret.
Qed.

Lemma POST_log w fuel url log : fst (POST w fuel url log) = fst (tryPOST w fuel url log).
Proof.
  unfold POST. destruct (tryPOST w fuel url log) as [log' [r | e | ]]; reflexivity.
Qed.

(** X12. A lookup only adds requests to what was sent before. It sends
    nothing when the URL is missing or empty or a credential is missing;
    otherwise its first request is the token request, and the token is
    requested exactly once per lookup. *)
Theorem lookup_requests_the_token_first_and_once :
  forall (w : World) (fuel : nat) (url : option string) (log : list Request),
    exists sent,
      fst (POST w fuel url log) = log ++ sent
      /\ ((truthy url = false
           \/ truthy (SPOTIFY_CLIENT_ID w) = false
           \/ truthy (SPOTIFY_CLIENT_SECRET w) = false) ->
          sent = [])
      /\ (truthy url = true ->
          truthy (SPOTIFY_CLIENT_ID w) = true ->
          truthy (SPOTIFY_CLIENT_SECRET w) = true ->
          exists rest, sent = PostToken :: rest /\ ~ In PostToken rest).
Proof.
  intros w fuel url log. rewrite POST_log. unfold tryPOST.
  destruct (truthy url) eqn:Eurl; cbn [negb].
  2: { exists []. rewrite app_nil_r. split; [reflexivity |].
       split; [reflexivity | discriminate]. }
  unfold bind at 1, getAccessToken.
  destruct (truthy (SPOTIFY_CLIENT_ID w)) eqn:Eid; cbn [negb orb].
  2: { exists []. rewrite app_nil_r. split; [reflexivity |].
       split; [reflexivity | discriminate]. }
  destruct (truthy (SPOTIFY_CLIENT_SECRET w)) eqn:Esecret; cbn [negb].
  2: { exists []. rewrite app_nil_r. split; [reflexivity |].
       split; [reflexivity | discriminate]. }
  assert (forall (m : M Response.t), Sends isData m ->
            exists sent,
              fst (m (log ++ [PostToken])) = log ++ sent
              /\ exists rest, sent = PostToken :: rest /\ ~ In PostToken rest) as Hdata.
  { intros m Hm. destruct (Hm (log ++ [PostToken])) as (rest & Hlog & Hrest).
    exists (PostToken :: rest). rewrite Hlog, <- app_assoc. split; [reflexivity |].
    exists rest. split; [reflexivity |].
    intros Hin. rewrite Forall_forall in Hrest. exact (Hrest _ Hin eq_refl). }
  assert (exists sent,
             fst (match axios PostToken (token_endpoint w) log with
                  | (log', Ok accessToken) =>
                      match classify (match url with Some u => u | None => ""%string end) with
                      | IsArtist artistId => artistBranch w artistId
                      | IsAlbum albumId => albumBranch w fuel albumId
                      | IsTrack trackId => trackBranch w fuel trackId
                      | Unmatched =>
                          ret (errorResponse 400
                                 "Invalid Spotify URL. Please provide a valid artist, album, or track URL.")
                      end log'
                  | (log', Throw e) => (log', Throw e)
                  | (log', Diverge) => (log', Diverge)
                  end) = log ++ sent
             /\ exists rest, sent = PostToken :: rest /\ ~ In PostToken rest)
    as (sent & Hlog & Hrest).
  { unfold axios. destruct (token_endpoint w) as [token | failure].
    - destruct (classify _) as [artistId | albumId | trackId |]; apply Hdata.
      + eapply Sends_weaken; [apply isArtistLookup_isData | apply Sends_artistBranch].
      + apply Sends_albumBranch.
      + apply Sends_trackBranch.
      + apply Sends_ret.
    - exists [PostToken]. split; [reflexivity |]. exists []. split; [reflexivity |].
      intros []. }
  exists sent. split; [exact Hlog |]. split.
  - intros [H | [H | H]]; discriminate H.
  - intros _ _ _. exact Hrest.
Qed.

Lemma lookup_requests_the_token_first_and_once_witness :
  exists sent,
    fst (POST Demo.world 0 (Some "https://open.spotify.com/track/t3") []) = [] ++ sent
    /\ exists rest, sent = PostToken :: rest /\ ~ In PostToken rest.
Proof.
  destruct (lookup_requests_the_token_first_and_once
              Demo.world 0 (Some "https://open.spotify.com/track/t3"%string) [])
    as (sent & Hlog & _ & Hfirst).
  exists sent. split; [exact Hlog |].
  apply Hfirst; reflexivity.
Defined.

Lemma length_searchRequests artistName offset n :
  List.length (searchRequests artistName offset n) = n.
Proof. unfold searchRequests. rewrite length_map, length_seq. reflexivity. Qed.

(** X13. An artist lookup sends at most seven requests: the token, the artist
    (twice: for the details and for the name to search), and at most four
    searches. It never asks the provider for a track or an album. *)
Theorem artist_lookup_sends_at_most_seven_requests :
  forall (w : World) (fuel : nat) (url artistId : string) (log : list Request),
    classify url = IsArtist artistId ->
    exists sent,
      fst (POST w fuel (Some url) log) = log ++ sent
      /\ (List.length sent <= 7)%nat
      /\ Forall (fun r => r = PostToken \/ isArtistLookup artistId r) sent.
Proof.
  intros w fuel url artistId log Hclass. rewrite POST_log. unfold tryPOST.
  destruct (negb (truthy (Some url))).
  { exists []. rewrite app_nil_r. split; [reflexivity |]. split; [cbn; lia | constructor]. }
  unfold bind at 1, getAccessToken.
  destruct (negb (truthy (SPOTIFY_CLIENT_ID w)) || negb (truthy (SPOTIFY_CLIENT_SECRET w))).
  { exists []. rewrite app_nil_r. split; [reflexivity |]. split; [cbn; lia | constructor]. }
  unfold axios at 1. destruct (token_endpoint w) as [token | failure].
  2: { exists [PostToken]. split; [reflexivity |]. split; [cbn; lia |].
       constructor; [left; reflexivity | constructor]. }
  rewrite Hclass. unfold artistBranch, bind, promiseAll2, getArtistDetails, axios at 1.
  destruct (getArtistTopTracks_requests w artistId
              ((log ++ [PostToken]) ++ [GetArtist artistId]))
    as (log' & out & Hrun & Hlog).
  rewrite Hrun.
  assert (exists sent,
             log' = log ++ sent
             /\ (List.length sent <= 7)%nat
             /\ Forall (fun r => r = PostToken \/ isArtistLookup artistId r) sent)
    as (sent & -> & Hlen & Hall).
  { destruct Hlog as [[-> _] | (artistResponse & n & _ & Hn & ->)].
    - exists [PostToken; GetArtist artistId; GetArtist artistId].
      rewrite <- !app_assoc. split; [reflexivity |]. split; [cbn; lia |].
      repeat constructor; right; left; reflexivity.
    - exists (PostToken :: GetArtist artistId :: GetArtist artistId
                :: searchRequests (SpotifyArtistResponse.name artistResponse) 0 n).
      rewrite <- !app_assoc. split; [reflexivity |]. split.
      + cbn [List.length]. rewrite length_searchRequests. lia.
      + constructor; [left; reflexivity |].
        constructor; [right; left; reflexivity |].
        constructor; [right; left; reflexivity |].
        apply Forall_forall. intros r Hr. unfold searchRequests in Hr.
        apply in_map_iff in Hr. destruct Hr as (k & <- & _).
        right. right. eexists. eexists. reflexivity. }
  exists sent. split; [| split; assumption].
  destruct (artists_endpoint w artistId) as [artist | failure];
    destruct out as [topTracks | e | ]; reflexivity.
Qed.

Lemma artist_lookup_sends_at_most_seven_requests_witness :
  exists sent,
    fst (POST Demo.world 0 (Some "https://open.spotify.com/artist/ar1") []) = [] ++ sent
    /\ (List.length sent <= 7)%nat
    /\ Forall (fun r => r = PostToken \/ isArtistLookup "ar1" r) sent.
Proof.
  apply (artist_lookup_sends_at_most_seven_requests
           Demo.world 0 "https://open.spotify.com/artist/ar1" "ar1" []).
  vm_compute. reflexivity.
Defined.

(** ** Nothing is lost below the cap *)

Lemma filterPrimary_keeps artistId tracks kept track :
  filterPrimary artistId tracks = Ok kept ->
  In track tracks ->
  PrimaryArtist SpotifyTrack.artists artistId track ->
  In track kept.
Proof.
  revert kept. induction tracks as [| t rest IH]; intros kept H Hin Hprimary; [destruct Hin |].
  cbn in H. destruct (SpotifyTrack.artists t) as [| artist others] eqn:Eartists;
    cbn in H; [discriminate H |].
  destruct (filterPrimary artistId rest) as [kept' | e | ]; try discriminate H.
  injection H as <-. destruct Hin as [<- | Hin].
  - destruct Hprimary as (a & others' & Ha & Hid). rewrite Eartists in Ha.
    injection Ha as <- <-. apply String.eqb_eq in Hid. rewrite Hid. left. reflexivity.
  - specialize (IH kept' eq_refl Hin Hprimary).
    destruct (SpotifyArtist.id artist =? artistId)%string; [right |]; exact IH.
Qed.

Lemma searchPages_incl w artistId artistName :
  forall fuel acc offset log log' found,
    searchPages w fuel artistId artistName acc offset log = (log', Ok found) ->
    incl acc found.
Proof.
  induction fuel as [| fuel IH]; intros acc offset log log' found H;
    cbn [searchPages] in H;
    destruct ((Z.of_nat (List.length acc) <? 100) && (offset <? 200)).
  - discriminate H.
  - apply ret_Ok in H. destruct H as [_ ->]. apply incl_refl.
  - apply bind_Ok in H. destruct H as (searchResponse & log1 & _ & H). cbv zeta in H.
    destruct (Z.of_nat (List.length (SpotifySearchResponse.items searchResponse)) =? 0).
    + apply ret_Ok in H. destruct H as [_ ->]. apply incl_refl.
    + apply bind_Ok in H. destruct H as (newPrimaryTracks & log2 & _ & H).
      apply IH in H. intros t Ht. apply H, in_or_app. left. exact Ht.
  - apply ret_Ok in H. destruct H as [_ ->]. apply incl_refl.
Qed.

Lemma searchPages_first_page w artistId artistName fuel log log' found page track :
  searchPages w (S fuel) artistId artistName [] 0 log = (log', Ok found) ->
  search_endpoint w artistName 0 = Success page ->
  In track (SpotifySearchResponse.items page) ->
  PrimaryArtist SpotifyTrack.artists artistId track ->
  In track found.
Proof.
  intros H Hpage Hin Hprimary. cbn [searchPages] in H.
  change ((Z.of_nat (List.length (@nil SpotifyTrack.t)) <? 100) && (0 <? 200)) with true in H.
  cbv iota in H.
  apply bind_Ok in H. destruct H as (searchResponse & log1 & Hsearch & H).
  apply axios_Ok in Hsearch. destruct Hsearch as [_ Hsearch].
  rewrite Hpage in Hsearch. injection Hsearch as <-. cbv zeta in H.
  destruct (Z.of_nat (List.length (SpotifySearchResponse.items page)) =? 0) eqn:E.
  - apply Z.eqb_eq in E. destruct (SpotifySearchResponse.items page); [destruct Hin |].
    cbn in E. lia.
  - apply bind_Ok in H. destruct H as (newPrimaryTracks & log2 & Hfilter & H).
    apply lift_Ok in Hfilter. destruct Hfilter as [_ Hfilter].
    apply searchPages_incl in H. apply H. cbn.
    eapply filterPrimary_keeps; eassumption.
Qed.

(** X14. When [getArtistTopTracks] returns fewer than 100 tracks, nothing was
    cut: every track of the first search page whose first artist is the
    target artist is in the returned list. *)
Theorem artist_top_tracks_below_the_cap_keep_the_first_page :
  forall (w : World) (artistId : string) (log log' : list Request)
         (tracks : list ProcessedTrack.t) (artist : SpotifyArtistResponse.t)
         (page : SpotifySearchResponse.t) (track : SpotifyTrack.t),
    getArtistTopTracks w artistId log = (log', Ok tracks) ->
    (List.length tracks < 100)%nat ->
    artists_endpoint w artistId = Success artist ->
    search_endpoint w (SpotifyArtistResponse.name artist) 0 = Success page ->
    In track (SpotifySearchResponse.items page) ->
    PrimaryArtist SpotifyTrack.artists artistId track ->
    In (processSearchTrack track) tracks.
Proof.
  intros w artistId log log' tracks artist page track H Hlen Hartist Hpage Hin Hprimary.
  unfold getArtistTopTracks in H.
  apply bind_Ok in H. destruct H as (artistResponse & log1 & Ha & H).
  apply axios_Ok in Ha. destruct Ha as [_ Ha]. rewrite Hartist in Ha. injection Ha as <-.
  apply bind_Ok in H. destruct H as (found & log2 & Hsearch & H).
  apply ret_Ok in H. destruct H as [_ ->].
  pose proof (searchPages_first_page _ _ _ _ _ _ _ _ _ Hsearch Hpage Hin Hprimary) as Hfound.
  unfold slice0 in *.
  assert (List.length (sort byPopularity (map processSearchTrack found)) < 100)%nat as Hall.
  { rewrite length_firstn in Hlen. lia. }
  rewrite firstn_all2 by lia.
  apply sort_In, in_map, Hfound.
Qed.

Lemma artist_top_tracks_below_the_cap_keep_the_first_page_witness :
  exists tracks : list ProcessedTrack.t,
    map ProcessedTrack.id tracks = ["t2"; "s1"; "t3"]
    /\ In (processSearchTrack (Demo.rawTrack "s1" 70 [Demo.artistOne] (Some "S1"))) tracks.
Proof.
  assert (exists log' tracks,
             getArtistTopTracks Demo.world "ar1" [] = (log', Ok tracks)
             /\ map ProcessedTrack.id tracks = ["t2"; "s1"; "t3"])
    as (log' & tracks & Hrun & Hids)
    by (eexists; eexists; vm_compute; split; reflexivity).
  exists tracks. split; [exact Hids |].
  refine (artist_top_tracks_below_the_cap_keep_the_first_page
            Demo.world "ar1" [] log' tracks _ _ _ Hrun _ eq_refl eq_refl _ _).
  - apply (f_equal (@List.length string)) in Hids. rewrite length_map in Hids.
    rewrite Hids. cbn. lia.
  - right. right. left. reflexivity.
  - eexists. eexists. split; reflexivity.
Defined.

(** ** A track without an album *)

(** X15. When the provider's track carries no album, a track lookup cannot
    rank it: it is answered with status 404, "Track album information not
    found", after the token and the track request and nothing else. *)
Theorem track_without_album_is_answered_404 :
  forall (w : World) (fuel : nat) (url trackId accessToken : string)
         (log log1 : list Request) (track : SpotifyTrack.t),
    url <> ""%string ->
    classify url = IsTrack trackId ->
    getAccessToken w log = (log1, Ok accessToken) ->
    tracks_endpoint w trackId = Success track ->
    SpotifyTrack.album track = None ->
    POST w fuel (Some url) log
    = (log1 ++ [GetTrack trackId],
       Ok (errorResponse 404 "Track album information not found")).
Proof.
  intros w fuel url trackId accessToken log log1 track Hurl Hclass Htoken Htrack Halbum.
  unfold POST, tryPOST.
  assert (truthy (Some url) = true) as ->
    by (cbn; apply negb_true_iff, String.eqb_neq, Hurl).
  cbn [negb]. unfold bind at 1. rewrite Htoken, Hclass.
  unfold trackBranch, bind at 1, getTrackDetails, bind at 1, axios at 1.
  rewrite Htrack, Halbum. reflexivity.
Qed.

Lemma track_without_album_is_answered_404_witness :
  POST albumless 0 (Some "https://open.spotify.com/track/d1") []
  = ([PostToken; GetTrack "d1"],
     Ok (errorResponse 404 "Track album information not found")).
Proof.
  refine (track_without_album_is_answered_404
            albumless 0 "https://open.spotify.com/track/d1" "d1" "token" [] [PostToken]
            (Demo.rawTrack "d1" 5 [Demo.artistOne] None) _ _ _ _ _).
  - discriminate.
  - vm_compute. reflexivity.
  - reflexivity.
  - reflexivity.
  - reflexivity.
Defined.

(** * The album route *)

Module TracksRouteFacts.
Import TracksRoute.

Lemma all_Ok {A} (os : list (Outcome A)) (xs : list A) :
  all os = Ok xs -> os = map Ok xs.
Proof.
  revert xs. induction os as [| o os IH]; intros xs H; cbn in H.
  - injection H as <-. reflexivity.
  - destruct o as [x | e | ]; cbn in H.
    + destruct (all os) as [xs' | e | ]; cbn in H; try discriminate H.
      injection H as <-. cbn. rewrite (IH xs' eq_refl). reflexivity.
    + discriminate H.
    + destruct (all os); discriminate H.
Qed.

Lemma all_Throw_or_Ok {A} (os : list (Outcome A)) :
  (forall o, In o os -> o <> Diverge) ->
  (exists xs, all os = Ok xs) \/ (exists e, all os = Throw e).
Proof.
  induction os as [| o os IH]; intros Hall; cbn.
  - left. eexists. reflexivity.
  - destruct (IH (fun o' Ho' => Hall o' (or_intror Ho'))) as [[xs ->] | [e ->]];
      destruct o as [x | e' | ] eqn:Eo; cbn.
    + left. eexists. reflexivity.
    + right. eexists. reflexivity.
    + exfalso. exact (Hall Diverge (or_introl eq_refl) eq_refl).
    + right. eexists. reflexivity.
    + right. eexists. reflexivity.
    + exfalso. exact (Hall Diverge (or_introl eq_refl) eq_refl).
Qed.

Lemma all_failure {A} (os : list (Outcome A)) e :
  (forall o, In o os -> o <> Diverge) ->
  In (Throw e) os ->
  exists e', all os = Throw e'.
Proof.
  intros Hall Hin. destruct (all_Throw_or_Ok os Hall) as [[xs H] | H]; [| exact H].
  apply all_Ok in H. rewrite H in Hin. apply in_map_iff in Hin.
  destruct Hin as (x & Hx & _). discriminate Hx.
Qed.

Lemma await_ends {A} (reply : Reply A) : await reply <> Diverge.
Proof. destruct reply; discriminate. Qed.

Lemma insert_sorted (x : SpotifyTrack.t) (l : list SpotifyTrack.t) :
  StronglySorted (fun a b => SpotifyTrack.popularity a >= SpotifyTrack.popularity b) l ->
  StronglySorted (fun a b => SpotifyTrack.popularity a >= SpotifyTrack.popularity b)
                 (insert byPopularity x l).
Proof.
  induction 1 as [| y l Hl IH Hy]; cbn [insert].
  - constructor; constructor.
  - destruct (byPopularity x y >? 0) eqn:E; unfold byPopularity in E.
    + constructor; [exact IH |].
      apply Forall_forall. intros z Hz. apply insert_In in Hz.
      destruct Hz as [-> | Hz]; [lia |].
      rewrite Forall_forall in Hy. apply Hy, Hz.
    + constructor; [constructor; assumption |].
      constructor; [lia |].
      rewrite Forall_forall in Hy |- *. intros z Hz. specialize (Hy z Hz). lia.
Qed.

Lemma sort_sorted (l : list SpotifyTrack.t) :
  StronglySorted (fun a b => SpotifyTrack.popularity a >= SpotifyTrack.popularity b)
                 (sort byPopularity l).
Proof.
  induction l as [| x l IH]; cbn; [constructor | apply insert_sorted, IH].
Qed.

(** X16. When the album route answers with tracks, the URL holds an album id,
    the provider answered its listing and the request of every listed track,
    and the answer is those tracks, one per listed item, rearranged so that
    no track is followed by a more popular one. *)
Theorem tracks_answer_is_the_listing_sorted :
  forall (p : Provider) (url : option string) (tracks : list SpotifyTrack.t),
    POST p url = Tracks tracks ->
    exists u albumId items details,
      url = Some u
      /\ extractAlbumId u = Some albumId
      /\ album_tracks p albumId = Success items
      /\ Forall2 (fun item t => track p (AlbumItem.id item) = Success t) items details
      /\ Permutation tracks details
      /\ StronglySorted
           (fun a b => SpotifyTrack.popularity a >= SpotifyTrack.popularity b) tracks.
Proof.
  intros p url tracks H. unfold POST in H.
  destruct (tryPOST p url) as [answer | e | ] eqn:Etry; try discriminate H. subst answer.
  unfold tryPOST in Etry. destruct url as [u |]; [| discriminate Etry].
  destruct (extractAlbumId u) as [albumId |] eqn:Eid; [| discriminate Etry].
  destruct (album_tracks p albumId) as [items | failure] eqn:Eitems; cbn in Etry;
    [| discriminate Etry].
  destruct (all (map (fun item => await (track p (AlbumItem.id item))) items))
    as [details | e | ] eqn:Eall; cbn in Etry; try discriminate Etry.
  injection Etry as <-.
  exists u, albumId, items, details.
  split; [reflexivity |]. split; [exact Eid |]. split; [exact Eitems |].
  split; [| split; [apply sort_Permutation | apply sort_sorted]].
  apply all_Ok in Eall. clear - Eall. revert details Eall.
  induction items as [| item items IH]; intros [| t details] E; try discriminate E.
  - constructor.
  - cbn in E. injection E as Ht E. constructor; [| exact (IH _ E)].
    destruct (track p (AlbumItem.id item)); [| discriminate Ht].
    injection Ht as ->. reflexivity.
Qed.

Lemma tracks_answer_is_the_listing_sorted_witness :
  exists tracks : list SpotifyTrack.t,
    map SpotifyTrack.popularity tracks = [90; 60; 40]
    /\ StronglySorted
         (fun a b => SpotifyTrack.popularity a >= SpotifyTrack.popularity b) tracks.
Proof.
  assert (exists tracks,
             POST demo (Some "https://open.spotify.com/album/A3?si=1"%string) = Tracks tracks
             /\ map SpotifyTrack.popularity tracks = [90; 60; 40])
    as (tracks & Hrun & Hpop) by (eexists; vm_compute; split; reflexivity).
  exists tracks. split; [exact Hpop |].
  destruct (tracks_answer_is_the_listing_sorted demo _ tracks Hrun)
    as (_ & _ & _ & _ & _ & _ & _ & _ & _ & Hsorted).
  exact Hsorted.
Defined.

(** X17. The album route always answers, and its errors are of two kinds
    only: status 400, "Invalid Spotify album URL", exactly for a URL without
    an album id; status 500, "Failed to fetch tracks", for a request without
    a URL and whenever the provider rejects the listing or one listed track,
    whatever status the provider gave. *)
Theorem tracks_route_errors_are_400_or_500 :
  forall (p : Provider),
    POST p None = Error 500 "Failed to fetch tracks"
    /\ (forall u, extractAlbumId u = None <->
                  POST p (Some u) = Error 400 "Invalid Spotify album URL")
    /\ (forall u albumId failure,
          extractAlbumId u = Some albumId ->
          album_tracks p albumId = Failure failure ->
          POST p (Some u) = Error 500 "Failed to fetch tracks")
    /\ (forall u albumId items item failure,
          extractAlbumId u = Some albumId ->
          album_tracks p albumId = Success items ->
          In item items ->
          track p (AlbumItem.id item) = Failure failure ->
          POST p (Some u) = Error 500 "Failed to fetch tracks")
    /\ (forall url status error,
          POST p url = Error status error ->
          (status = 400 /\ error = "Invalid Spotify album URL"%string)
          \/ (status = 500 /\ error = "Failed to fetch tracks"%string)).
Proof.
  intros p. split; [reflexivity |]. split; [| split; [| split]].
  - intros u. unfold POST, tryPOST. split.
    + intros ->. reflexivity.
    + destruct (extractAlbumId u) as [albumId |]; [| reflexivity].
      destruct (album_tracks p albumId) as [items | failure]; cbn; [| discriminate].
      destruct (all _); cbn; discriminate.
  - intros u albumId failure Hid Hitems. unfold POST, tryPOST.
    rewrite Hid, Hitems. reflexivity.
  - intros u albumId items item failure Hid Hitems Hin Htrack. unfold POST, tryPOST.
    rewrite Hid, Hitems. cbn.
    destruct (all_failure
                (map (fun item => await (track p (AlbumItem.id item))) items)
                (AxiosError failure)) as [e ->].
    + intros o Ho. apply in_map_iff in Ho. destruct Ho as (i & <- & _). apply await_ends.
    + apply in_map_iff. exists item. rewrite Htrack. split; [reflexivity | exact Hin].
    + reflexivity.
  - intros url status error H. unfold POST in H.
    destruct (tryPOST p url) as [answer | e | ] eqn:Etry.
    + subst answer. unfold tryPOST in Etry. destruct url as [u |]; [| discriminate Etry].
      destruct (extractAlbumId u) as [albumId |].
      * destruct (album_tracks p albumId); cbn in Etry; [| discriminate Etry].
        destruct (all _); cbn in Etry; discriminate Etry.
      * injection Etry as <- <-. left. split; reflexivity.
    + injection H as <- <-. right. split; reflexivity.
    + injection H as <- <-. right. split; reflexivity.
Qed.

(** The second track of album B2 is unknown to the provider, which answers
    404; the route answers 500. *)
Lemma tracks_route_errors_are_400_or_500_witness :
  POST demo (Some "https://open.spotify.com/album/B2"%string)
  = Error 500 "Failed to fetch tracks"
  /\ POST demo (Some "https://open.spotify.com/track/t1"%string)
     = Error 400 "Invalid Spotify album URL".
Proof.
  pose proof (tracks_route_errors_are_400_or_500 demo) as (_ & H400 & _ & H500 & _).
  split.
  - refine (H500 _ "B2"%string _ (Demo.item "gone") _ _ eq_refl _ eq_refl).
    + vm_compute. reflexivity.
    + right. left. reflexivity.
  - apply H400. vm_compute. reflexivity.
Defined.

End TracksRouteFacts.

(** * The search route *)

Module SearchRouteFacts.
Import SearchRoute.

(** X18. The search route answers a missing or empty query with status 400
    and sends nothing. Otherwise it requests the token first and searches
    only once the token is obtained, once, for the query as given and the
    types asked for ("track,artist,album" when none are given); it answers
    with the provider's results unchanged, or with an error of non-zero
    status (one that a response may carry) and non-empty message. An
    exception leaves the handler only when the provider has rejected the
    token request or the search with a status that a response cannot
    carry. *)
Theorem search_route_searches_only_with_a_query_and_a_token :
  forall (Data : Type) (p : Provider Data) (q type : option string),
    (truthy q = false ->
     GET p q type = ([], Ok (Error 400 "Search query is required")))
    /\ (truthy q = true ->
        exists query rest,
          q = Some query
          /\ fst (GET p q type) = PostToken :: rest
          /\ (rest = []
              \/ (rest = [GetSearch query
                            (if truthy type
                             then match type with Some t => t | None => ""%string end
                             else "track,artist,album"%string)]
                  /\ exists accessToken, token p = Success accessToken)))
    /\ (forall data,
          snd (GET p q type) = Ok (Results data) ->
          exists query,
            q = Some query
            /\ search p query
                 (if truthy type
                  then match type with Some t => t | None => ""%string end
                  else "track,artist,album"%string) = Success data)
    /\ (forall status error,
          snd (GET p q type) = Ok (Error status error) ->
          status <> 0 /\ error <> ""%string /\ validStatus status = true)
    /\ (forall e,
          snd (GET p q type) = Throw e ->
          exists r,
            (token p = Failure (Some r)
             \/ exists query types, search p query types = Failure (Some r))
            /\ ErrorResponse.status r <> 0
            /\ validStatus (ErrorResponse.status r) = false).
Proof.
  intros Data p q type. unfold GET. cbv zeta.
  set (types := if truthy type
                then match type with Some t => t | None => ""%string end
                else "track,artist,album"%string).
  destruct (truthy q) eqn:Eq; cbn [negb].
  2: { split; [reflexivity |]. split; [discriminate |]. split; [| split].
       - intros data H. discriminate H.
       - intros status error H. injection H as <- <-.
         split; [discriminate |]. split; [discriminate | reflexivity].
       - intros e H. discriminate H. }
  destruct q as [query |]; [| discriminate Eq].
  assert (forall answer status error,
             nextResponseJson Data answer = Ok (Error status error) ->
             answer = Error status error /\ validStatus status = true) as Hvalid.
  { intros answer status error H. destruct answer as [data | s m]; cbn in H;
      [discriminate H |].
    unfold validStatus.
    destruct (s <? 200) eqn:Elow; [discriminate H |].
    destruct (599 <? s) eqn:Ehigh; [discriminate H |]. cbn [orb] in H.
    destruct (nullBodyStatus s) eqn:Enull; [discriminate H |].
    injection H as <- <-. split; [reflexivity |].
    apply Z.ltb_ge in Elow, Ehigh. apply Z.leb_le in Elow, Ehigh.
    rewrite Elow, Ehigh, Enull. reflexivity. }
  assert (forall response status error,
             nextResponseJson Data (caught Data response) = Ok (Error status error) ->
             status <> 0 /\ error <> ""%string /\ validStatus status = true) as Hcaught.
  { intros response status error H. apply Hvalid in H. destruct H as [H Hv].
    split; [| split; [| exact Hv]]; unfold caught in H; injection H as <- <-.
    - destruct response as [[s m] |]; cbn; [| discriminate].
      destruct (s =? 0) eqn:E; [discriminate | apply Z.eqb_neq, E].
    - destruct response as [[s m] |]; cbn; [| discriminate].
      destruct m as [m |]; cbn; [| discriminate].
      destruct (m =? "")%string eqn:E; cbn; [discriminate | apply String.eqb_neq, E]. }
  assert (forall response e,
             nextResponseJson Data (caught Data response) = Throw e ->
             exists r, response = Some r
                       /\ ErrorResponse.status r <> 0
                       /\ validStatus (ErrorResponse.status r) = false) as Hthrow.
  { intros response e H. destruct response as [[s m] |]; [| discriminate H].
    exists (ErrorResponse.mk s m). split; [reflexivity |]. cbn in *.
    destruct (s =? 0) eqn:E; [discriminate H |].
    split; [apply Z.eqb_neq, E |]. unfold validStatus.
    destruct (s <? 200) eqn:Elow.
    - apply Z.ltb_lt in Elow. replace (200 <=? s) with false; [reflexivity |].
      symmetry. apply Z.leb_gt. exact Elow.
    - destruct (599 <? s) eqn:Ehigh.
      + apply Z.ltb_lt in Ehigh. replace (s <=? 599) with false;
          [apply andb_false_intro1, andb_false_r |].
        symmetry. apply Z.leb_gt. exact Ehigh.
      + cbn [orb] in H. destruct (nullBodyStatus s); [| discriminate H].
        apply andb_false_r. }
  split; [discriminate |].
  destruct (token p) as [accessToken | failure] eqn:Etoken.
  - destruct (search p query types) as [data | failure] eqn:Esearch; cbn [fst snd].
    + split; [| split; [| split]].
      * intros _. exists query, [GetSearch query types].
        split; [reflexivity |]. split; [reflexivity |]. right.
        split; [reflexivity | exists accessToken; reflexivity].
      * intros data' H. injection H as <-. exists query. split; [reflexivity | exact Esearch].
      * intros status error H. discriminate H.
      * intros e H. discriminate H.
    + split; [| split; [| split]].
      * intros _. exists query, [GetSearch query types].
        split; [reflexivity |]. split; [reflexivity |]. right.
        split; [reflexivity | exists accessToken; reflexivity].
      * intros data' H. destruct (caught Data failure) as [d | st er] eqn:Ec;
          [discriminate Ec |]. cbn in H.
        destruct ((st <? 200) || (599 <? st)); [discriminate H |].
        destruct (nullBodyStatus st); discriminate H.
      * intros status error H. exact (Hcaught _ _ _ H).
      * intros e H. destruct (Hthrow _ _ H) as (r & -> & Hr).
        exists r. split; [right; exists query, types; exact Esearch | exact Hr].
  - cbn [fst snd]. split; [| split; [| split]].
    + intros _. exists query, []. split; [reflexivity |]. split; [reflexivity |].
      left. reflexivity.
    + intros data' H. destruct (caught Data failure) as [d | st er] eqn:Ec;
        [discriminate Ec |]. cbn in H.
      destruct ((st <? 200) || (599 <? st)); [discriminate H |].
      destruct (nullBodyStatus st); discriminate H.
    + intros status error H. exact (Hcaught _ _ _ H).
    + intros e H. destruct (Hthrow _ _ H) as (r & -> & Hr).
      exists r. split; [left; reflexivity | exact Hr].
Qed.

(** A search for "abba" without a type asks for the three kinds. *)
Lemma search_route_searches_only_with_a_query_and_a_token_witness :
  GET (mkProvider (Success "token"%string)
         (fun query type => Success (query ++ "?" ++ type)%string))
      (Some "abba"%string) None
  = ([PostToken; GetSearch "abba" "track,artist,album"],
     Ok (Results "abba?track,artist,album"%string))
  /\ exists query rest,
       Some "abba"%string = Some query
       /\ fst (GET (mkProvider (Success "token"%string)
                      (fun query type => Success (query ++ "?" ++ type)%string))
                   (Some "abba"%string) None)
          = PostToken :: rest
       /\ (rest = []
           \/ (rest = [GetSearch query "track,artist,album"]
               /\ exists accessToken : string, Success "token"%string = Success accessToken)).
Proof.
  split; [reflexivity |].
  apply (proj1 (proj2 (search_route_searches_only_with_a_query_and_a_token
                         string
                         (mkProvider (Success "token"%string)
                            (fun query type => Success (query ++ "?" ++ type)%string))
                         (Some "abba"%string) None))).
  reflexivity.
Defined.

End SearchRouteFacts.

(** * The results dropdown *)

Module SearchResultsFacts.
Import SearchResults.

Lemma flat_map_flat_map {X Y W} (f : X -> list Y) (g : Y -> list W) (l : list X) :
  flat_map g (flat_map f l) = flat_map (fun x => flat_map g (f x)) l.
Proof.
  induction l as [| x l IH]; cbn; [reflexivity |].
  rewrite flat_map_app, IH. reflexivity.
Qed.

Lemma skipn_nth_error {X} (l : list X) (i : nat) :
  skipn i l = match nth_error l i with
              | Some x => x :: skipn (S i) l
              | None => []
              end.
Proof.
  revert l. induction i as [| i IH]; intros [| x l]; cbn; try reflexivity.
  rewrite IH. destruct (nth_error l i); reflexivity.
Qed.

(** Taking the elements at the indices [i], [i + 1], ... of a list. *)
Lemma flat_map_indices {X Y} (f : X -> list Y) (l : list X) :
  forall n i,
    flat_map (fun j => match nth_error l j with Some x => f x | None => [] end) (seq i n)
    = flat_map f (firstn n (skipn i l)).
Proof.
  induction n as [| n IH]; intros i; cbn [seq flat_map]; [reflexivity |].
  rewrite IH, (skipn_nth_error l i).
  destruct (nth_error l i) as [x |] eqn:E; cbn [firstn flat_map].
  - reflexivity.
  - rewrite (skipn_all2 l (n := S i)); [destruct n; reflexivity |].
    apply nth_error_None in E. lia.
Qed.

Lemma flat_map_singleton {X} (l : list X) : flat_map (fun x => [x]) l = l.
Proof. induction l as [| x l IH]; cbn; [reflexivity | rewrite IH; reflexivity]. Qed.

Lemma flat_map_if {X} (p : X -> bool) (l : list X) :
  flat_map (fun x => if p x then [x] else []) l = filter p l.
Proof.
  induction l as [| x l IH]; cbn; [reflexivity |].
  rewrite IH. destruct (p x); reflexivity.
Qed.

Section Facts.
Variable toLowerCase : string -> string.
Variable searchQuery : string.
Variable selectedFilter : Filter.
Variable searchResults : SearchResponse.

Local Abbreviation ftracks := (filteredTracks selectedFilter searchResults).
Local Abbreviation fartists := (filteredArtists selectedFilter searchResults).
Local Abbreviation falbums := (filteredAlbums selectedFilter searchResults).
Local Abbreviation exact :=
  (exactArtistMatch toLowerCase searchQuery selectedFilter searchResults).
Local Abbreviation keep :=
  (notTheExactMatch toLowerCase searchQuery selectedFilter searchResults).
Local Abbreviation push := (pushFrom toLowerCase searchQuery selectedFilter searchResults).
Local Abbreviation row := (SearchResults.row toLowerCase searchQuery selectedFilter searchResults).

Lemma pushFrom_rows :
  forall count i allResults,
    push count i allResults = allResults ++ flat_map row (seq i count).
Proof.
  induction count as [| count IH]; intros i allResults; cbn [pushFrom seq flat_map].
  - rewrite app_nil_r. reflexivity.
  - rewrite IH. unfold SearchResults.row.
    destruct (at_ ftracks i) as [track |];
      destruct (at_ fartists i) as [artist |];
      try destruct (keep artist);
      destruct (at_ falbums i) as [album |];
      cbn [app]; rewrite ?app_nil_r, <- ?app_assoc; reflexivity.
Qed.

Lemma at_indices {X Y} (xs : option (list X)) (f : X -> list Y) n :
  (lengthOr0 xs <= n)%nat ->
  flat_map (fun j => match at_ xs j with Some x => f x | None => [] end) (seq 0 n)
  = flat_map f (orEmpty xs).
Proof.
  intros Hn. destruct xs as [l |]; cbn [at_ orEmpty lengthOr0] in *.
  - rewrite flat_map_indices. cbn [skipn]. rewrite firstn_all2 by exact Hn. reflexivity.
  - induction (seq 0 n) as [| j js IH]; cbn; [reflexivity | exact IH].
Qed.

Lemma tracksOf_rows n :
  (lengthOr0 ftracks <= n)%nat ->
  tracksOf (flat_map row (seq 0 n)) = orEmpty ftracks.
Proof.
  intros Hn. unfold tracksOf. rewrite flat_map_flat_map.
  rewrite <- (flat_map_singleton (orEmpty ftracks)), <- (at_indices ftracks _ n Hn).
  apply flat_map_ext. intros j. unfold SearchResults.row.
  destruct (at_ ftracks j); destruct (at_ fartists j) as [artist |];
    try destruct (keep artist); destruct (at_ falbums j); reflexivity.
Qed.

Lemma albumsOf_rows n :
  (lengthOr0 falbums <= n)%nat ->
  albumsOf (flat_map row (seq 0 n)) = orEmpty falbums.
Proof.
  intros Hn. unfold albumsOf. rewrite flat_map_flat_map.
  rewrite <- (flat_map_singleton (orEmpty falbums)), <- (at_indices falbums _ n Hn).
  apply flat_map_ext. intros j. unfold SearchResults.row.
  destruct (at_ ftracks j); destruct (at_ fartists j) as [artist |];
    try destruct (keep artist); destruct (at_ falbums j); reflexivity.
Qed.

Lemma artistsOf_rows n :
  (lengthOr0 fartists <= n)%nat ->
  artistsOf (flat_map row (seq 0 n)) = filter keep (orEmpty fartists).
Proof.
  intros Hn. unfold artistsOf. rewrite flat_map_flat_map.
  rewrite <- (flat_map_if keep (orEmpty fartists)), <- (at_indices fartists _ n Hn).
  apply flat_map_ext. intros j. unfold SearchResults.row.
  destruct (at_ ftracks j); destruct (at_ fartists j) as [artist |];
    try destruct (keep artist); destruct (at_ falbums j); reflexivity.
Qed.

(** The rows of each kind in the rendered list. *)
Lemma renderSearchResults_rows rows :
  renderSearchResults toLowerCase searchQuery selectedFilter searchResults = Some rows ->
  tracksOf rows = orEmpty ftracks
  /\ albumsOf rows = orEmpty falbums
  /\ match exact with
     | Some e =>
         (exists rest, rows = ResultArtist e :: rest)
         /\ In e (orEmpty fartists)
         /\ toLowerCase (SpotifyArtistResponse.name e) = toLowerCase searchQuery
         /\ SpotifyArtistResponse.followers_total e > 10000
         /\ artistsOf rows
            = e :: filter (fun a => negb (SpotifyArtistResponse.id a
                                          =? SpotifyArtistResponse.id e)%string)
                          (orEmpty fartists)
     | None => artistsOf rows = orEmpty fartists
     end.
Proof.
  unfold renderSearchResults, hasResults. intros H.
  destruct (negb _); [| discriminate H]. injection H as <-.
  rewrite pushFrom_rows.
  unfold tracksOf, albumsOf, artistsOf. rewrite !flat_map_app.
  fold (tracksOf (flat_map row (seq 0 (maxResults selectedFilter searchResults)))).
  fold (albumsOf (flat_map row (seq 0 (maxResults selectedFilter searchResults)))).
  fold (artistsOf (flat_map row (seq 0 (maxResults selectedFilter searchResults)))).
  rewrite tracksOf_rows by (unfold maxResults; lia).
  rewrite albumsOf_rows by (unfold maxResults; lia).
  rewrite artistsOf_rows by (unfold maxResults; lia).
  unfold notTheExactMatch.
  destruct exact as [e |] eqn:Eexact; cbn.
  - split; [reflexivity |]. split; [reflexivity |].
    split; [eexists; reflexivity |].
    unfold exactArtistMatch in Eexact.
    destruct fartists as [l |]; [| discriminate Eexact]. cbn [orEmpty].
    apply find_some in Eexact. destruct Eexact as [Hin Hpred].
    apply andb_true_iff in Hpred. destruct Hpred as [Hname Hfollowers].
    split; [exact Hin |]. split; [apply String.eqb_eq, Hname |].
    split; [apply Z.gtb_lt in Hfollowers; lia | reflexivity].
  - split; [reflexivity |]. split; [reflexivity |].
    induction (orEmpty fartists) as [| a l IH]; cbn; [reflexivity |].
    rewrite IH at 1. reflexivity.
Qed.

(** X19. The list that the page renders holds every track and every album of
    the filtered response exactly once, in the provider's order; its artists
    are the exact match (the first artist whose lower-cased name is the
    lower-cased query and who has more than 10000 followers), which is the
    first row of the list, followed by the artists whose id is not that of
    the exact match; without an exact match they are all the artists. Nothing
    is rendered exactly when the three filtered lists are empty. *)
Theorem rendered_results_hold_every_result :
  (renderSearchResults toLowerCase searchQuery selectedFilter searchResults = None <->
   orEmpty ftracks = [] /\ orEmpty fartists = [] /\ orEmpty falbums = [])
  /\ forall rows,
       renderSearchResults toLowerCase searchQuery selectedFilter searchResults = Some rows ->
       tracksOf rows = orEmpty ftracks
       /\ albumsOf rows = orEmpty falbums
       /\ match exact with
          | Some e =>
              (exists rest, rows = ResultArtist e :: rest)
              /\ In e (orEmpty fartists)
              /\ toLowerCase (SpotifyArtistResponse.name e) = toLowerCase searchQuery
              /\ SpotifyArtistResponse.followers_total e > 10000
              /\ artistsOf rows
                 = e :: filter (fun a => negb (SpotifyArtistResponse.id a
                                               =? SpotifyArtistResponse.id e)%string)
                               (orEmpty fartists)
          | None => artistsOf rows = orEmpty fartists
          end.
Proof.
  split; [| exact renderSearchResults_rows].
  unfold renderSearchResults, hasResults.
  destruct ftracks as [[| t ts] |], fartists as [[| a arts] |], falbums as [[| b bs] |];
    cbn; split; try discriminate; try reflexivity;
    try (intros (H1 & H2 & H3); discriminate);
    intros _; repeat split.
Qed.

Lemma keep_first_Permutation (e : SpotifyArtistResponse.t)
    (l : list SpotifyArtistResponse.t) :
  NoDup (map SpotifyArtistResponse.id l) ->
  In e l ->
  Permutation
    (e :: filter (fun a => negb (SpotifyArtistResponse.id a
                                 =? SpotifyArtistResponse.id e)%string) l)
    l.
Proof.
  induction l as [| x l IH]; intros Hnodup Hin; [destruct Hin |].
  cbn [map] in Hnodup. apply NoDup_cons_iff in Hnodup. destruct Hnodup as [Hx Hnodup].
  cbn [filter].
  destruct (SpotifyArtistResponse.id x =? SpotifyArtistResponse.id e)%string eqn:E; cbn [negb].
  - apply String.eqb_eq in E.
    assert (x = e) as ->.
    { destruct Hin as [H | H]; [exact H |]. exfalso. apply Hx. rewrite E.
      apply in_map, H. }
    apply perm_skip.
    assert (filter (fun a => negb (SpotifyArtistResponse.id a
                                   =? SpotifyArtistResponse.id e)%string) l = l) as ->;
      [| reflexivity].
    clear - Hx. induction l as [| y l IH]; cbn; [reflexivity |].
    destruct (SpotifyArtistResponse.id y =? SpotifyArtistResponse.id e)%string eqn:E; cbn.
    + exfalso. apply Hx. left. apply String.eqb_eq, E.
    + rewrite IH; [reflexivity |]. intros H. apply Hx. right. exact H.
  - apply String.eqb_neq in E.
    destruct Hin as [H | H]; [subst x; contradiction |].
    rewrite perm_swap. apply perm_skip. apply IH; assumption.
Qed.

(** X20. When the artists of the filtered response have distinct ids, the
    rendered list holds each of them exactly once: promoting the exact match
    to the first row neither drops nor repeats an artist. *)
Theorem rendered_results_keep_every_artist_once :
  forall rows,
    renderSearchResults toLowerCase searchQuery selectedFilter searchResults = Some rows ->
    NoDup (map SpotifyArtistResponse.id (orEmpty fartists)) ->
    Permutation (artistsOf rows) (orEmpty fartists).
Proof.
  intros rows Hrows Hnodup.
  destruct (renderSearchResults_rows rows Hrows) as (_ & _ & Hartists).
  destruct exact as [e |].
  - destruct Hartists as (_ & Hin & _ & _ & ->). apply keep_first_Permutation; assumption.
  - rewrite Hartists. reflexivity.
Qed.

End Facts.

(** Searching "artist one": the second artist is the exact match and comes
    first; both artists and the track are in the list, once. *)
Lemma rendered_results_keep_every_artist_once_witness :
  exists rows,
    renderSearchResults (fun s => s) "Artist One" FilterAll demoResponse = Some rows
    /\ map SpotifyArtistResponse.id (artistsOf rows) = ["ar1"; "ar2"]
    /\ Permutation (artistsOf rows) (orEmpty (artists demoResponse)).
Proof.
  assert (exists rows,
             renderSearchResults (fun s => s) "Artist One" FilterAll demoResponse = Some rows
             /\ map SpotifyArtistResponse.id (artistsOf rows) = ["ar1"; "ar2"])
    as (rows & Hrows & Hids) by (eexists; vm_compute; split; reflexivity).
  exists rows. split; [exact Hrows |]. split; [exact Hids |].
  apply (rendered_results_keep_every_artist_once
           (fun s => s) "Artist One" FilterAll demoResponse rows Hrows).
  cbn. repeat constructor; cbn; intuition discriminate.
Defined.

(** The same search: the track is in the list, and the exact match is the
    first row. *)
Lemma rendered_results_hold_every_result_witness :
  exists rows,
    renderSearchResults (fun s => s) "Artist One" FilterAll demoResponse = Some rows
    /\ tracksOf rows = orEmpty (tracks demoResponse)
    /\ exists rest, rows = ResultArtist (demoArtist "ar1" "Artist One" 20000) :: rest.
Proof.
  assert (exists rows,
             renderSearchResults (fun s => s) "Artist One" FilterAll demoResponse = Some rows)
    as (rows & Hrows) by (eexists; vm_compute; reflexivity).
  exists rows. split; [exact Hrows |].
  destruct (proj2 (rendered_results_hold_every_result
                     (fun s => s) "Artist One" FilterAll demoResponse) rows Hrows)
    as (Htracks & _ & Hexact).
  split; [exact Htracks |].
  change (exactArtistMatch (fun s => s) "Artist One" FilterAll demoResponse)
    with (Some (demoArtist "ar1" "Artist One" 20000)) in Hexact.
  apply Hexact.
Defined.

End SearchResultsFacts.

